(** * resume-agent: version log, replacement validation, revert

    A shallow embedding of the TypeScript sources [src/main.ts],
    [src/groqClient.ts] and [src/googleDrive.ts], and the properties of
    the design document that concern them.

    Conventions.
    - A JavaScript string is the sequence of its UTF-16 code units.
    - A function that awaits an external service takes the answers of
      that service as an argument (a record of answers for one run);
      the local log file and the calls made are threaded as state.
    - Returning, [throw] and [process.exit] are the three outcomes of
      a computation in the monad [Eff.M]; [try]/[catch] handles the
      second. *)

From Stdlib Require Import String Ascii ZArith NArith DecimalString Lia.
From stdpp Require Import base tactics option numbers list gmap.

Local Open Scope Z_scope.

(** ** JavaScript strings and the built-ins the sources call *)

Module Js.

Definition jsstring := list N.

(** A literal of the sources, as code units (ASCII literals only). *)
Definition lit (s : string) : jsstring :=
  map N_of_ascii (list_ascii_of_string s).

(** [WhiteSpace] and [LineTerminator] of ECMAScript: what [\s] matches
    (without the [u] flag) and what [String.prototype.trim] and
    [parseInt] strip. *)
Definition isWhiteSpace (c : N) : bool :=
  ((9 <=? c) && (c <=? 13))%N          (* TAB LF VT FF CR *)
  || (c =? 32)%N                        (* SPACE *)
  || (c =? 160)%N                       (* NO-BREAK SPACE *)
  || (c =? 5760)%N                      (* U+1680 *)
  || ((8192 <=? c) && (c <=? 8202))%N   (* U+2000 .. U+200A *)
  || (c =? 8232)%N || (c =? 8233)%N     (* U+2028 U+2029 *)
  || (c =? 8239)%N                      (* U+202F *)
  || (c =? 8287)%N                      (* U+205F *)
  || (c =? 12288)%N                     (* U+3000 *)
  || (c =? 65279)%N.                    (* U+FEFF *)

Fixpoint trimStart (s : jsstring) : jsstring :=
  match s with
  | c :: s' => if isWhiteSpace c then trimStart s' else s
  | [] => []
  end.

Definition trimEnd (s : jsstring) : jsstring :=
  rev (trimStart (rev s)).

(** [s.trim()] *)
Definition trim (s : jsstring) : jsstring := trimEnd (trimStart s).

(** [s === t] on strings *)
Definition str_eqb (s t : jsstring) : bool := bool_decide (s = t).

(** [s.startsWith(p)] *)
Fixpoint startsWith (s p : jsstring) {struct p} : bool :=
  match p, s with
  | [], _ => true
  | a :: p', b :: s' => (a =? b)%N && startsWith s' p'
  | _ :: _, [] => false
  end.

(** [s.includes(t)]: [t] occurs in [s] at some position. *)
Fixpoint includes (s t : jsstring) : bool :=
  startsWith s t ||
  match s with
  | [] => false
  | _ :: s' => includes s' t
  end.

(** [s.split(/\s+/)]: the pieces between the maximal runs of white
    space.  [prevWs] tells that the code unit before [s] was white
    space, so the run it belongs to has already ended a piece. *)
Fixpoint splitWsFrom (prevWs : bool) (s : jsstring) : list jsstring :=
  match s with
  | [] => [[]]
  | c :: s' =>
      if isWhiteSpace c then
        if prevWs then splitWsFrom true s' else [] :: splitWsFrom true s'
      else
        match splitWsFrom false s' with
        | piece :: rest => (c :: piece) :: rest
        | [] => [[c]]
        end
  end.

Definition splitWs (s : jsstring) : list jsstring := splitWsFrom false s.

(** Decimal digit value of a code unit. *)
Definition digit (c : N) : option Z :=
  if ((48 <=? c) && (c <=? 57))%N then Some (Z.of_N c - 48) else None.

(** The longest prefix of decimal digits, read left to right; [None]
    when the prefix is empty. *)
Fixpoint digits (acc : option Z) (s : jsstring) : option Z :=
  match s with
  | c :: s' =>
      match digit c with
      | Some d => digits (Some (10 * default 0 acc + d)) s'
      | None => acc
      end
  | [] => acc
  end.

(** [parseInt(s, 10)]; [None] is [NaN].  The sources only compare the
    result with [0] and with an array length, and on those comparisons
    the rounding of a long digit string to a double agrees with the
    exact integer; [-0] compares and indexes as [0]. *)
Definition parseInt (s : jsstring) : option Z :=
  match trimStart s with
  | 45%N :: r => Z.opp <$> digits None r      (* '-' *)
  | 43%N :: r => digits None r                (* '+' *)
  | r => digits None r
  end.

(** A literal between double quotes. *)
Definition quoted (s : string) : jsstring := [34%N] ++ lit s ++ [34%N].

(** [String(n)] for a non-negative integer. *)
Definition ofNat (n : N) : jsstring :=
  lit (NilEmpty.string_of_uint (N.to_uint n)).

End Js.

Import Js.

(** ** Data model ([types.ts]) *)

Module Types.

(** Google Drive revision metadata *)
Record Revision := {
  id : jsstring;
  modifiedTime : jsstring;
  mimeType : jsstring;
}.

(** Local version log entry stored in resume_versions.json.  The
    optional properties are [None] when absent or [undefined]. *)
Record VersionLogEntry := {
  revisionId : jsstring;
  timestamp : jsstring;
  jobTitle : option jsstring;
  company : option jsstring;
  jobUrl : option jsstring;
  changes : list jsstring;
  isRevert : bool;
}.

End Types.

Import Types.

Global Instance Revision_eq_dec : EqDecision Revision.
Proof. solve_decision. Defined.
Global Instance VersionLogEntry_eq_dec : EqDecision VersionLogEntry.
Proof. solve_decision. Defined.

(** Truthiness of an optional string: [undefined] and [''] are falsy. *)
Definition truthy (o : option jsstring) : bool :=
  match o with
  | Some (_ :: _) => true
  | _ => false
  end.

(** ** Effects: errors, the log file, the calls made *)

Module Eff.

(** A thrown value.  [response] is the [error.response] of an Axios
    error that carries an HTTP answer: its status and
    [data?.error?.message]. *)
Record Error := {
  message : jsstring;
  response : option (N * option jsstring);
}.

(** [new Error(msg)] *)
Definition newError (msg : jsstring) : Error :=
  {| message := msg; response := None |}.

(** What an awaited call of an external service gives back. *)
Definition Answer (A : Type) : Type := Error + A.

(** What resume_versions.json holds.
    - [NoFile]: [existsSync] is false.
    - [Holds entries]: the text [JSON.stringify(entries, null, 2) + '\n'].
    - [Torn entries]: only a proper prefix of that text, which
      [JSON.parse] rejects. *)
Inductive file :=
| NoFile
| Holds (entries : list VersionLogEntry)
| Torn (entries : list VersionLogEntry).

(** How one [fs.writeFileSync(path, data)] ends.  The call opens the
    path itself with flag ['w'], which truncates it, and then writes
    [data]; there is no temporary file and no rename. *)
Inductive WriteOutcome :=
| WriteCompletes
| WriteFailsAtOpen (e : Error)      (* nothing was touched *)
| WriteFailsMidway (e : Error).     (* truncated, partly written *)

(** Requests of a Docs [documents.batchUpdate]. *)
Inductive DocRequest :=
| ReplaceAllText (text : jsstring) (matchCase : bool) (replaceText : jsstring)
| DeleteContentRange (startIndex endIndex : Z)
| InsertText (index : Z) (text : jsstring).

(** What a run does outside the process, in the order it does it: the
    requests to the services, the waits, and the lines printed on the
    error stream when a command gives up. *)
Inductive Effect :=
| GroqPost (attempt : nat)
| Sleep (ms : Z)
| DriveFilesExport
| DriveRevisionsGet (revisionId : jsstring)
| DriveRevisionsList
| DocsGet
| DocsBatchUpdate (requests : list DocRequest)
| Scrape (url : jsstring)
| ConsoleError (line : jsstring).

Record World := {
  logFile : file;
  trace : list Effect;
}.

Inductive Outcome (A : Type) :=
| Ok (a : A)
| Threw (e : Error)
| Exited (code : Z).
Arguments Ok {A} a.
Arguments Threw {A} e.
Arguments Exited {A} code.

Definition M (A : Type) : Type := World -> Outcome A * World.

Definition ret {A} (a : A) : M A := fun w => (Ok a, w).

Definition bind {A B} (m : M A) (k : A -> M B) : M B :=
  fun w =>
    match m w with
    | (Ok a, w') => k a w'
    | (Threw e, w') => (Threw e, w')
    | (Exited c, w') => (Exited c, w')
    end.

(** [throw e] *)
Definition throw {A} (e : Error) : M A := fun w => (Threw e, w).

(** [process.exit(code)] *)
Definition exit {A} (code : Z) : M A := fun w => (Exited code, w).

(** [try { m } catch (error) { handler(error) }]: an exit is not caught. *)
Definition tryCatch {A} (m : M A) (handler : Error -> M A) : M A :=
  fun w =>
    match m w with
    | (Threw e, w') => handler e w'
    | r => r
    end.

(** Record a call and hand back the answer of the service. *)
Definition call {A} (ev : Effect) (answer : Answer A) : M A :=
  fun w =>
    let w' := {| logFile := logFile w; trace := trace w ++ [ev] |} in
    match answer with
    | inl e => (Threw e, w')
    | inr a => (Ok a, w')
    end.

(** Hand back an answer that takes no request. *)
Definition settle {A} (answer : Answer A) : M A :=
  fun w =>
    match answer with
    | inl e => (Threw e, w)
    | inr a => (Ok a, w)
    end.

(** [console.error(line)], for the lines that tell why a command gave up. *)
Definition consoleError (line : jsstring) : M unit :=
  fun w =>
    (Ok tt, {| logFile := logFile w; trace := trace w ++ [ConsoleError line] |}).

Definition getFile : M file := fun w => (Ok (logFile w), w).

Definition putFile (f : file) : M unit :=
  fun w => (Ok tt, {| logFile := f; trace := trace w |}).

End Eff.

Import Eff.

Global Instance M_ret : MRet M := @ret.
Global Instance M_bind : MBind M := fun A B k m => bind m k.

(** The [DocsBatchUpdate] calls of a trace: every mutation of the
    document goes through one of them. *)
Definition docMutations (t : list Effect) : list (list DocRequest) :=
  omap (fun ev => match ev with DocsBatchUpdate rs => Some rs | _ => None end) t.

(** ** groqClient.ts *)

Module GroqClient.

(** Export type for word replacements (used by googleDrive.ts) *)
Record ReplacementItem := {
  original : jsstring;
  replacement : jsstring;
}.

(** Response type for resume update *)
Record ResumeUpdateResult := {
  replacements : list ReplacementItem;
  changes : list jsstring;
}.

(** [z.infer<typeof AlignmentSchema>]: an element of [replacements]
    is a [ReplacementItem] with an optional [jd_alignment]. *)
Record Suggestion := {
  item :> ReplacementItem;
  jd_alignment : option jsstring;
}.

Record AlignmentResponse := {
  suggested : list Suggestion;      (* the property [replacements] *)
  summary : list jsstring;
}.

Definition maxRetries : nat := 3.

(** How the [try] block of one attempt ends: [AlignmentSchema.parse]
    returns, or something is thrown ([axios.post] rejects, the content
    is missing, [JSON.parse] or the schema rejects it). *)
Definition Attempt : Type := Answer AlignmentResponse.

(** The message of [new Error(`Groq API Error ${status}: ...`)]. *)
Definition apiErrorMessage (status : N) (detail : jsstring) : jsstring :=
  lit "Groq API Error " ++ ofNat status ++ lit ": " ++ detail.

(** The [catch] block of one attempt: [inl] is what is thrown, [inr] the
    delay before the next attempt. *)
Definition onAttemptError (attempt : nat) (lastError : Error) : Error + Z :=
  match response lastError with
  | Some (status, detail) =>
      (* axios.isAxiosError(error) && error.response *)
      inl (newError (apiErrorMessage status
                       (default (message lastError)
                          (if truthy detail then detail else None))))
  | None =>
      let isRetryable :=
        (attempt <? maxRetries)%nat &&
        (includes (message lastError) (lit "JSON")
         || includes (message lastError) (lit "parse")) in
      if negb isRetryable then inl lastError
      else inr (1000 * Z.of_nat attempt)
  end.

(** The [for] loop from [attempt] on, with [remaining] iterations left
    before [attempt <= maxRetries] fails. *)
Fixpoint attemptsFrom (post : nat -> Attempt) (remaining attempt : nat)
    (lastError : option Error) : M AlignmentResponse :=
  match remaining with
  | O =>
      throw (default (newError (lit "Failed to get alignment suggestions"))
               lastError)
  | S remaining' =>
      tryCatch (call (GroqPost attempt) (post attempt))
        (fun error =>
           match onAttemptError attempt error with
           | inl thrown => throw thrown
           | inr ms =>
               call (Sleep ms) (inr tt) ;;
               attemptsFrom post remaining' (S attempt) (Some error)
           end)
  end.

(** Get semantic alignment suggestions from LLM *)
Definition getAlignmentSuggestions (post : nat -> Attempt)
  : M AlignmentResponse :=
  attemptsFrom post maxRetries 1 None.

(** [origWords]/[replWords] of the filter. *)
Definition wordCount (s : jsstring) : Z := Z.of_nat (length (splitWs s)).

(** The callback of [suggestions.replacements.filter], with the bound
    of the word count check as a parameter. *)
Definition validWithin (bound : Z) (resumeText : jsstring)
    (r : ReplacementItem) : bool :=
  if negb (includes resumeText (original r)) then false
  else if str_eqb (trim (original r)) (trim (replacement r)) then false
  else if Z.abs (wordCount (original r) - wordCount (replacement r)) >? bound
       then false
  else true.

(** The bound of src/groqClient.ts. *)
Definition maxWordDelta : Z := 5.

(** The bound of the earlier copy of the file. *)
Definition maxWordDelta_earlier : Z := 8.

Definition validReplacements (resumeText : jsstring)
    (candidates : list Suggestion) : list Suggestion :=
  filter (fun r : Suggestion => validWithin maxWordDelta resumeText r)
         candidates.

(** Get semantic alignment replacements for a job description *)
Definition getResumeReplacements (post : nat -> Attempt)
    (resumeText : jsstring) : M ResumeUpdateResult :=
  suggestions ← getAlignmentSuggestions post;
  mret {| replacements :=
            map (fun r : Suggestion =>
                   {| original := original r; replacement := replacement r |})
                (validReplacements resumeText (suggested suggestions));
          changes := summary suggestions |}.

End GroqClient.

Import GroqClient.

(** ** Answers of the external services for one run *)

(** [response.data] of a Drive download: a string or something else. *)
Inductive ResponseData :=
| TextData (s : jsstring)
| OtherData.

(** An element of [response.data.revisions]. *)
Record RawRevision := {
  rawId : option jsstring;
  rawModifiedTime : option jsstring;
  rawMimeType : option jsstring;
}.

Record Services := {
  (* initializeDriveClient(), initializeDocsClient(): the client is
     kept once created, so within one run every call has one answer *)
  drive_client : Answer unit;
  docs_client : Answer unit;
  (* drive.files.export({fileId, mimeType: 'text/plain'}) *)
  files_export : Answer ResponseData;
  (* drive.revisions.get({fileId, revisionId, alt: 'media'}) *)
  revisions_get : jsstring -> Answer ResponseData;
  (* drive.revisions.list({fileId}): response.data.revisions *)
  revisions_list : Answer (option (list RawRevision));
  (* docs.documents.get: doc.data.body?.content, as the endIndex of
     each structural element *)
  documents_get : Answer (option (list (option Z)));
  (* docs.documents.batchUpdate: response.data.replies, as the
     replaceAllText?.occurrencesChanged of each reply *)
  documents_batchUpdate : list DocRequest -> Answer (option (list (option N)));
  (* the try block of each attempt of getAlignmentSuggestions *)
  groq_post : nat -> Attempt;
  (* new URL(url) accepts the string *)
  validUrl : jsstring -> bool;
  (* config.FIRECRAWL_API_KEY is truthy; the ConfigSchema of
     src/config.ts does not declare the key *)
  firecrawl_key : bool;
  (* the try block of fetchJobDescriptionFromUrl(url) with its catch:
     the cleaned markdown, or the error that is thrown again *)
  scrapeUrl : jsstring -> Answer jsstring;
  (* writeFileSync(VERSION_LOG_FILE, ...) *)
  fs_write : WriteOutcome;
}.

(** ** googleDrive.ts *)

Module GoogleDrive.

(** Initialize Google Drive client with service account authentication *)
Definition initializeDriveClient (env : Services) : M unit :=
  settle (drive_client env).

(** Initialize Google Docs client *)
Definition initializeDocsClient (env : Services) : M unit :=
  settle (docs_client env).

(** Export Google Doc as plain text *)
Definition getResumeText (env : Services) : M jsstring :=
  initializeDriveClient env ;;
  data ← call DriveFilesExport (files_export env);
  match data with
  | TextData s => mret s
  | OtherData =>
      throw (newError (lit "Expected text response from Drive export"))
  end.

(** Apply word replacements directly in Google Doc *)
Definition applyWordReplacements (env : Services)
    (replacements : list ReplacementItem) : M N :=
  initializeDocsClient env ;;
  let requests :=
    map (fun r => ReplaceAllText (original r) true (replacement r))
        replacements in
  if bool_decide (length requests = 0%nat) then mret 0%N
  else
    replies ← call (DocsBatchUpdate requests)
                   (documents_batchUpdate env requests);
    mret (foldl (fun totalReplaced reply =>
                   match reply with
                   | Some occurrencesChanged =>
                       if (occurrencesChanged =? 0)%N then totalReplaced
                       else (totalReplaced + occurrencesChanged)%N
                   | None => totalReplaced
                   end)
                0%N (default [] replies)).

(** Update Google Doc content by overwriting with new text *)
Definition updateResumeText (env : Services) (text : jsstring) : M unit :=
  initializeDocsClient env ;;
  content ← call DocsGet (documents_get env);
  match content with
  | None => throw (newError (lit "Unable to read document structure"))
  | Some content =>
      let endIndex :=
        from_option (fun element => element) None (last content) in
      let deletion :=
        match endIndex with
        | Some endIndex =>
            if negb (endIndex =? 0) && (endIndex >? 1)
            then [DeleteContentRange 1 (endIndex - 1)]
            else []
        | None => []
        end in
      let requests := deletion ++ [InsertText 1 text] in
      call (DocsBatchUpdate requests) (documents_batchUpdate env requests) ;;
      mret tt
  end.

(** The callback of [response.data.revisions.map]. *)
Definition toRevision (rev : RawRevision) : Revision :=
  {| id := default [] (rawId rev);
     modifiedTime := default [] (rawModifiedTime rev);
     mimeType := default [] (rawMimeType rev) |}.

(** Get list of all revisions for a file *)
Definition getRevisions (env : Services) : M (list Revision) :=
  initializeDriveClient env ;;
  revisions ← call DriveRevisionsList (revisions_list env);
  match revisions with
  | None => mret []
  | Some revisions => mret (map toRevision revisions)
  end.

(** Export specific revision as plain text, falling back to the
    current file. *)
Definition getRevisionContent (env : Services) (revisionId : jsstring)
  : M jsstring :=
  initializeDriveClient env ;;
  direct ← tryCatch
             (data ← call (DriveRevisionsGet revisionId)
                          (revisions_get env revisionId);
              match data with
              | TextData s => mret (Some s)
              | OtherData => mret None
              end)
             (fun _ => mret None);
  match direct with
  | Some s => mret s
  | None => getResumeText env
  end.

End GoogleDrive.

Import GoogleDrive.

(** ** main.ts *)

Module Main.

(** [{ company?, jobTitle?, jobUrl? }], the tags of an update. *)
Module Metadata.
Record t := {
  company : option jsstring;
  jobTitle : option jsstring;
  jobUrl : option jsstring;
}.
End Metadata.

(** [{ success, revisionId?, error? }], what [performUpdate] resolves to. *)
Module UpdateResult.
Record t := {
  success : bool;
  revisionId : option jsstring;
  error : option jsstring;
}.
End UpdateResult.

(** An element of [results] in [handleBatch]. *)
Module BatchResult.
Record t := {
  url : jsstring;
  success : bool;
  revisionId : option jsstring;
  error : option jsstring;
}.
End BatchResult.

(** Read version log from local JSON file *)
Definition readVersionLog : M (list VersionLogEntry) :=
  f ← getFile;
  match f with
  | NoFile => mret []
  | Holds entries => mret entries
  | Torn _ => mret []            (* JSON.parse throws; caught *)
  end.

(** Write version log to local JSON file *)
Definition writeVersionLog (outcome : WriteOutcome)
    (entries : list VersionLogEntry) : M unit :=
  match outcome with
  | WriteCompletes => putFile (Holds entries)
  | WriteFailsAtOpen e => throw e
  | WriteFailsMidway e => putFile (Torn entries) ;; throw e
  end.

(** Append entry to version log *)
Definition appendVersionLog (outcome : WriteOutcome)
    (entry : VersionLogEntry) : M unit :=
  entries ← readVersionLog;
  writeVersionLog outcome (entries ++ [entry]).

(** Fetch job description from URL using Firecrawl API *)
Definition fetchJobDescriptionFromUrl (env : Services) (url : jsstring)
  : M jsstring :=
  (* Validate URL format *)
  if negb (validUrl env url) then
    throw (newError (lit "Invalid URL format: " ++ url))
  (* Check if API key is configured *)
  else if negb (firecrawl_key env) then
    throw (newError
             (lit "FIRECRAWL_API_KEY is required for URL scraping. Please add it to your .env file."))
  else call (Scrape url) (scrapeUrl env url).

(** Reading a property of [undefined]. *)
Definition typeErrorUndefined (property : string) : Error :=
  newError (lit "Cannot read properties of undefined (reading '"
            ++ lit property ++ lit "')").

(** Core update logic - can be called programmatically or from CLI *)
Definition performUpdate (env : Services) (jobDescription : jsstring)
    (_jobUrl : option jsstring) (metadata : Metadata.t) (dryRun : bool)
  : M UpdateResult.t :=
  tryCatch
    (currentText ← getResumeText env;
     result ← getResumeReplacements (groq_post env) currentText;
     if dryRun then
       mret {| UpdateResult.success := true;
               UpdateResult.revisionId := None;
               UpdateResult.error := None |}
     else
       appliedCount ← applyWordReplacements env (replacements result);
       (* Get latest revision after update *)
       revisions ← getRevisions env;
       match last revisions with
       | None => throw (typeErrorUndefined "id")
       | Some latestRevision =>
           let logEntry :=
             {| revisionId := id latestRevision;
                timestamp := modifiedTime latestRevision;
                company := Metadata.company metadata;
                jobTitle := Metadata.jobTitle metadata;
                jobUrl := Metadata.jobUrl metadata;
                Types.changes := GroqClient.changes result;
                isRevert := false |} in
           appendVersionLog (fs_write env) logEntry ;;
           mret {| UpdateResult.success := true;
                   UpdateResult.revisionId := Some (id latestRevision);
                   UpdateResult.error := None |}
       end)
    (fun error =>
       mret {| UpdateResult.success := false;
               UpdateResult.revisionId := None;
               UpdateResult.error := Some (message error) |}).

(** Update resume with job description.  The job description, the
    tags and the dry-run flag come from the command line. *)
Definition handleUpdate (env : Services) (jobDescription : jsstring)
    (jobUrl : option jsstring) (metadata : Metadata.t) (dryRun : bool)
  : M unit :=
  result ← performUpdate env jobDescription jobUrl metadata dryRun;
  if negb (UpdateResult.success result) then exit 1 else mret tt.

Section Batch.

(** The answers of the services for the item at each position, and
    [getMetadata], which only reads its arguments and the command
    line. *)
Variable envs : nat -> Services.
Variable getMetadata : jsstring -> option jsstring -> Metadata.t.
Variable dryRun : bool.

(** The body of the [for] loop of [handleBatch]: what is pushed on
    [results] for the URL at position [i]. *)
Definition batchItem (i : nat) (url : jsstring) : M BatchResult.t :=
  tryCatch
    ((* Fetch job description from URL *)
     jobDescription ← fetchJobDescriptionFromUrl (envs i) url;
     (* Extract metadata *)
     let metadata := getMetadata jobDescription (Some url) in
     (* Perform update *)
     result ← performUpdate (envs i) jobDescription (Some url)
                            metadata dryRun;
     mret {| BatchResult.url := url;
             BatchResult.success := UpdateResult.success result;
             BatchResult.revisionId := UpdateResult.revisionId result;
             BatchResult.error := UpdateResult.error result |})
    (fun error =>
       mret {| BatchResult.url := url;
               BatchResult.success := false;
               BatchResult.revisionId := None;
               BatchResult.error := Some (message error) |}).

(** The [for] loop of [handleBatch] from position [i] on. *)
Fixpoint batchFrom (urls : list jsstring) (i : nat)
    (results : list BatchResult.t) : M (list BatchResult.t) :=
  match urls with
  | [] => mret results
  | url :: rest =>
      pushed ← batchItem i url;
      batchFrom rest (S i) (results ++ [pushed])
  end.

Definition successful (results : list BatchResult.t) : nat :=
  length (filter (fun r => BatchResult.success r) results).

Definition failed (results : list BatchResult.t) : nat :=
  length (filter (fun r => negb (BatchResult.success r)) results).

(** Process batch of job URLs, from the list of URLs collected from
    the command line or the file. *)
Definition handleBatch (urls : list jsstring) : M unit :=
  if bool_decide (length urls = 0%nat) then exit 1
  else
    results ← batchFrom urls 0 [];
    if (0 <? failed results)%nat && (successful results =? 0)%nat
    then exit 1
    else mret tt.

End Batch.

(** List all versions with desync detection: the two lists that the
    desync warning prints.  The display filters and the table only
    read [localEntries]. *)
Definition handleList (env : Services) : M (list jsstring * list jsstring) :=
  driveRevisions ← getRevisions env;
  localEntries ← readVersionLog;
  (* Build map of revision IDs from Drive *)
  let driveRevisionIds : gset jsstring :=
    list_to_set (map id driveRevisions) in
  allEntries ← readVersionLog;
  let extraRevisions :=
    map revisionId
        (filter (fun entry => revisionId entry ∉ driveRevisionIds)
                allEntries) in
  let missingRevisions :=
    map id
        (filter (fun rev =>
                   list_find (fun e => revisionId e = id rev) allEntries = None
                   ∧ Some (id rev) ≠ (id <$> head driveRevisions))
                driveRevisions) in
  mret (missingRevisions, extraRevisions).

(** [args.find((arg) => !arg.startsWith('--'))] *)
Definition firstPlainArg (args : list jsstring) : option jsstring :=
  snd <$> list_find (fun arg => startsWith arg (lit "--") = false) args.

(** [i !== -1 && args[i + 1] ? args[i + 1] : undefined] for
    [i = args.indexOf(flag)] *)
Definition flagValue (args : list jsstring) (flag : string)
  : option jsstring :=
  match list_find (fun arg => arg = lit flag) args with
  | Some (i, _) =>
      let next := args !! (i + 1)%nat in
      if truthy next then next else None
  | None => None
  end.

(** [!isNaN(index) && index >= 0 && index < localEntries.length] *)
Definition isIndex (index : option Z) (localEntries : list VersionLogEntry)
  : bool :=
  match index with
  | Some index => (0 <=? index) && (index <? Z.of_nat (length localEntries))
  | None => false
  end.

(** The target of [handleRevert] and of [handleExport]:
    index first, then [find] by revision ID. *)
Definition targetOf (arg : jsstring) (localEntries : list VersionLogEntry)
  : option VersionLogEntry :=
  let index := parseInt arg in
  if isIndex index localEntries then
    localEntries !! Z.to_nat (default 0 index)
  else
    snd <$> list_find (fun e => revisionId e = arg) localEntries.

(** The target of [handleTag], with its position:
    index first, then [findIndex] by revision ID. *)
Definition targetIndexOf (arg : jsstring) (localEntries : list VersionLogEntry)
  : option (nat * VersionLogEntry) :=
  let index := parseInt arg in
  if isIndex index localEntries then
    let targetIndex := Z.to_nat (default 0 index) in
    (fun targetEntry => (targetIndex, targetEntry))
      <$> localEntries !! targetIndex
  else
    list_find (fun e => revisionId e = arg) localEntries.

(** The three assignments under "Update metadata". *)
Definition tagged (targetEntry : VersionLogEntry)
    (company jobTitle jobUrl : option jsstring) : VersionLogEntry :=
  {| revisionId := revisionId targetEntry;
     timestamp := timestamp targetEntry;
     jobTitle := if truthy jobTitle then jobTitle
                 else Types.jobTitle targetEntry;
     company := if truthy company then company
                else Types.company targetEntry;
     jobUrl := if truthy jobUrl then jobUrl
               else Types.jobUrl targetEntry;
     Types.changes := Types.changes targetEntry;
     isRevert := isRevert targetEntry |}.

(** 'Version not found. Use "list" to see available versions.' *)
Definition versionNotFound : jsstring :=
  lit "Version not found. Use " ++ quoted "list"
  ++ lit " to see available versions.".

(** Tag existing version with metadata.  [args] is
    [process.argv.slice(2)]. *)
Definition handleTag (env : Services) (args : list jsstring) : M unit :=
  let tagArg := firstPlainArg args in
  match (if truthy tagArg then tagArg else None) with
  | None =>
      consoleError
        (lit "Usage: npm start tag <index|revisionId> --company "
         ++ quoted "X" ++ lit " --job-title " ++ quoted "Y"
         ++ lit " [--url " ++ quoted "Z" ++ lit "]") ;;
      exit 1
  | Some tagArg =>
      let company := flagValue args "--company" in
      let jobTitle := flagValue args "--job-title" in
      let jobUrl := flagValue args "--url" in
      if negb (truthy company) && negb (truthy jobTitle)
         && negb (truthy jobUrl)
      then
        consoleError
          (lit "At least one of --company, --job-title, or --url is required") ;;
        exit 1
      else
        localEntries ← readVersionLog;
        match targetIndexOf tagArg localEntries with
        | None => consoleError versionNotFound ;; exit 1
        | Some (targetIndex, targetEntry) =>
            (* Update metadata *)
            let targetEntry := tagged targetEntry company jobTitle jobUrl in
            (* Write back to log *)
            writeVersionLog (fs_write env)
                            (<[targetIndex := targetEntry]> localEntries)
        end
  end.

(** Revert to a specific version.  [args] is [process.argv.slice(2)]. *)
Definition handleRevert (env : Services) (args : list jsstring) : M unit :=
  let revertArg := firstPlainArg args in
  match (if truthy revertArg then revertArg else None) with
  | None =>
      consoleError (lit "Usage: npm start revert <index|revisionId>") ;;
      exit 1
  | Some revertArg =>
      localEntries ← readVersionLog;
      match targetOf revertArg localEntries with
      | None => consoleError versionNotFound ;; exit 1
      | Some targetEntry =>
          oldContent ← getRevisionContent env (revisionId targetEntry);
          updateResumeText env oldContent ;;
          (* Get latest revision after revert *)
          revisions ← getRevisions env;
          match last revisions with
          | None => throw (typeErrorUndefined "id")
          | Some latestRevision =>
              let logEntry :=
                {| revisionId := id latestRevision;
                   timestamp := modifiedTime latestRevision;
                   jobTitle := None;
                   company := None;
                   jobUrl := None;
                   Types.changes :=
                     [lit "Reverted to revision " ++ revisionId targetEntry];
                   isRevert := true |} in
              appendVersionLog (fs_write env) logEntry
          end
      end
  end.

(** The first part of [handleExport], up to the target entry; the
    export of the document to a file follows it.  [args] is
    [process.argv.slice(2)]. *)
Definition handleExport_target (args : list jsstring) : M VersionLogEntry :=
  let exportArg := firstPlainArg args in
  match (if truthy exportArg then exportArg else None) with
  | None =>
      consoleError
        (lit "Usage: npm start export <index|revisionId> [--format pdf|docx]") ;;
      exit 1
  | Some exportArg =>
      localEntries ← readVersionLog;
      match targetOf exportArg localEntries with
      | None => consoleError versionNotFound ;; exit 1
      | Some targetEntry => mret targetEntry
      end
  end.

(** The exit status of the process when [main] has awaited a handler:
    a thrown error reaches the [catch] of [main], which exits with 1. *)
Definition exitStatus {A} (o : Outcome A) : Z :=
  match o with
  | Ok _ => 0
  | Threw _ => 1
  | Exited code => code
  end.

End Main.

Import Main.

(** ** main.ts: reading the command line, search, the tables *)

Module Cli.

(** [a || b] on optional strings *)
Definition orElse (a b : option jsstring) : option jsstring :=
  if truthy a then a else b.

(** Check if --dry-run flag is present *)
Definition isDryRun (argv : list jsstring) : bool :=
  bool_decide (lit "--dry-run" ∈ argv).

Section GetMetadata.

(** The two extractors read a URL and a job description with regular
    expressions; each gives a company and a job title, or neither. *)
Variable extractMetadataFromUrl : jsstring -> option jsstring * option jsstring.
Variable extractMetadataFromJD : jsstring -> option jsstring * option jsstring.

(** Get metadata from command line flags or auto-extract *)
Definition getMetadata (args : list jsstring) (jobDescription : jsstring)
    (jobUrl : option jsstring) : Metadata.t :=
  (* Check for explicit flags *)
  let company := flagValue args "--company" in
  let jobTitle := flagValue args "--job-title" in
  (* Auto-extract if not provided *)
  let '(company, jobTitle) :=
    if truthy jobUrl && (negb (truthy company) || negb (truthy jobTitle)) then
      let urlMetadata := extractMetadataFromUrl (default [] jobUrl) in
      (orElse company (fst urlMetadata), orElse jobTitle (snd urlMetadata))
    else (company, jobTitle) in
  (* Try extracting from JD content if still missing *)
  let '(company, jobTitle) :=
    if negb (truthy company) || negb (truthy jobTitle) then
      let jdMetadata := extractMetadataFromJD jobDescription in
      (orElse company (fst jdMetadata), orElse jobTitle (snd jdMetadata))
    else (company, jobTitle) in
  {| Metadata.company := company;
     Metadata.jobTitle := jobTitle;
     Metadata.jobUrl := jobUrl |}.

End GetMetadata.

(** [s.split(sep)] for a separator of one code unit. *)
Fixpoint splitOn (sep : N) (s : jsstring) : list jsstring :=
  match s with
  | [] => [[]]
  | c :: s' =>
      if (c =? sep)%N then [] :: splitOn sep s'
      else
        match splitOn sep s' with
        | piece :: rest => (c :: piece) :: rest
        | [] => [[c]]
        end
  end.

(** The URLs of a file, one per line: the [split], [map] and [filter]
    of [handleBatch]. *)
Definition urlsOfFile (fileContent : jsstring) : list jsstring :=
  filter (fun line : jsstring =>
            truthy (Some line)
            && negb (startsWith line (lit "#"))
            && startsWith line (lit "http"))
         (map trim (splitOn 10 fileContent)).

(** The loop of [handleBatch] over the arguments that follow [--urls]. *)
Fixpoint urlsOfArgs (rest : list jsstring) : list jsstring :=
  match rest with
  | [] => []
  | arg :: rest' =>
      if startsWith arg (lit "--") then []
      else if truthy (Some arg) && startsWith arg (lit "http")
           then arg :: urlsOfArgs rest'
      else urlsOfArgs rest'
  end.

(** The first part of [handleBatch]: the URLs to process, from the
    file named after [--file] or from the arguments after [--urls].
    [readFileSync] is the content of a path, or the error of reading
    it. *)
Definition collectUrls (readFileSync : jsstring -> Answer jsstring)
    (args : list jsstring) : M (list jsstring) :=
  urls ←
    match flagValue args "--file" with
    | Some filePath =>
        (* Read URLs from file (one per line) *)
        fileContent ← settle (readFileSync filePath);
        mret (urlsOfFile fileContent)
    | None =>
        match list_find (fun arg => arg = lit "--urls") args with
        | Some (urlsIndex, _) =>
            (* Collect URLs from command line *)
            mret (urlsOfArgs (drop (S urlsIndex) args))
        | None =>
            consoleError (lit "Usage: npm start batch --urls "
                          ++ quoted "url1 url2 url3") ;;
            consoleError (lit "   or: npm start batch --file path/to/urls.txt") ;;
            exit 1
        end
    end;
  if bool_decide (length urls = 0%nat) then
    consoleError (lit "No valid URLs found") ;; exit 1
  else mret urls.

(** [handleBatch] as [main] runs it, on [process.argv]. *)
Definition handleBatchArgv (envs : nat -> Services)
    (getMetadata : jsstring -> option jsstring -> Metadata.t)
    (readFileSync : jsstring -> Answer jsstring) (argv : list jsstring)
  : M unit :=
  urls ← collectUrls readFileSync (drop 2 argv);
  handleBatch envs getMetadata (isDryRun argv) urls.

(** A row of the table of [handleSearch]. *)
Module SearchRow.
Record t := {
  Index : nat;
  RevisionID : jsstring;
  Timestamp : jsstring;
  Company : jsstring;
  JobTitle : jsstring;
  ChangeCount : nat;
}.
End SearchRow.

(** A row of the table of [handleList]. *)
Module ListRow.
Record t := {
  Index : nat;
  RevisionID : jsstring;
  Timestamp : jsstring;
  Company : jsstring;
  JobTitle : jsstring;
  ChangeCount : nat;
  Type_ : jsstring;
  InDrive : bool;
}.
End ListRow.

(** [entry.revisionId.substring(0, 8) + '...'] *)
Definition shortId (revisionId : jsstring) : jsstring :=
  take 8 revisionId ++ lit "...".

(** [value || '-'] *)
Definition orDash (value : option jsstring) : jsstring :=
  if truthy value then default [] value else lit "-".

Section Tables.

(** [String.prototype.toLowerCase], and
    [new Date(timestamp).toLocaleString()], which depends on the
    locale of the process. *)
Variable toLowerCase : jsstring -> jsstring.
Variable toLocaleString : jsstring -> jsstring.

(** [value?.toLowerCase().includes(needle)] as a filter sees it:
    [undefined] counts as false. *)
Definition mentions (value : option jsstring) (needle : jsstring) : bool :=
  match value with
  | Some value => includes (toLowerCase value) needle
  | None => false
  end.

Definition searchUsage : jsstring :=
  lit "Usage: npm start search " ++ quoted "search term".

(** Search versions by company or job title.  [args] is
    [process.argv.slice(2)]; the result is the table printed, empty
    when nothing matches. *)
Definition handleSearch (args : list jsstring) : M (list SearchRow.t) :=
  (* Skip 'search' command itself, find the search term *)
  match firstPlainArg (drop 1 args) with
  | None => consoleError searchUsage ;; exit 1
  | Some searchTerm =>
      if negb (truthy (Some searchTerm)) then
        consoleError searchUsage ;; exit 1
      else
        localEntries ← readVersionLog;
        let termLower := toLowerCase searchTerm in
        let matches :=
          filter (fun indexed : nat * VersionLogEntry =>
                    mentions (company (snd indexed)) termLower
                    || mentions (jobTitle (snd indexed)) termLower)
                 (imap (fun originalIndex entry => (originalIndex, entry))
                       localEntries) in
        mret (map (fun indexed : nat * VersionLogEntry =>
                     let entry := snd indexed in
                     {| SearchRow.Index := fst indexed;
                        SearchRow.RevisionID := shortId (revisionId entry);
                        SearchRow.Timestamp := toLocaleString (timestamp entry);
                        SearchRow.Company := orDash (company entry);
                        SearchRow.JobTitle := orDash (jobTitle entry);
                        SearchRow.ChangeCount := length (Types.changes entry) |})
                  matches)
  end.

(** The loop of [handleList] over the arguments: the value that
    follows the last of the given flags that has one. *)
Definition filterOf (flags : list string) (args : list jsstring)
  : option jsstring :=
  foldl (fun found i =>
           if bool_decide (Exists (fun flag => args !! i = Some (lit flag)) flags)
              && truthy (args !! S i)
           then args !! S i else found)
        None (seq 0 (length args)).

(** The table of [handleList]: the entries left by the filters, each
    with its position among them. *)
Definition handleList_table (env : Services) (args : list jsstring)
  : M (list ListRow.t) :=
  let companyFilter := filterOf ["--company"%string; "-c"%string] args in
  let jobFilter := filterOf ["--job"%string; "--job-title"%string; "-j"%string] args in
  driveRevisions ← getRevisions env;
  localEntries ← readVersionLog;
  (* Apply filters *)
  let localEntries :=
    match companyFilter with
    | Some companyFilter =>
        filter (fun entry : VersionLogEntry =>
                  mentions (company entry) (toLowerCase companyFilter))
               localEntries
    | None => localEntries
    end in
  let localEntries :=
    match jobFilter with
    | Some jobFilter =>
        filter (fun entry : VersionLogEntry =>
                  mentions (jobTitle entry) (toLowerCase jobFilter))
               localEntries
    | None => localEntries
    end in
  (* Display table *)
  mret (imap (fun index entry =>
                {| ListRow.Index := index;
                   ListRow.RevisionID := shortId (revisionId entry);
                   ListRow.Timestamp := toLocaleString (timestamp entry);
                   ListRow.Company := orDash (company entry);
                   ListRow.JobTitle := orDash (jobTitle entry);
                   ListRow.ChangeCount := length (Types.changes entry);
                   ListRow.Type_ :=
                     if isRevert entry then lit "Revert" else lit "Update";
                   ListRow.InDrive :=
                     bool_decide
                       (is_Some (list_find (fun r => id r = revisionId entry)
                                           driveRevisions)) |})
             localEntries).

End Tables.

(** [/[^a-zA-Z0-9]/] does not match the code unit. *)
Definition isAlnum (c : N) : bool :=
  ((97 <=? c) && (c <=? 122))%N
  || ((65 <=? c) && (c <=? 90))%N
  || ((48 <=? c) && (c <=? 57))%N.

(** [s.replace(/[^a-zA-Z0-9]/g, '-')] *)
Definition sanitize (s : jsstring) : jsstring :=
  map (fun c => if isAlnum c then c else 45%N) s.

(** [value?.replace(/[^a-zA-Z0-9]/g, '-') || fallback] *)
Definition fileNamePart (value : option jsstring) (fallback : string)
  : jsstring :=
  match value with
  | Some value =>
      if truthy (Some (sanitize value)) then sanitize value else lit fallback
  | None => lit fallback
  end.

(** The [format] of [handleExport]: docx only when it is asked for. *)
Definition exportFormat (args : list jsstring) : jsstring :=
  match list_find (fun arg => arg = lit "--format") args with
  | Some (formatIndex, _) =>
      if bool_decide (args !! S formatIndex = Some (lit "docx"))
      then lit "docx" else lit "pdf"
  | None => lit "pdf"
  end.

(** The [filename] of [handleExport]; [day] is
    [new Date(targetEntry.timestamp).toISOString().split('T')[0]]. *)
Definition exportFileName (targetEntry : VersionLogEntry) (day : jsstring)
    (format : jsstring) : jsstring :=
  let company := fileNamePart (company targetEntry) "unknown" in
  let jobTitle := fileNamePart (jobTitle targetEntry) "untitled" in
  lit "resume-" ++ company ++ lit "-" ++ jobTitle ++ lit "-" ++ day
  ++ lit "." ++ format.

End Cli.

(** ** monitor.ts, and [handleMonitor] of main.ts *)

Module Monitor.

Record JobQueueEntry := {
  company : jsstring;
  url : jsstring;
  jobTitle : jsstring;
  discoveredAt : jsstring;
}.

Record Filters := {
  roles : option (list jsstring);
  locations : option (list jsstring);
}.

Record CompanyConfig := {
  name : jsstring;
  careerPageUrl : jsstring;
  filters : option Filters;
}.

(** What jobs_queue.json holds: nothing, the text of a list of jobs,
    or a proper prefix of such a text. *)
Inductive queueFile :=
| NoQueue
| Queued (jobs : list JobQueueEntry)
| TornQueue (jobs : list JobQueueEntry).

(** The job queue beside the version log and the trace. *)
Record Store := {
  queue : queueFile;
  world : World;
}.

Definition MQ (A : Type) : Type := Store -> Outcome A * Store.

Definition retQ {A} (a : A) : MQ A := fun s => (Ok a, s).

Definition bindQ {A B} (m : MQ A) (k : A -> MQ B) : MQ B :=
  fun s =>
    match m s with
    | (Ok a, s') => k a s'
    | (Threw e, s') => (Threw e, s')
    | (Exited c, s') => (Exited c, s')
    end.

(** A computation that does not touch the queue. *)
Definition liftQ {A} (m : M A) : MQ A :=
  fun s =>
    let (o, w') := m (world s) in
    (o, {| queue := queue s; world := w' |}).

Definition getQueue : MQ queueFile := fun s => (Ok (queue s), s).

Definition putQueue (q : queueFile) : MQ unit :=
  fun s => (Ok tt, {| queue := q; world := world s |}).

Definition throwQ {A} (e : Error) : MQ A := fun s => (Threw e, s).

#[global] Instance MQ_ret : MRet MQ := @retQ.
#[global] Instance MQ_bind : MBind MQ := fun A B k m => bindQ m k.

Section Monitor.

(** [z.string().url()] of the queue schema, and
    [String.prototype.toLowerCase]. *)
Variable isUrl : jsstring -> bool.
Variable toLowerCase : jsstring -> jsstring.

(** [config.FIRECRAWL_API_KEY] is set. *)
Variable hasFirecrawlKey : bool.

(** The markdown of a career page after the checks and the clean-up
    of [discoverJobs], or what its [try] block throws before
    [extractJobPostings]; and [extractJobPostings], which reads the
    markdown with regular expressions. *)
Variable careerPage : jsstring -> Answer jsstring.
Variable extractJobPostings : jsstring -> jsstring -> list JobQueueEntry.

(** How [writeFileSync(JOB_QUEUE_FILE, ...)] ends. *)
Variable queueWrite : WriteOutcome.

(** Read job queue: the schema asks every [url] to be a URL, and any
    failure gives the empty queue. *)
Definition readJobQueue : MQ (list JobQueueEntry) :=
  q ← getQueue;
  match q with
  | NoQueue => mret []
  | Queued jobs =>
      if forallb (fun job => isUrl (url job)) jobs then mret jobs
      else mret []                (* JobQueueSchema.parse throws; caught *)
  | TornQueue _ => mret []        (* JSON.parse throws; caught *)
  end.

(** Write job queue *)
Definition writeJobQueue (jobs : list JobQueueEntry) : MQ unit :=
  match queueWrite with
  | WriteCompletes => putQueue (Queued jobs)
  | WriteFailsAtOpen e => throwQ e
  | WriteFailsMidway e => putQueue (TornQueue jobs) ;; throwQ e
  end.

(** The callback of the [filter] of [filterJobs]. *)
Definition keepsJob (filters : Filters) (job : JobQueueEntry) : bool :=
  (* Filter by roles *)
  match roles filters with
  | Some roles =>
      if (0 <? length roles)%nat then
        let jobLower := toLowerCase (jobTitle job) in
        existsb (fun role => includes jobLower (toLowerCase role)) roles
      else true
  | None => true
  end.

(** Filter jobs by company criteria *)
Definition filterJobs (jobs : list JobQueueEntry) (company : CompanyConfig)
  : list JobQueueEntry :=
  match filters company with
  | None => jobs
  | Some filters => filter (fun job => keepsJob filters job) jobs
  end.

(** Discover jobs from company career page *)
Definition discoverJobs (company : CompanyConfig) : M (list JobQueueEntry) :=
  if negb hasFirecrawlKey then
    throw (newError (lit "FIRECRAWL_API_KEY required for job discovery"))
  else
    tryCatch
      (markdown ← call (Scrape (careerPageUrl company))
                       (careerPage (careerPageUrl company));
       let allJobs := extractJobPostings markdown (name company) in
       let filteredJobs := filterJobs allJobs company in
       mret filteredJobs)
      (fun _ => mret []).

(** The [for] loop of [monitorCompanies]. *)
Fixpoint discoverAll (companies : list CompanyConfig)
    (allJobs : list JobQueueEntry) : M (list JobQueueEntry) :=
  match companies with
  | [] => mret allJobs
  | company :: rest =>
      jobs ← discoverJobs company;
      (* Small delay between companies *)
      call (Sleep 1000) (inr tt) ;;
      discoverAll rest (allJobs ++ jobs)
  end.

(** Monitor all companies and build job queue.  [companies] is what
    [readCompaniesConfig] gives. *)
Definition monitorCompanies (companies : list CompanyConfig)
  : MQ (list JobQueueEntry) :=
  if bool_decide (length companies = 0%nat) then
    liftQ (consoleError
             (lit "No companies configured. Create companies.json file.")) ;;
    mret []
  else
    allJobs ← liftQ (discoverAll companies []);
    (* Merge with existing queue (avoid duplicates) *)
    existingQueue ← readJobQueue;
    let existingUrls : gset jsstring := list_to_set (map url existingQueue) in
    let newJobs := filter (fun j => url j ∉ existingUrls) allJobs in
    (if (0 <? length newJobs)%nat then
       let updatedQueue := existingQueue ++ newJobs in
       writeJobQueue updatedQueue
     else mret tt) ;;
    mret allJobs.

(** The body of the [for] loop of [handleMonitor]: the [success]
    pushed on [results] for a job of the queue. *)
Definition processJob (env : Services) (dryRun : bool) (job : JobQueueEntry)
  : M bool :=
  tryCatch
    (jobDescription ← fetchJobDescriptionFromUrl env (url job);
     let metadata :=
       {| Metadata.company := Some (company job);
          Metadata.jobTitle := Some (jobTitle job);
          Metadata.jobUrl := Some (url job) |} in
     result ← performUpdate env jobDescription (Some (url job))
                            metadata dryRun;
     mret (UpdateResult.success result || false))
    (fun _ => mret false).

(** The [for] loop of [handleMonitor] from position [i] on. *)
Fixpoint processFrom (envs : nat -> Services) (dryRun : bool)
    (jobs : list JobQueueEntry) (i : nat) (results : list bool)
  : M (list bool) :=
  match jobs with
  | [] => mret results
  | job :: rest =>
      pushed ← processJob (envs i) dryRun job;
      processFrom envs dryRun rest (S i) (results ++ [pushed])
  end.

(** [queue.filter((_, i) => !results[i]?.success)] *)
Definition remainingOf (queue : list JobQueueEntry) (results : list bool)
  : list JobQueueEntry :=
  map snd
      (filter (fun indexed : nat * JobQueueEntry =>
                 negb (default false (results !! fst indexed)))
              (imap (fun i job => (i, job)) queue)).

(** Monitor companies and discover jobs, or with [--process] run the
    queue through the update. *)
Definition handleMonitor (envs : nat -> Services)
    (companies : list CompanyConfig) (argv : list jsstring) : MQ unit :=
  let args := drop 2 argv in
  let processQueue := bool_decide (lit "--process" ∈ args) in
  if processQueue then
    (* Process job queue *)
    queue ← readJobQueue;
    if bool_decide (length queue = 0%nat) then mret tt
    else
      let dryRun := Cli.isDryRun argv in
      results ← liftQ (processFrom envs dryRun queue 0 []);
      (* Remove processed jobs from queue *)
      let remaining := remainingOf queue results in
      writeJobQueue remaining
  else
    (* Discover jobs *)
    monitorCompanies companies ;; mret tt.

End Monitor.

End Monitor.

(** ** Sample data for the examples *)

Module Sample.

Definition entry (revision : string) : VersionLogEntry :=
  {| revisionId := lit revision;
     timestamp := lit "2025-01-01T00:00:00.000Z";
     jobTitle := None;
     company := None;
     jobUrl := None;
     Types.changes := [lit "Aligned two bullets"];
     isRevert := false |}.

Definition revision (name : string) : RawRevision :=
  {| rawId := Some (lit name);
     rawModifiedTime := Some (lit "2025-02-02T00:00:00.000Z");
     rawMimeType := Some (lit "application/vnd.google-apps.document") |}.

Definition text : jsstring := lit "Built two full-stack applications.".

Definition suggestion : Suggestion :=
  {| item := {| original := text;
                replacement :=
                  lit "Built and scaled two full-stack AI applications." |};
     jd_alignment := Some (lit "Building and scaling AI systems") |}.

Definition answer : AlignmentResponse :=
  {| suggested := [suggestion]; summary := [lit "Lead with scale"] |}.

Definition failure (msg : string) : Error := newError (lit msg).

Definition apiFailure (status : N) (detail : string) : Error :=
  {| message := lit "Request failed";
     response := Some (status, Some (lit detail)) |}.

(** Every service answers; the document has revisions r0 .. r3. *)
Definition services : Services :=
  {| drive_client := inr tt;
     docs_client := inr tt;
     files_export := inr (TextData text);
     revisions_get := fun _ => inr (TextData text);
     revisions_list :=
       inr (Some [revision "r0"; revision "r1"; revision "r2"; revision "r3"]);
     documents_get := inr (Some [Some 35]);
     documents_batchUpdate := fun requests => inr (Some [Some 1%N]);
     groq_post := fun _ => inr answer;
     validUrl := fun _ => true;
     firecrawl_key := true;
     scrapeUrl := fun _ => inr (lit "# Engineer");
     fs_write := WriteCompletes |}.

(** As [services], but the revision listing fails. *)
Definition listingFails : Services :=
  {| drive_client := drive_client services;
     docs_client := docs_client services;
     files_export := files_export services;
     revisions_get := revisions_get services;
     revisions_list := inl (failure "socket hang up");
     documents_get := documents_get services;
     documents_batchUpdate := documents_batchUpdate services;
     groq_post := groq_post services;
     validUrl := validUrl services;
     firecrawl_key := firecrawl_key services;
     scrapeUrl := scrapeUrl services;
     fs_write := fs_write services |}.

(** As [services], with another answer of the generation service. *)
Definition withGroq (post : nat -> Attempt) : Services :=
  {| drive_client := drive_client services;
     docs_client := docs_client services;
     files_export := files_export services;
     revisions_get := revisions_get services;
     revisions_list := revisions_list services;
     documents_get := documents_get services;
     documents_batchUpdate := documents_batchUpdate services;
     groq_post := post;
     validUrl := validUrl services;
     firecrawl_key := firecrawl_key services;
     scrapeUrl := scrapeUrl services;
     fs_write := fs_write services |}.

(** As [services], with another end of the file write. *)
Definition withWrite (outcome : WriteOutcome) : Services :=
  {| drive_client := drive_client services;
     docs_client := docs_client services;
     files_export := files_export services;
     revisions_get := revisions_get services;
     revisions_list := revisions_list services;
     documents_get := documents_get services;
     documents_batchUpdate := documents_batchUpdate services;
     groq_post := groq_post services;
     validUrl := validUrl services;
     firecrawl_key := firecrawl_key services;
     scrapeUrl := scrapeUrl services;
     fs_write := outcome |}.

(** A log with the entries of r1 and r2, and no call made yet. *)
Definition world : World :=
  {| logFile := Holds [entry "r1"; entry "r2"]; trace := [] |}.

Definition noTags : Metadata.t :=
  {| Metadata.company := None;
     Metadata.jobTitle := None;
     Metadata.jobUrl := None |}.

End Sample.

(** * Properties *)

(** ** Vocabulary of the statements *)

(** [t] is a contiguous run of the code units of [s]. *)
Definition isSubstring (t s : jsstring) : Prop :=
  exists pre post, s = pre ++ t ++ post.

(** The difference of the whitespace-token counts of a pair. *)
Definition wordDelta (r : ReplacementItem) : Z :=
  Z.abs (wordCount (original r) - wordCount (replacement r)).

(** The three conditions of the validator, for a bound. *)
Definition acceptable (bound : Z) (T : jsstring) (r : ReplacementItem) : Prop :=
  isSubstring (original r) T
  /\ trim (original r) <> trim (replacement r)
  /\ wordDelta r <= bound.

(** What [readVersionLog] returns for a file. *)
Definition entriesOf (f : file) : list VersionLogEntry :=
  match f with
  | Holds entries => entries
  | NoFile | Torn _ => []
  end.

(** The attempt numbers of the [GroqPost] calls of a trace. *)
Definition groqPosts (t : list Effect) : list nat :=
  omap (fun ev => match ev with GroqPost k => Some k | _ => None end) t.

(** The classes of failure of one attempt, as the [catch] block tells
    them apart. *)
Definition isApiError (e : Error) : Prop := is_Some (response e).

Definition isParseFailure (e : Error) : Prop :=
  response e = None
  /\ (includes (message e) (lit "JSON") = true
      \/ includes (message e) (lit "parse") = true).

(** How the loop ends when attempt [n] is the last one made. *)
Definition endsAt (post : nat -> Attempt) (n : nat)
    (o : Outcome AlignmentResponse) : Prop :=
  match post n with
  | inr r => o = Ok r
  | inl e =>
      match response e with
      | Some (status, detail) =>
          o = Threw (newError
                       (apiErrorMessage status
                          (default (message e)
                             (if truthy detail then detail else None))))
      | None => o = Threw e /\ (isParseFailure e -> n = maxRetries)
      end
  end.

(** A world with another log file, or with one more call made. *)
Definition setFile (f : file) (w : World) : World :=
  {| logFile := f; trace := trace w |}.

Definition addTrace (ev : Effect) (w : World) : World :=
  {| logFile := logFile w; trace := trace w ++ [ev] |}.

(** The stages of an update up to and including the apply call. *)
Definition applyStage (env : Services) : M (ResumeUpdateResult * N) :=
  currentText ← getResumeText env;
  result ← getResumeReplacements (groq_post env) currentText;
  appliedCount ← applyWordReplacements env (replacements result);
  mret (result, appliedCount).

(** What the apply call of a run returned: the validated result and
    the count of occurrences changed, or [None] when the text, the
    suggestions or the apply call itself failed. *)
Definition applyReturned (env : Services) (w : World)
  : option (ResumeUpdateResult * N) :=
  match applyStage env w with
  | (Ok r, _) => Some r
  | _ => None
  end.

(** The latest revision of the listing that follows a mutation, when
    the listing succeeds and is not empty. *)
Definition latestListed (env : Services) : option Revision :=
  match drive_client env, revisions_list env with
  | inr _, inr (Some revisions) => last (map toRevision revisions)
  | _, _ => None
  end.

(** The entry that an update logs. *)
Definition updateEntry (latestRevision : Revision) (metadata : Metadata.t)
    (result : ResumeUpdateResult) : VersionLogEntry :=
  {| revisionId := id latestRevision;
     timestamp := modifiedTime latestRevision;
     company := Metadata.company metadata;
     jobTitle := Metadata.jobTitle metadata;
     jobUrl := Metadata.jobUrl metadata;
     Types.changes := GroqClient.changes result;
     isRevert := false |}.

(** The entry that a revert to [targetEntry] logs. *)
Definition revertEntry (latestRevision : Revision)
    (targetEntry : VersionLogEntry) : VersionLogEntry :=
  {| revisionId := id latestRevision;
     timestamp := modifiedTime latestRevision;
     jobTitle := None;
     company := None;
     jobUrl := None;
     Types.changes := [lit "Reverted to revision " ++ revisionId targetEntry];
     isRevert := true |}.

(** The reconciliation in the words of the design document, on the
    revision ids of the local entries and of the remote revisions
    (oldest first): [extra] is the local ids with no remote revision,
    [missing] the remote ids with no local entry, the oldest revision
    left out. *)
Definition extraOf (localIds remoteIds : list jsstring) : list jsstring :=
  filter (fun x => x ∉ remoteIds) localIds.

Definition missingOf (localIds remoteIds : list jsstring) : list jsstring :=
  filter (fun x => x ∉ localIds) (tail remoteIds).

(** The whitespace tokens of a string are its maximal runs of code
    units that are not white space.  [inToken] tells that the code
    unit before [s] belongs to a token. *)
Fixpoint tokensFrom (inToken : bool) (s : jsstring) : nat :=
  match s with
  | [] => 0
  | c :: s' =>
      if isWhiteSpace c then tokensFrom false s'
      else ((if inToken then 0 else 1) + tokensFrom true s')%nat
  end.

Definition tokenCount (s : jsstring) : Z := Z.of_nat (tokensFrom false s).

Definition startsWithSpace (s : jsstring) : bool :=
  match s with
  | c :: _ => isWhiteSpace c
  | [] => false
  end.

Definition endsWithSpace (s : jsstring) : bool :=
  match last s with
  | Some c => isWhiteSpace c
  | None => false
  end.

(** The number of pieces that [split(/\s+/)] cuts a string into, told
    from its tokens: one for the empty string, and otherwise the
    number of whitespace tokens, plus one when the string starts with
    white space, plus one when it ends with white space. *)
Definition splitPieces (s : jsstring) : Z :=
  match s with
  | [] => 1
  | _ :: _ =>
      tokenCount s
      + (if startsWithSpace s then 1 else 0)
      + (if endsWithSpace s then 1 else 0)
  end.


Definition pieceDelta (r : ReplacementItem) : Z :=
  Z.abs (splitPieces (original r) - splitPieces (replacement r)).

(** The stages of an update up to the validated suggestions. *)
Definition suggestStage (env : Services) : M ResumeUpdateResult :=
  currentText ← getResumeText env;
  getResumeReplacements (groq_post env) currentText.

(** Every step of an update returned: in a dry run the export of the
    text and the suggestions; otherwise also the apply call, a
    listing with a latest revision, and the write of the log file. *)
Definition stepsReturn (env : Services) (dryRun : bool) (w : World) : Prop :=
  if dryRun then exists result, fst (suggestStage env w) = Ok result
  else is_Some (applyReturned env w)
       /\ is_Some (latestListed env)
       /\ fs_write env = WriteCompletes.

(** An item of a batch, or a job of the queue, goes through: its job
    description is fetched and every step of its update returns. *)
Definition goesThrough (env : Services) (url : jsstring) (dryRun : bool)
    (w : World) : Prop :=
  (exists jobDescription,
     fst (fetchJobDescriptionFromUrl env url w) = Ok jobDescription)
  /\ stepsReturn env dryRun w.

(** A computation whose outcome does not depend on the world it
    starts in: the answers of the services decide it. *)
Definition steady {A} (m : M A) : Prop :=
  forall w1 w2, fst (m w1) = fst (m w2).

(** A computation that always returns a value. *)
Definition returns {A} (m : M A) : Prop :=
  forall w, exists a, fst (m w) = Ok a.

(** The waits of a trace, in milliseconds. *)
Definition sleeps (t : list Effect) : list Z :=
  omap (fun ev => match ev with Sleep ms => Some ms | _ => None end) t.

(** The calls of the retry loop when attempt [n] is the last one made:
    each earlier attempt is followed by a wait of 1000 ms times its
    number. *)
Definition attemptTrace (first n : nat) : list Effect :=
  flat_map (fun k => [GroqPost k; Sleep (1000 * Z.of_nat k)])
           (seq first (n - first))
  ++ [GroqPost n].

(** The sum of the [occurrencesChanged] of the replies, a reply
    without one counting for 0. *)
Definition occurrencesChanged (replies : option (list (option N))) : N :=
  foldr N.add 0%N (map (default 0%N) (default [] replies)).

(** The requests of a trace to the services: everything but the lines
    printed. *)
Definition isRequest (ev : Effect) : bool :=
  match ev with ConsoleError _ => false | _ => true end.

Definition requestsOf (t : list Effect) : list Effect :=
  filter (fun ev => isRequest ev) t.

(** Appending the entries one after the other. *)
Fixpoint appendAll (outcome : WriteOutcome) (entries : list VersionLogEntry)
  : M unit :=
  match entries with
  | [] => mret tt
  | entry :: rest => appendVersionLog outcome entry ;; appendAll outcome rest
  end.

(** The longest prefix whose elements all satisfy [p]. *)
Fixpoint takeWhile {A} (p : A -> bool) (l : list A) : list A :=
  match l with
  | [] => []
  | x :: l' => if p x then x :: takeWhile p l' else []
  end.

(** A string that [line.startsWith('http')] accepts. *)
Definition looksLikeUrl (s : jsstring) : bool := startsWith s (lit "http").

(** A code unit that [sanitize] leaves in a file name. *)
Definition fileNameSafe (c : N) : Prop := Cli.isAlnum c = true \/ c = 45%N.

(** The first value that is truthy, of a flag, of what the URL gives
    and of what the job description gives. *)
Definition firstTruthy (a b c : option jsstring) : option jsstring :=
  Cli.orElse (Cli.orElse a b) c.

(** What [readJobQueue] returns for a queue file. *)
Definition jobsOf (isUrl : jsstring -> bool) (q : Monitor.queueFile)
  : list Monitor.JobQueueEntry :=
  match q with
  | Monitor.Queued jobs =>
      if forallb (fun job => isUrl (Monitor.url job)) jobs then jobs else []
  | Monitor.NoQueue | Monitor.TornQueue _ => []
  end.

(** The argument at position [i] is one of the flags and the argument
    after it is a value. *)
Definition givesValue (flags : list string) (args : list jsstring) (i : nat)
  : Prop :=
  (exists flag, flag ∈ flags /\ args !! i = Some (lit flag))
  /\ truthy (args !! S i) = true.

(** What the discovery finds for a company: the postings of its
    career page that pass its filter, none when the page cannot be
    had. *)
Definition discovered (toLowerCase : jsstring -> jsstring)
    (careerPage : jsstring -> Answer jsstring)
    (extractJobPostings : jsstring -> jsstring -> list Monitor.JobQueueEntry)
    (company : Monitor.CompanyConfig) : list Monitor.JobQueueEntry :=
  match careerPage (Monitor.careerPageUrl company) with
  | inl _ => []
  | inr markdown =>
      Monitor.filterJobs toLowerCase
        (extractJobPostings markdown (Monitor.name company)) company
  end.

(** The calls of a discovery over the companies: one request for the
    career page of each, followed by a wait of 1000 ms. *)
Definition discoveryTrace (companies : list Monitor.CompanyConfig)
  : list Effect :=
  flat_map (fun company =>
              [Scrape (Monitor.careerPageUrl company); Sleep 1000])
           companies.

(** The tags that [handleMonitor] gives to the update of a job. *)
Definition tagsOf (job : Monitor.JobQueueEntry) : Metadata.t :=
  {| Metadata.company := Some (Monitor.company job);
     Metadata.jobTitle := Some (Monitor.jobTitle job);
     Metadata.jobUrl := Some (Monitor.url job) |}.

(** ** Facts about the string built-ins *)

Section StringFacts.

Lemma startsWith_spec (s p : jsstring) :
  startsWith s p = true <-> exists post, s = p ++ post.
Proof.
  revert s. induction p as [|a p IH]; intros s; simpl.
  - split; [intros _; by exists s | reflexivity].
  - destruct s as [|b s].
    + split; [done | intros [post H]; discriminate H].
    + rewrite andb_true_iff, N.eqb_eq, IH. split.
      * intros [-> [post ->]]. by exists post.
      * intros [post H]. injection H as -> ->. eauto.
Qed.

Lemma includes_spec (s t : jsstring) :
  includes s t = true <-> isSubstring t s.
Proof.
  unfold isSubstring. induction s as [|c s IH].
  - cbn [includes]. rewrite orb_false_r, startsWith_spec. split.
    + intros [post H]. by exists [], post.
    + intros [pre [post H]]. symmetry in H.
      apply app_eq_nil in H as [-> H]. eauto.
  - cbn [includes]. rewrite orb_true_iff, startsWith_spec, IH. split.
    + intros [[post H] | [pre [post H]]].
      * by exists [], post.
      * exists (c :: pre), post. by rewrite H.
    + intros [[|c' pre] [post H]].
      * left. by exists post.
      * right. injection H as -> ->. eauto.
Qed.

Lemma str_eqb_false (s t : jsstring) : str_eqb s t = false <-> s <> t.
Proof. unfold str_eqb. apply bool_decide_eq_false. Qed.

Lemma validWithin_spec (bound : Z) (T : jsstring) (r : ReplacementItem) :
  validWithin bound T r = true <-> acceptable bound T r.
Proof.
  unfold validWithin, acceptable, wordDelta.
  rewrite <- includes_spec, <- str_eqb_false.
  destruct (includes T (original r)); simpl.
  2: { split; [done | by intros [? _]]. }
  destruct (str_eqb _ _); simpl.
  1: { split; [done | by intros (_ & ? & _)]. }
  destruct (Z.gtb_spec (Z.abs (wordCount (original r)
                               - wordCount (replacement r))) bound);
    split; try done; intros (_ & _ & ?); lia.
Qed.

End StringFacts.

(** ** What [split(/\s+/)] counts *)

Lemma splitWsFrom_length_pos (prevWs : bool) (s : jsstring) :
  (1 <= length (splitWsFrom prevWs s))%nat.
Proof.
  revert prevWs. induction s as [|c s IH]; intros prevWs; cbn; [lia|].
  destruct (isWhiteSpace c).
  - destruct prevWs; [apply IH|cbn; lia].
  - specialize (IH false). destruct (splitWsFrom false s); cbn in *; lia.
Qed.

Lemma splitWsFrom_length_word (c : N) (s : jsstring) (prevWs : bool) :
  isWhiteSpace c = false ->
  length (splitWsFrom prevWs (c :: s)) = length (splitWsFrom false s).
Proof.
  intros Hc. cbn. rewrite Hc.
  pose proof (splitWsFrom_length_pos false s).
  destruct (splitWsFrom false s); cbn in *; lia.
Qed.

Lemma splitWsFrom_length_prev (s : jsstring) :
  length (splitWsFrom false s)
  = (length (splitWsFrom true s) + (if startsWithSpace s then 1 else 0))%nat.
Proof.
  destruct s as [|c s]; [done|].
  destruct (isWhiteSpace c) eqn:Hc.
  - cbn. rewrite Hc. cbn. lia.
  - rewrite !splitWsFrom_length_word by done. cbn. rewrite Hc. lia.
Qed.

Lemma tokensFrom_inToken (s : jsstring) :
  s <> [] ->
  tokensFrom false s
  = (tokensFrom true s + (if startsWithSpace s then 0 else 1))%nat.
Proof.
  destruct s as [|c s]; [done|]. intros _. cbn.
  destruct (isWhiteSpace c); lia.
Qed.

Lemma endsWithSpace_cons (c : N) (s : jsstring) :
  s <> [] -> endsWithSpace (c :: s) = endsWithSpace s.
Proof.
  intros Hne. unfold endsWithSpace. rewrite last_cons.
  destruct (last s) eqn:Hlast; [done|].
  by apply last_None in Hlast.
Qed.

Lemma splitWs_length (s : jsstring) :
  s <> [] ->
  length (splitWs s)
  = (tokensFrom false s
     + (if startsWithSpace s then 1 else 0)
     + (if endsWithSpace s then 1 else 0))%nat.
Proof.
  unfold splitWs. induction s as [|c s IH]; [done|]. intros _.
  destruct s as [|c' s'].
  { cbn. unfold endsWithSpace. cbn. by destruct (isWhiteSpace c). }
  specialize (IH ltac:(done)).
  rewrite endsWithSpace_cons by done.
  set (rest := c' :: s') in *.
  destruct (isWhiteSpace c) eqn:Hc.
  - cbn [splitWsFrom tokensFrom startsWithSpace]. rewrite Hc.
    cbn [length]. pose proof (splitWsFrom_length_prev rest). lia.
  - rewrite splitWsFrom_length_word by done.
    cbn [tokensFrom startsWithSpace]. rewrite Hc.
    pose proof (tokensFrom_inToken rest ltac:(done)) as Htok.
    destruct (startsWithSpace rest); lia.
Qed.

(** The count of the code is the number of pieces. *)
Lemma wordCount_splitPieces (s : jsstring) : wordCount s = splitPieces s.
Proof.
  unfold wordCount, splitPieces, tokenCount.
  destruct s as [|c s]; [done|].
  rewrite splitWs_length by done.
  destruct (startsWithSpace (c :: s)), (endsWithSpace (c :: s)); lia.
Qed.

Lemma wordDelta_pieceDelta (r : ReplacementItem) : wordDelta r = pieceDelta r.
Proof. unfold wordDelta, pieceDelta. by rewrite !wordCount_splitPieces. Qed.

(** ** The validator of [getResumeReplacements] *)

Section Validator.

Variable T : jsstring.

Lemma item_eta (c : Suggestion) :
  {| original := original c; replacement := replacement c |} = item c.
Proof. by destruct c as [[]]. Qed.

Lemma elem_of_validReplacements (cs : list Suggestion) (c : Suggestion) :
  c ∈ validReplacements T cs <-> c ∈ cs /\ acceptable maxWordDelta T c.
Proof.
  unfold validReplacements. rewrite list_elem_of_filter, Is_true_true.
  rewrite validWithin_spec. tauto.
Qed.

Lemma validReplacements_all (cs : list Suggestion) :
  Forall (fun c : Suggestion => acceptable maxWordDelta T c) cs ->
  validReplacements T cs = cs.
Proof.
  unfold validReplacements. induction 1 as [|c cs Hc _ IH]; [done|].
  rewrite filter_cons_True, IH; [done|].
  by apply Is_true_true, validWithin_spec.
Qed.

Lemma validReplacements_Forall (cs : list Suggestion) :
  Forall (fun c : Suggestion => acceptable maxWordDelta T c)
         (validReplacements T cs).
Proof.
  apply Forall_forall. intros c Hc.
  by apply elem_of_validReplacements in Hc as [_ ?].
Qed.

(** C7. The validator is a filter that looks at one candidate at a
    time: the output of a concatenation is the concatenation of the
    outputs, and a single candidate passes or not by the text and
    itself alone; the output is a subsequence of the input, in the same
    order; a list of acceptable candidates comes back whole, repeated
    and overlapping ones included; and validating the output again
    changes nothing. *)
Theorem validator_is_order_preserving_filter :
  (forall cs1 cs2 : list Suggestion,
     validReplacements T (cs1 ++ cs2)
     = validReplacements T cs1 ++ validReplacements T cs2)
  /\ (forall c : Suggestion,
        validReplacements T [c]
        = if validWithin maxWordDelta T c then [c] else [])
  /\ (forall cs : list Suggestion, validReplacements T cs `sublist_of` cs)
  /\ (forall cs : list Suggestion,
        Forall (fun c : Suggestion => acceptable maxWordDelta T c) cs ->
        validReplacements T cs = cs)
  /\ (forall cs : list Suggestion,
        validReplacements T (validReplacements T cs) = validReplacements T cs).
Proof.
  split; [|split; [|split; [|split]]].
  - intros cs1 cs2. apply filter_app.
  - intros c. unfold validReplacements. rewrite filter_cons, filter_nil.
    destruct (validWithin maxWordDelta T c); by case_decide.
  - intros cs. apply sublist_filter.
  - apply validReplacements_all.
  - intros cs. apply validReplacements_all, validReplacements_Forall.
Qed.

End Validator.

(** ** Running the monad *)

Ltac unfold_M :=
  unfold mbind, M_bind, mret, M_ret, bind, ret, throw, exit, tryCatch, call,
    settle, consoleError, getFile, putFile in *.

Lemma bind_run {A B} (m : M A) (k : A -> M B) (w : World) :
  (m ≫= k) w =
  match m w with
  | (Ok a, w') => k a w'
  | (Threw e, w') => (Threw e, w')
  | (Exited c, w') => (Exited c, w')
  end.
Proof. reflexivity. Qed.

Lemma readVersionLog_run (w : World) :
  readVersionLog w = (Ok (entriesOf (logFile w)), w).
Proof.
  unfold readVersionLog. unfold_M. by destruct (logFile w).
Qed.

Lemma groqPosts_snoc (t : list Effect) (ev : Effect) :
  groqPosts (t ++ [ev])
  = groqPosts t ++ match ev with GroqPost k => [k] | _ => [] end.
Proof.
  unfold groqPosts. rewrite omap_app. by destruct ev.
Qed.

Lemma docMutations_snoc (t : list Effect) (ev : Effect) :
  docMutations (t ++ [ev])
  = docMutations t ++ match ev with DocsBatchUpdate rs => [rs] | _ => [] end.
Proof.
  unfold docMutations. rewrite omap_app. by destruct ev.
Qed.

(** ** The retry loop of [getAlignmentSuggestions] *)

Section Retry.

Variable post : nat -> Attempt.

Lemma onAttemptError_retry (attempt : nat) (e : Error) (ms : Z) :
  onAttemptError attempt e = inr ms ->
  isParseFailure e /\ (attempt < maxRetries)%nat /\ ms = 1000 * Z.of_nat attempt.
Proof.
  unfold onAttemptError, isParseFailure.
  destruct (response e) as [[status detail]|]; [done|].
  destruct (Nat.ltb_spec attempt maxRetries); simpl; [|done].
  destruct (includes (message e) (lit "JSON")) eqn:HJ; simpl.
  - intros [= <-]. auto.
  - destruct (includes (message e) (lit "parse")) eqn:HP; simpl; [|done].
    intros [= <-]. auto.
Qed.

Lemma onAttemptError_throw (attempt : nat) (e thrown : Error) :
  onAttemptError attempt e = inl thrown ->
  match response e with
  | Some (status, detail) =>
      thrown = newError
                 (apiErrorMessage status
                    (default (message e)
                       (if truthy detail then detail else None)))
  | None => thrown = e /\ (isParseFailure e -> (maxRetries <= attempt)%nat)
  end.
Proof.
  unfold onAttemptError, isParseFailure.
  destruct (response e) as [[status detail]|]; [by intros [= <-]|].
  destruct (Nat.ltb_spec attempt maxRetries); simpl.
  - destruct (includes (message e) (lit "JSON")); simpl; [done|].
    destruct (includes (message e) (lit "parse")); simpl; [done|].
    intros [= <-]. split; [done|]. intros [_ [?|?]]; done.
  - intros [= <-]. auto.
Qed.

Lemma attemptsFrom_spec (remaining attempt : nat) (lastError : option Error)
    (w : World) :
  remaining <> 0%nat ->
  (attempt + remaining = S maxRetries)%nat ->
  exists n : nat,
    let (o, w') := attemptsFrom post remaining attempt lastError w in
    (attempt <= n <= maxRetries)%nat
    /\ groqPosts (trace w')
       = groqPosts (trace w) ++ seq attempt (S n - attempt)
    /\ (forall k, (attempt <= k < n)%nat ->
          exists e, post k = inl e /\ isParseFailure e)
    /\ endsAt post n o
    /\ logFile w' = logFile w.
Proof.
  revert attempt lastError w.
  induction remaining as [|remaining IH]; intros attempt lastError w Hne Hsum;
    [done|].
  cbn [attemptsFrom]. unfold tryCatch at 1, call at 1.
  destruct (post attempt) as [e|r] eqn:Hpost.
  - destruct (onAttemptError attempt e) as [thrown|ms] eqn:Hon.
    + exists attempt. unfold throw. cbn [trace logFile].
      rewrite groqPosts_snoc.
      replace (S attempt - attempt)%nat with 1%nat by lia.
      split; [lia|]. split; [done|]. split; [intros k ?; lia|].
      split; [|done].
      unfold endsAt. rewrite Hpost.
      apply onAttemptError_throw in Hon.
      destruct (response e) as [[status detail]|]; [by subst|].
      destruct Hon as [-> Hlast]. split; [done|]. intros Hp.
      specialize (Hlast Hp). lia.
    + apply onAttemptError_retry in Hon as (Hparse & Hlt & ->).
      rewrite bind_run. unfold call at 1.
      match goal with
      | |- context [attemptsFrom post remaining (S attempt) ?l ?w1] =>
          destruct (IH (S attempt) l w1) as [n Hn]; [lia | lia |];
          destruct (attemptsFrom post remaining (S attempt) l w1) as [o w']
      end.
      cbn [trace logFile] in Hn. rewrite !groqPosts_snoc in Hn.
      destruct Hn as (Hrange & Hposts & Hretry & Hend & Hfile).
      exists n. split; [lia|]. split; [|split; [|done]].
      * rewrite Hposts, app_nil_r, <- app_assoc. f_equal.
        replace (S n - attempt)%nat with (S (S n - S attempt)) by lia.
        done.
      * intros k Hk. destruct (decide (k = attempt)) as [->|].
        -- eauto.
        -- apply Hretry. lia.
  - exists attempt. cbn [trace logFile]. rewrite groqPosts_snoc.
    replace (S attempt - attempt)%nat with 1%nat by lia.
    split; [lia|]. split; [done|]. split; [intros k ?; lia|].
    split; [|done]. unfold endsAt. by rewrite Hpost.
Qed.

(** C9. At most three attempts are made; every attempt before the
    last ended in a parse failure (not an API error answer: the
    message mentions JSON or parse), so nothing else is retried; an
    attempt that returns ends the loop with its value; an API error
    answer ends it at once with a Groq API Error; any other error ends
    it with that very error, and if that error is a parse failure the
    attempt was the third one. *)
Theorem retry_only_on_parse_failure (w : World) :
  exists n : nat,
    let (o, w') := getAlignmentSuggestions post w in
    (1 <= n <= 3)%nat
    /\ groqPosts (trace w') = groqPosts (trace w) ++ seq 1 n
    /\ (forall k, (1 <= k < n)%nat ->
          exists e, post k = inl e /\ isParseFailure e /\ ~ isApiError e)
    /\ endsAt post n o
    /\ logFile w' = logFile w.
Proof.
  unfold getAlignmentSuggestions.
  destruct (attemptsFrom_spec maxRetries 1 None w) as [n Hn]; [done | done |].
  exists n. destruct (attemptsFrom post maxRetries 1 None w) as [o w'].
  destruct Hn as (Hrange & Hposts & Hretry & Hend & Hfile).
  replace (S n - 1)%nat with n in Hposts by lia.
  unfold maxRetries in Hrange.
  repeat split; try done; try lia.
  intros k Hk. destruct (Hretry k Hk) as (e & He & Hp).
  exists e. split; [done|]. split; [done|].
  unfold isApiError. destruct Hp as [-> _]. by intros [? ?].
Qed.

End Retry.

(** ** What [getResumeReplacements] hands to the caller *)

Lemma getResumeReplacements_run (post : nat -> Attempt) (T : jsstring)
    (w : World) :
  getResumeReplacements post T w =
  match getAlignmentSuggestions post w with
  | (Ok suggestions, w') =>
      (Ok {| replacements := map item (validReplacements T (suggested suggestions));
             changes := summary suggestions |}, w')
  | (Threw e, w') => (Threw e, w')
  | (Exited c, w') => (Exited c, w')
  end.
Proof.
  unfold getResumeReplacements. rewrite bind_run.
  destruct (getAlignmentSuggestions post w) as [[suggestions|e|c] w'];
    try done.
  unfold_M. do 3 f_equal. apply map_ext. intros c. apply item_eta.
Qed.


(** ** One step of each service call *)

Lemma call_run {A} (ev : Effect) (answer : Answer A) (w : World) :
  call ev answer w =
  (match answer with inl e => Threw e | inr a => Ok a end, addTrace ev w).
Proof. unfold call, addTrace. by destruct answer. Qed.

Lemma getResumeText_run (env : Services) (w : World) :
  getResumeText env w =
  match drive_client env with
  | inl e => (Threw e, w)
  | inr _ =>
      (match files_export env with
       | inl e => Threw e
       | inr (TextData s) => Ok s
       | inr OtherData =>
           Threw (newError (lit "Expected text response from Drive export"))
       end, addTrace DriveFilesExport w)
  end.
Proof.
  unfold getResumeText, initializeDriveClient. rewrite bind_run.
  unfold settle. destruct (drive_client env) as [e|[]]; [done|].
  rewrite bind_run, call_run. by destruct (files_export env) as [e|[s|]].
Qed.

Lemma applyWordReplacements_run (env : Services)
    (rs : list ReplacementItem) (w : World) :
  exists o w1,
    applyWordReplacements env rs w = (o, w1)
    /\ logFile w1 = logFile w
    /\ forall c, o <> Exited c.
Proof.
  unfold applyWordReplacements, initializeDocsClient. rewrite bind_run.
  unfold settle. destruct (docs_client env) as [e|[]]; [by eexists _, _|].
  case_bool_decide; [by eexists _, _|].
  rewrite bind_run, call_run.
  destruct (documents_batchUpdate env _) as [e|replies]; by eexists _, _.
Qed.

Lemma getRevisions_run (env : Services) (w : World) :
  getRevisions env w =
  match drive_client env with
  | inl e => (Threw e, w)
  | inr _ =>
      (match revisions_list env with
       | inl e => Threw e
       | inr None => Ok []
       | inr (Some revisions) => Ok (map toRevision revisions)
       end, addTrace DriveRevisionsList w)
  end.
Proof.
  unfold getRevisions, initializeDriveClient. rewrite bind_run.
  unfold settle. destruct (drive_client env) as [e|[]]; [done|].
  rewrite bind_run, call_run.
  by destruct (revisions_list env) as [e|[revisions|]].
Qed.

Lemma writeVersionLog_run (outcome : WriteOutcome)
    (entries : list VersionLogEntry) (w : World) :
  writeVersionLog outcome entries w =
  match outcome with
  | WriteCompletes => (Ok tt, setFile (Holds entries) w)
  | WriteFailsAtOpen e => (Threw e, w)
  | WriteFailsMidway e => (Threw e, setFile (Torn entries) w)
  end.
Proof. by destruct outcome. Qed.

Lemma appendVersionLog_run (outcome : WriteOutcome) (entry : VersionLogEntry)
    (w : World) :
  appendVersionLog outcome entry w
  = writeVersionLog outcome (entriesOf (logFile w) ++ [entry]) w.
Proof.
  unfold appendVersionLog. by rewrite bind_run, readVersionLog_run.
Qed.

Lemma getAlignmentSuggestions_frame (post : nat -> Attempt) (w : World) :
  let (o, w') := getAlignmentSuggestions post w in
  logFile w' = logFile w
  /\ docMutations (trace w') = docMutations (trace w)
  /\ forall c, o <> Exited c.
Proof.
  unfold getAlignmentSuggestions. generalize 1%nat (@None Error).
  generalize maxRetries. intros remaining. revert w.
  induction remaining as [|remaining IH]; intros w attempt lastError.
  - by cbn.
  - cbn [attemptsFrom]. unfold tryCatch at 1. rewrite call_run.
    destruct (post attempt) as [e|r].
    2: { cbn [addTrace logFile trace].
         by rewrite docMutations_snoc, app_nil_r. }
    destruct (onAttemptError attempt e) as [thrown|ms].
    + unfold throw. cbn [addTrace logFile trace].
      by rewrite docMutations_snoc, app_nil_r.
    + rewrite bind_run, call_run.
      match goal with
      | |- context [attemptsFrom post remaining ?a ?l ?w1] =>
          specialize (IH w1 a l);
          destruct (attemptsFrom post remaining a l w1) as [o w']
      end.
      cbn [addTrace logFile trace] in IH.
      rewrite !docMutations_snoc, !app_nil_r in IH. exact IH.
Qed.

Lemma getResumeReplacements_frame (post : nat -> Attempt) (T : jsstring)
    (w : World) :
  let (o, w') := getResumeReplacements post T w in
  logFile w' = logFile w
  /\ docMutations (trace w') = docMutations (trace w)
  /\ forall c, o <> Exited c.
Proof.
  rewrite getResumeReplacements_run.
  pose proof (getAlignmentSuggestions_frame post w) as H.
  destruct (getAlignmentSuggestions post w) as [[suggestions|e|c] w'];
    destruct H as (? & ? & Hexit); repeat split; try done.
  by destruct (Hexit c).
Qed.

(** ** The update cycle *)

(** Where the log file stands after [performUpdate]. *)
Lemma performUpdate_log (env : Services) (jobDescription : jsstring)
    (jobUrl : option jsstring) (metadata : Metadata.t) (dryRun : bool)
    (w : World) :
  let (res, w') := performUpdate env jobDescription jobUrl metadata dryRun w in
  logFile w' =
    (if dryRun then logFile w
     else
       match applyReturned env w, latestListed env with
       | Some (result, _), Some latestRevision =>
           let entries :=
             entriesOf (logFile w)
             ++ [updateEntry latestRevision metadata result] in
           match fs_write env with
           | WriteCompletes => Holds entries
           | WriteFailsAtOpen _ => logFile w
           | WriteFailsMidway _ => Torn entries
           end
       | _, _ => logFile w
       end)
  /\ (dryRun = true -> docMutations (trace w') = docMutations (trace w)).
Proof.
  unfold performUpdate, applyReturned, applyStage, latestListed.
  unfold tryCatch. rewrite !bind_run, getResumeText_run.
  destruct (drive_client env) as [e|[]] eqn:Hdrive; [by destruct dryRun|].
  destruct (files_export env) as [e|[text|]].
  1,3: by destruct dryRun; cbn; rewrite ?docMutations_snoc, ?app_nil_r.
  rewrite !bind_run.
  pose proof (getResumeReplacements_frame (groq_post env) text
                (addTrace DriveFilesExport w)) as Hframe.
  destruct (getResumeReplacements (groq_post env) text
              (addTrace DriveFilesExport w)) as [[result|e|c] w1].
  3: by destruct Hframe as (_ & _ & Hc); destruct (Hc c).
  2: { destruct Hframe as (Hf & Hd & _). cbn in Hf, Hd |- *.
       rewrite docMutations_snoc, app_nil_r in Hd.
       destruct dryRun; by rewrite Hf, Hd. }
  destruct Hframe as (Hf & Hd & _). cbn [addTrace logFile trace] in Hf, Hd.
  rewrite docMutations_snoc, app_nil_r in Hd.
  destruct dryRun.
  { unfold_M. by rewrite Hf, Hd. }
  rewrite !bind_run.
  destruct (applyWordReplacements_run env (replacements result) w1)
    as (o & w2 & -> & Hf2 & Hexit).
  rewrite Hf in Hf2.
  destruct o as [appliedCount|e|c]; [|by cbn|by destruct (Hexit c)].
  rewrite bind_run, getRevisions_run, Hdrive. unfold_M.
  destruct (revisions_list env) as [e|[revisions|]]; [by cbn| |by cbn].
  destruct (last (map toRevision revisions)) as [latestRevision|];
    [|by cbn].
  rewrite appendVersionLog_run, writeVersionLog_run.
  cbn [addTrace logFile]. rewrite Hf2. unfold updateEntry.
  by destruct (fs_write env).
Qed.

Lemma file_not_appended (f : file) (e : VersionLogEntry) :
  f <> Holds (entriesOf f ++ [e]).
Proof.
  destruct f as [|entries|entries]; try done. cbn. intros [= H].
  apply (f_equal length) in H. rewrite length_app in H. cbn in H. lia.
Qed.

(** C1, as the code has it.  A dry run leaves the log file and the
    document alone; a run whose text fetch, suggestion or apply call
    fails leaves the log file alone; and one entry is appended exactly
    when the run is not a dry run, the apply call returned (whatever
    the count), the revision listing that follows returned at least
    one revision and the write of the log file completed.  The entry
    appended is not a revert and carries the id of the latest listed
    revision. *)
Theorem log_entry_iff_update_completed (env : Services)
    (jobDescription : jsstring) (jobUrl : option jsstring)
    (metadata : Metadata.t) (dryRun : bool) (w : World) :
  let (res, w') := performUpdate env jobDescription jobUrl metadata dryRun w in
  let old := entriesOf (logFile w) in
  (dryRun = true ->
     logFile w' = logFile w
     /\ docMutations (trace w') = docMutations (trace w))
  /\ (applyReturned env w = None -> logFile w' = logFile w)
  /\ ((exists e, logFile w' = Holds (old ++ [e])) <->
        dryRun = false
        /\ is_Some (applyReturned env w)
        /\ is_Some (latestListed env)
        /\ fs_write env = WriteCompletes)
  /\ (forall e, logFile w' = Holds (old ++ [e]) ->
        isRevert e = false
        /\ exists result appliedCount latestRevision,
             applyReturned env w = Some (result, appliedCount)
             /\ latestListed env = Some latestRevision
             /\ e = updateEntry latestRevision metadata result).
Proof.
  pose proof (performUpdate_log env jobDescription jobUrl metadata dryRun w)
    as H.
  destruct (performUpdate env jobDescription jobUrl metadata dryRun w)
    as [res w'].
  destruct H as [Hlog Hdoc]. cbv zeta.
  assert (forall e, logFile w' = Holds (entriesOf (logFile w) ++ [e]) ->
            dryRun = false
            /\ fs_write env = WriteCompletes
            /\ exists result appliedCount latestRevision,
                 applyReturned env w = Some (result, appliedCount)
                 /\ latestListed env = Some latestRevision
                 /\ e = updateEntry latestRevision metadata result) as Honly.
  { intros e He. rewrite Hlog in He.
    destruct dryRun; [by apply file_not_appended in He|].
    destruct (applyReturned env w) as [[result appliedCount]|];
      [|by apply file_not_appended in He].
    destruct (latestListed env) as [latestRevision|];
      [|by apply file_not_appended in He].
    destruct (fs_write env); [|by apply file_not_appended in He|done].
    cbv zeta in He. injection He as He. apply app_inv_head in He.
    injection He as <-. split; [done|]. split; [done|].
    by exists result, appliedCount, latestRevision. }
  split; [|split; [|split]].
  - intros ->. split; [done | by apply Hdoc].
  - intros Hnone. rewrite Hlog, Hnone. by destruct dryRun.
  - split.
    + intros [e He].
      destruct (Honly e He) as (-> & -> & result & n & l & -> & -> & _).
      by eauto.
    + intros (-> & [[result n] Hres] & [latest Hlatest] & Hwrite).
      rewrite Hlog, Hres, Hlatest, Hwrite. cbv zeta. by eexists.
  - intros e He.
    destruct (Honly e He) as (_ & _ & result & n & l & ? & ? & ->).
    split; [done|]. by exists result, n, l.
Qed.

(** C1 as stated fails: the apply call returned and changed the
    document, the listing of the revisions then failed, and nothing
    was appended. *)
Lemma apply_returned_but_nothing_logged :
  let w := Sample.world in
  let w' := snd (performUpdate Sample.listingFails (lit "# Engineer") None
                               Sample.noTags false w) in
  is_Some (applyReturned Sample.listingFails w)
  /\ docMutations (trace w') <> docMutations (trace w)
  /\ ~ exists e, logFile w' = Holds (entriesOf (logFile w) ++ [e]).
Proof.
  cbv zeta. split; [|split].
  - eexists. vm_compute. reflexivity.
  - vm_compute. discriminate.
  - intros [e He]. vm_compute in He. discriminate He.
Qed.



(** ** Persisting the log *)

(** Where [handleTag] gets to once its target is found: one write of
    the patched sequence. *)
Lemma selector_given (args : list jsstring) (arg : jsstring) :
  firstPlainArg args = Some arg -> arg <> [] ->
  (if truthy (firstPlainArg args) then firstPlainArg args else None)
  = Some arg.
Proof. intros -> Hne. by destruct arg. Qed.

Lemma selector_missing (args : list jsstring) :
  (forall arg, firstPlainArg args = Some arg -> arg = []) ->
  (if truthy (firstPlainArg args) then firstPlainArg args else None) = None.
Proof.
  intros Hnone. destruct (firstPlainArg args) as [[|c arg]|]; try done.
  by specialize (Hnone _ eq_refl).
Qed.

Lemma handleTag_found (env : Services) (args : list jsstring) (w : World)
    (tagArg : jsstring) (targetIndex : nat) (targetEntry : VersionLogEntry) :
  firstPlainArg args = Some tagArg ->
  tagArg <> [] ->
  truthy (flagValue args "--company") || truthy (flagValue args "--job-title")
    || truthy (flagValue args "--url") = true ->
  targetIndexOf tagArg (entriesOf (logFile w)) = Some (targetIndex, targetEntry) ->
  handleTag env args w
  = writeVersionLog (fs_write env)
      (<[targetIndex :=
           tagged targetEntry (flagValue args "--company")
                  (flagValue args "--job-title") (flagValue args "--url")]>
         (entriesOf (logFile w))) w.
Proof.
  intros Harg Hne Hflags Htarget. unfold handleTag. cbv zeta.
  rewrite (selector_given args tagArg Harg Hne).
  destruct (truthy (flagValue args "--company"));
    destruct (truthy (flagValue args "--job-title"));
    destruct (truthy (flagValue args "--url")); try done;
    cbn [negb andb]; by rewrite bind_run, readVersionLog_run, Htarget.
Qed.

(** C3, as the code has it.  The log is rewritten by one in-place
    write of the whole new sequence: when the write completes the file
    holds the new sequence; when the file cannot be opened it holds
    what it held; when the write fails part-way it holds a torn prefix
    of the new text, which reads back as an empty history.  Append
    writes the old sequence followed by the entry, and tag writes the
    old sequence with the target patched, both through this write. *)
Theorem log_write_is_in_place (outcome : WriteOutcome)
    (entries : list VersionLogEntry) (entry : VersionLogEntry) (w : World) :
  (let (o, w') := writeVersionLog outcome entries w in
   trace w' = trace w
   /\ match outcome with
      | WriteCompletes => o = Ok tt /\ logFile w' = Holds entries
      | WriteFailsAtOpen e => o = Threw e /\ logFile w' = logFile w
      | WriteFailsMidway e =>
          o = Threw e /\ logFile w' = Torn entries
          /\ entriesOf (logFile w') = []
      end)
  /\ appendVersionLog outcome entry w
     = writeVersionLog outcome (entriesOf (logFile w) ++ [entry]) w
  /\ (forall (env : Services) (args : list jsstring) (tagArg : jsstring)
             (targetIndex : nat) (targetEntry : VersionLogEntry),
        firstPlainArg args = Some tagArg ->
        tagArg <> [] ->
        truthy (flagValue args "--company")
          || truthy (flagValue args "--job-title")
          || truthy (flagValue args "--url") = true ->
        targetIndexOf tagArg (entriesOf (logFile w))
          = Some (targetIndex, targetEntry) ->
        handleTag env args w
        = writeVersionLog (fs_write env)
            (<[targetIndex :=
                 tagged targetEntry (flagValue args "--company")
                        (flagValue args "--job-title")
                        (flagValue args "--url")]>
               (entriesOf (logFile w))) w).
Proof.
  split; [|split].
  - rewrite writeVersionLog_run. by destruct outcome.
  - apply appendVersionLog_run.
  - intros env args tagArg targetIndex targetEntry.
    apply handleTag_found.
Qed.

(** C3 as stated fails: an append whose write fails part-way leaves a
    file that holds neither the old sequence nor the new one. *)
Lemma torn_write_is_neither_old_nor_new :
  let old := [Sample.entry "r1"; Sample.entry "r2"] in
  let w := {| logFile := Holds old; trace := [] |} in
  let e := Sample.failure "ENOSPC: no space left on device, write" in
  let w' := snd (appendVersionLog (WriteFailsMidway e) (Sample.entry "r3") w) in
  logFile w' <> Holds old
  /\ logFile w' <> Holds (old ++ [Sample.entry "r3"])
  /\ entriesOf (logFile w') = [].
Proof. cbv zeta. by repeat split. Qed.

(** ** Revert *)

Lemma getRevisionContent_run (env : Services) (revisionId : jsstring)
    (w : World) :
  exists o w1,
    getRevisionContent env revisionId w = (o, w1)
    /\ logFile w1 = logFile w
    /\ (exists t, trace w1 = trace w ++ t)
    /\ forall c, o <> Exited c.
Proof.
  unfold getRevisionContent, initializeDriveClient. rewrite bind_run.
  unfold settle. destruct (drive_client env) as [e|[]] eqn:Hdrive.
  { eexists _, _. split; [reflexivity|]. split; [done|].
    split; [exists []; by rewrite app_nil_r | done]. }
  rewrite bind_run. unfold tryCatch. rewrite bind_run, call_run.
  destruct (revisions_get env revisionId) as [e|[s|]]; cbv beta iota.
  2: { eexists _, _. split; [reflexivity|]. split; [done|].
       split; [by eexists | done]. }
  all: unfold mret, M_ret, ret; cbv beta iota;
    rewrite getResumeText_run, Hdrive;
    eexists _, _; (split; [reflexivity|]); (split; [done|]);
    (split; [cbn; rewrite <- app_assoc; by eexists|]);
    by destruct (files_export env) as [?|[?|]].
Qed.

Lemma updateResumeText_run (env : Services) (text : jsstring) (w : World) :
  exists o w1,
    updateResumeText env text w = (o, w1)
    /\ logFile w1 = logFile w
    /\ (forall c, o <> Exited c)
    /\ (o = Ok tt ->
        exists deletion,
          trace w1
          = trace w ++ [DocsGet; DocsBatchUpdate (deletion ++ [InsertText 1 text])]).
Proof.
  unfold updateResumeText, initializeDocsClient. rewrite bind_run.
  unfold settle. destruct (docs_client env) as [e|[]].
  { eexists _, _. split; [reflexivity|]. by repeat split. }
  rewrite bind_run, call_run.
  destruct (documents_get env) as [e|[content|]];
    try (eexists _, _; split; [reflexivity|]; by repeat split).
  rewrite bind_run, call_run.
  match goal with
  | |- context [documents_batchUpdate env (?d ++ _)] => set (deletion := d)
  end.
  destruct (documents_batchUpdate env _) as [e|replies].
  - eexists _, _. split; [reflexivity|]. by repeat split.
  - eexists _, _. split; [reflexivity|]. split; [done|]. split; [done|].
    intros _. exists deletion. cbn. by rewrite <- app_assoc.
Qed.

(** C4. A revert that completes found its target in a non-empty log,
    and leaves the log with every old entry in its place followed by
    exactly one new entry: a revert entry that carries the id of the
    latest revision listed after the overwrite and one change line
    naming the revision id of the target. *)
Theorem revert_appends_one_entry (env : Services) (args : list jsstring)
    (w w' : World) :
  handleRevert env args w = (Ok tt, w') ->
  let old := entriesOf (logFile w) in
  exists (revertArg : jsstring) (targetEntry : VersionLogEntry)
         (latestRevision : Revision) (added : VersionLogEntry),
    firstPlainArg args = Some revertArg
    /\ targetOf revertArg old = Some targetEntry
    /\ latestListed env = Some latestRevision
    /\ logFile w = Holds old
    /\ logFile w' = Holds (old ++ [added])
    /\ added = revertEntry latestRevision targetEntry
    /\ (forall i e, old !! i = Some e -> (old ++ [added]) !! i = Some e)
    /\ length (old ++ [added]) = S (length old)
    /\ (old ++ [added]) !! length old = Some added
    /\ isRevert added = true
    /\ revisionId added = id latestRevision
    /\ timestamp added = modifiedTime latestRevision
    /\ Types.changes added
       = [lit "Reverted to revision " ++ revisionId targetEntry]
    /\ (exists pre deletion content,
          trace w'
          = trace w ++ pre
            ++ [DocsGet;
                DocsBatchUpdate (deletion ++ [InsertText 1 content]);
                DriveRevisionsList]).
Proof.
  unfold handleRevert. cbv zeta.
  destruct (firstPlainArg args) as [revertArg|] eqn:Harg; [|done].
  destruct (truthy (Some revertArg)) eqn:Htruthy; [|done]. cbv iota.
  rewrite bind_run, readVersionLog_run.
  destruct (targetOf revertArg (entriesOf (logFile w))) as [targetEntry|]
    eqn:Htarget; [|done].
  rewrite bind_run.
  destruct (getRevisionContent_run env (revisionId targetEntry) w)
    as (o1 & w1 & -> & Hf1 & [t1 Ht1] & _).
  destruct o1 as [oldContent|e|c]; [|done|done].
  rewrite bind_run.
  destruct (updateResumeText_run env oldContent w1)
    as (o2 & w2 & -> & Hf2 & _ & Ht2).
  destruct o2 as [[]|e|c]; [|done|done].
  destruct (Ht2 eq_refl) as [deletion Ht2']. clear Ht2.
  rewrite bind_run, getRevisions_run. unfold latestListed.
  destruct (drive_client env) as [e|[]]; [done|].
  destruct (revisions_list env) as [e|[revisions|]]; [done| |done].
  destruct (last (map toRevision revisions)) as [latestRevision|]; [|done].
  rewrite appendVersionLog_run, writeVersionLog_run.
  cbn [addTrace logFile trace]. rewrite Hf2, Hf1.
  destruct (fs_write env); [|done|done].
  intros [= <-]. cbv zeta.
  assert (logFile w = Holds (entriesOf (logFile w))) as Hholds.
  { destruct (logFile w) as [|entries|entries]; [|done|].
    all: cbn in Htarget; unfold targetOf in Htarget;
      destruct (isIndex _ _) eqn:Hidx; [|done];
      unfold isIndex in Hidx; destruct (parseInt revertArg); [|done];
      cbn in Hidx; apply andb_true_iff in Hidx as [?%Z.leb_le ?%Z.ltb_lt];
      lia. }
  eexists revertArg, targetEntry, latestRevision, _.
  split; [done|]. split; [done|]. split; [done|]. split; [done|].
  split; [reflexivity|]. split; [reflexivity|]. split.
  { intros i e Hi. by apply lookup_app_l_Some. }
  split; [rewrite length_app; cbn; lia|].
  split; [by rewrite list_lookup_middle|].
  do 4 (split; [done|]).
  exists t1, deletion, oldContent. cbn [setFile addTrace trace].
  rewrite Ht2', Ht1, <- !app_assoc. done.
Qed.

(** ** Tag *)

Lemma targetIndexOf_lookup (arg : jsstring) (entries : list VersionLogEntry)
    (i : nat) (e : VersionLogEntry) :
  targetIndexOf arg entries = Some (i, e) -> entries !! i = Some e.
Proof.
  unfold targetIndexOf. destruct (isIndex _ _).
  - destruct (entries !! Z.to_nat (default 0 (parseInt arg))) eqn:H;
      [|done]. cbn. by intros [= <- <-].
  - intros H. by apply list_find_Some in H as (? & _).
Qed.

Lemma handleTag_not_found (env : Services) (args : list jsstring) (w : World) :
  (forall tagArg, firstPlainArg args = Some tagArg -> tagArg <> [] ->
     targetIndexOf tagArg (entriesOf (logFile w)) = None) ->
  exists line,
    handleTag env args w = (Exited 1, addTrace (ConsoleError line) w)
    /\ (truthy (flagValue args "--company")
          || truthy (flagValue args "--job-title")
          || truthy (flagValue args "--url") = true ->
        truthy (firstPlainArg args) = true -> line = versionNotFound).
Proof.
  intros Hnone. unfold handleTag. cbv zeta.
  destruct (firstPlainArg args) as [[|c tagArg]|]; cbn [truthy].
  1,3: eexists; split; [reflexivity|]; by intros _ ?.
  specialize (Hnone (c :: tagArg) eq_refl).
  destruct (truthy (flagValue args "--company"));
    destruct (truthy (flagValue args "--job-title"));
    destruct (truthy (flagValue args "--url")); cbn [negb andb orb];
    rewrite ?bind_run, ?readVersionLog_run, ?Hnone by done;
    eexists; (split; [reflexivity|]); done.
Qed.

(** Every run of [handleTag] either gives up with one printed line and
    exit status 1, or writes the sequence with its target patched. *)
Lemma handleTag_cases (env : Services) (args : list jsstring) (w : World) :
  (exists line,
     handleTag env args w = (Exited 1, addTrace (ConsoleError line) w))
  \/ (exists tagArg i target,
        firstPlainArg args = Some tagArg
        /\ tagArg <> []
        /\ targetIndexOf tagArg (entriesOf (logFile w)) = Some (i, target)
        /\ handleTag env args w
           = writeVersionLog (fs_write env)
               (<[i := tagged target (flagValue args "--company")
                              (flagValue args "--job-title")
                              (flagValue args "--url")]>
                  (entriesOf (logFile w))) w).
Proof.
  destruct (firstPlainArg args) as [[|c tagArg]|] eqn:Harg.
  1,3: left; destruct (handleTag_not_found env args w) as (line & Hrun & _);
    [intros tagArg' Harg'; rewrite Harg in Harg'; by simplify_eq
    |by exists line].
  destruct (truthy (flagValue args "--company")
            || truthy (flagValue args "--job-title")
            || truthy (flagValue args "--url")) eqn:Hflags.
  - destruct (targetIndexOf (c :: tagArg) (entriesOf (logFile w)))
      as [[i target]|] eqn:Htarget.
    + right. exists (c :: tagArg), i, target. split; [done|]. split; [done|].
      split; [done|]. by apply (handleTag_found env args w (c :: tagArg)).
    + left. destruct (handleTag_not_found env args w) as (line & Hrun & _).
      * intros tagArg' Harg' _. rewrite Harg in Harg'.
        by injection Harg' as <-.
      * by exists line.
  - left. unfold handleTag. rewrite Harg. cbn [truthy].
    apply orb_false_iff in Hflags as [[-> ->]%orb_false_iff ->].
    cbn [negb andb]. by eexists.
Qed.

(** C6, as the code has it.  When the target is found, the sequence
    that [handleTag] writes is the old one with the target replaced
    by a copy that differs at most in [company], [jobTitle] and
    [jobUrl]: its [revisionId], [timestamp], [changes] and [isRevert]
    are those of the target, and every other position holds what it
    held.  What the file then holds depends on how the write ends:
    that sequence when the write completes; what it held when the
    file cannot be opened; and a torn text, which reads back as an
    empty history, when the write breaks off part-way, the command
    throwing in the last two cases.  When no target is found the
    command prints the not-found line, exits with 1 and leaves the
    log file as it was.  Whatever the arguments, a run leaves the log
    file as it was, or torn by a write that broke off, or holding a
    sequence of the same length in which every entry has kept its
    [revisionId], [timestamp], [changes] and [isRevert] and at most
    one position has changed. *)
Theorem tag_rewrites_only_tags (env : Services) (args : list jsstring)
    (w : World) :
  let old := entriesOf (logFile w) in
  let (o, w') := handleTag env args w in
  (forall tagArg i target,
     firstPlainArg args = Some tagArg ->
     tagArg <> [] ->
     truthy (flagValue args "--company")
       || truthy (flagValue args "--job-title")
       || truthy (flagValue args "--url") = true ->
     targetIndexOf tagArg old = Some (i, target) ->
     exists patched,
       old !! i = Some target
       /\ (<[i := patched]> old) !! i = Some patched
       /\ revisionId patched = revisionId target
       /\ timestamp patched = timestamp target
       /\ Types.changes patched = Types.changes target
       /\ isRevert patched = isRevert target
       /\ company patched
          = (if truthy (flagValue args "--company")
             then flagValue args "--company" else company target)
       /\ jobTitle patched
          = (if truthy (flagValue args "--job-title")
             then flagValue args "--job-title" else jobTitle target)
       /\ jobUrl patched
          = (if truthy (flagValue args "--url")
             then flagValue args "--url" else jobUrl target)
       /\ length (<[i := patched]> old) = length old
       /\ (forall j, j <> i -> (<[i := patched]> old) !! j = old !! j)
       /\ match fs_write env with
          | WriteCompletes =>
              o = Ok tt /\ logFile w' = Holds (<[i := patched]> old)
          | WriteFailsAtOpen e =>
              o = Threw e /\ logFile w' = logFile w
          | WriteFailsMidway e =>
              o = Threw e
              /\ logFile w' = Torn (<[i := patched]> old)
              /\ entriesOf (logFile w') = []
          end)
  /\ ((forall tagArg, firstPlainArg args = Some tagArg -> tagArg <> [] ->
         targetIndexOf tagArg old = None) ->
      o = Exited 1
      /\ logFile w' = logFile w
      /\ (truthy (flagValue args "--company")
            || truthy (flagValue args "--job-title")
            || truthy (flagValue args "--url") = true ->
          truthy (firstPlainArg args) = true ->
          trace w' = trace w ++ [ConsoleError versionNotFound]))
  /\ (logFile w' = logFile w
      \/ (exists e entries,
            fs_write env = WriteFailsMidway e
            /\ o = Threw e
            /\ logFile w' = Torn entries)
      \/ (fs_write env = WriteCompletes
          /\ o = Ok tt
          /\ exists new,
               logFile w' = Holds new
               /\ length new = length old
               /\ (forall j e, old !! j = Some e ->
                     exists e', new !! j = Some e'
                                /\ revisionId e' = revisionId e
                                /\ timestamp e' = timestamp e
                                /\ Types.changes e' = Types.changes e
                                /\ isRevert e' = isRevert e)
               /\ (exists i, forall j, j <> i -> new !! j = old !! j))).
Proof.
  cbv zeta. destruct (handleTag env args w) as [o w'] eqn:Hrun.
  split; [|split].
  - intros tagArg i target Harg Hne Hflags Htarget.
    rewrite (handleTag_found env args w tagArg i target) in Hrun by done.
    rewrite writeVersionLog_run in Hrun.
    pose proof (targetIndexOf_lookup _ _ _ _ Htarget) as Hi.
    exists (tagged target (flagValue args "--company")
                   (flagValue args "--job-title") (flagValue args "--url")).
    split; [done|].
    split; [apply list_lookup_insert_eq; by eapply lookup_lt_Some|].
    do 7 (split; [done|]). split; [apply length_insert|].
    split; [intros j Hj; by apply list_lookup_insert_ne|].
    destruct (fs_write env); by injection Hrun as <- <-.
  - intros Hnone.
    destruct (handleTag_not_found env args w Hnone) as (line & Hrun' & Hline).
    rewrite Hrun' in Hrun. injection Hrun as <- <-.
    split; [done|]. split; [done|]. intros Hflags Harg.
    by rewrite (Hline Hflags Harg).
  - destruct (handleTag_cases env args w)
      as [[line Hrun'] | (tagArg & i & target & _ & _ & Htarget & Hrun')];
      rewrite Hrun' in Hrun.
    + injection Hrun as <- <-. by left.
    + rewrite writeVersionLog_run in Hrun.
      pose proof (targetIndexOf_lookup _ _ _ _ Htarget) as Hi.
      destruct (fs_write env) as [|e|e]; injection Hrun as <- <-.
      * right. right. split; [done|]. split; [done|].
        eexists. split; [reflexivity|].
        split; [apply length_insert|]. split.
        -- intros j e Hj. destruct (decide (j = i)) as [->|Hneq].
           ++ rewrite list_lookup_insert_eq by by eapply lookup_lt_Some.
              rewrite Hi in Hj. injection Hj as <-. by eexists.
           ++ rewrite list_lookup_insert_ne by done. by eauto 6.
        -- exists i. intros j Hj. by apply list_lookup_insert_ne.
      * by left.
      * right. left. by eexists _, _.
Qed.

(** [tag --company Acme] on a log whose second entry has the revision
    id [tag]: that entry is the target and only its company changes. *)
Lemma tag_rewrites_only_tags_witness :
  let old := [Sample.entry "r1"; Sample.entry "tag"] in
  let w := {| logFile := Holds old; trace := [] |} in
  let args := [lit "tag"; lit "--company"; lit "Acme"] in
  firstPlainArg args = Some (lit "tag")
  /\ targetIndexOf (lit "tag") old = Some (1%nat, Sample.entry "tag")
  /\ fs_write Sample.services = WriteCompletes
  /\ exists patched,
       handleTag Sample.services args w
       = (Ok tt, {| logFile := Holds [Sample.entry "r1"; patched];
                    trace := [] |})
       /\ company patched = Some (lit "Acme")
       /\ revisionId patched = lit "tag"
       /\ timestamp patched = timestamp (Sample.entry "tag")
       /\ Types.changes patched = Types.changes (Sample.entry "tag")
       /\ isRevert patched = false.
Proof.
  cbv zeta. split; [reflexivity|]. split; [reflexivity|].
  split; [reflexivity|].
  pose proof (tag_rewrites_only_tags Sample.services
                [lit "tag"; lit "--company"; lit "Acme"]
                {| logFile := Holds [Sample.entry "r1"; Sample.entry "tag"];
                   trace := [] |}) as H.
  cbv zeta in H.
  destruct (handleTag _ _ _) as [o w'] eqn:Hrun.
  destruct H as (Hfound & _ & _).
  destruct (Hfound (lit "tag") 1%nat (Sample.entry "tag")
              eq_refl ltac:(done) eq_refl eq_refl)
    as (patched & _ & _ & Hid & Htime & Hchanges & Hrevert
        & Hcompany & _ & _ & _ & _ & Hwrite).
  cbn in Hwrite. destruct Hwrite as [Ho Hfile].
  exists patched. split.
  - vm_compute in Hrun. injection Hrun as <- <-.
    vm_compute in Hfile. by injection Hfile as <-.
  - by repeat split.
Defined.

(** C6 as stated fails: the selector resolves to the second entry, the
    write of the file breaks off part-way, and the first entry, which
    the tag was to leave unchanged, is no longer in the log that is
    read back. *)
Lemma tag_with_a_torn_write_loses_the_log :
  let old := [Sample.entry "r1"; Sample.entry "tag"] in
  let w := {| logFile := Holds old; trace := [] |} in
  let args := [lit "tag"; lit "--company"; lit "Acme"] in
  let e := Sample.failure "ENOSPC: no space left on device, write" in
  let run := handleTag (Sample.withWrite (WriteFailsMidway e)) args w in
  targetIndexOf (lit "tag") old = Some (1%nat, Sample.entry "tag")
  /\ fst run = Threw e
  /\ old !! 0%nat = Some (Sample.entry "r1")
  /\ entriesOf (logFile (snd run)) !! 0%nat = None
  /\ entriesOf (logFile (snd run)) = [].
Proof. cbv zeta. by repeat split. Qed.

(** The command word is the token: [tag --company Acme] run on a log
    whose second entry has the revision id [tag] patches that entry. *)
Example tag_example :
  let w := {| logFile := Holds [Sample.entry "r1"; Sample.entry "tag"];
              trace := [] |} in
  let args := [lit "tag"; lit "--company"; lit "Acme"] in
  let (o, w') := handleTag Sample.services args w in
  o = Ok tt
  /\ entriesOf (logFile w')
     = [Sample.entry "r1";
        {| revisionId := lit "tag";
           timestamp := timestamp (Sample.entry "tag");
           jobTitle := None;
           company := Some (lit "Acme");
           jobUrl := None;
           Types.changes := Types.changes (Sample.entry "tag");
           isRevert := false |}].
Proof. by vm_compute. Qed.

(** ** Selecting the target of revert, tag and export *)

(** The block "Try as index first": a token whose integer prefix is a
    position of the log selects the entry at that position. *)
Lemma target_index_first (arg : jsstring) (entries : list VersionLogEntry)
    (index : Z) :
  parseInt arg = Some index ->
  0 <= index < Z.of_nat (length entries) ->
  targetOf arg entries = entries !! Z.to_nat index
  /\ targetIndexOf arg entries
     = (fun e => (Z.to_nat index, e)) <$> entries !! Z.to_nat index.
Proof.
  intros Hparse Hrange. unfold targetOf, targetIndexOf, isIndex.
  rewrite Hparse. cbn [default].
  destruct (Z.leb_spec 0 index); [|lia].
  destruct (Z.ltb_spec index (Z.of_nat (length entries))); [|lia].
  done.
Qed.

(** The block "Try as revision ID" is reached only otherwise. *)
Lemma target_by_revision_id (arg : jsstring) (entries : list VersionLogEntry) :
  isIndex (parseInt arg) entries = false ->
  targetOf arg entries
  = snd <$> list_find (fun e => revisionId e = arg) entries
  /\ targetIndexOf arg entries
     = list_find (fun e => revisionId e = arg) entries.
Proof.
  intros H. unfold targetOf, targetIndexOf. by rewrite H.
Qed.

Lemma firstPlainArg_head (word : jsstring) (rest : list jsstring) :
  startsWith word (lit "--") = false ->
  firstPlainArg (word :: rest) = Some word.
Proof.
  intros H. unfold firstPlainArg. cbn. by rewrite decide_True.
Qed.

(** [main] reads the command word at [process.argv[2]] and the
    handlers read [process.argv.slice(2)]: the word comes first. *)
Lemma firstPlainArg_argv (argv : list jsstring) (word : jsstring) :
  argv !! 2%nat = Some word ->
  startsWith word (lit "--") = false ->
  firstPlainArg (drop 2 argv) = Some word.
Proof.
  intros Hword Hplain. rewrite (drop_S argv word 2 Hword).
  by apply firstPlainArg_head.
Qed.

(** C10 on the commands as [main] starts them.  [main] runs a handler
    when [process.argv[2]] is its command word, and the handler looks
    for the selector in [process.argv.slice(2)], whose first element is
    that word: the word is the token, whatever follows it.  With a log
    of three entries, [revert 2abc123], [tag 2abc123 --company Acme]
    and [export 2abc123] all end with the not-found line and exit
    status 1, although the block that resolves a token would select
    the entry at position 2 for the token [2abc123]. *)
Theorem command_word_is_the_selector :
  let entries :=
    [Sample.entry "2abc123"; Sample.entry "r1"; Sample.entry "r2"] in
  let w := {| logFile := Holds entries; trace := [] |} in
  let w' := addTrace (ConsoleError versionNotFound) w in
  let argv (command : list jsstring) : list jsstring :=
    [lit "node"; lit "src/main.ts"] ++ command in
  targetOf (lit "2abc123") entries = Some (Sample.entry "r2")
  /\ targetIndexOf (lit "2abc123") entries = Some (2%nat, Sample.entry "r2")
  /\ handleRevert Sample.services
       (drop 2 (argv [lit "revert"; lit "2abc123"])) w
     = (Exited 1, w')
  /\ handleTag Sample.services
       (drop 2 (argv [lit "tag"; lit "2abc123"; lit "--company"; lit "Acme"]))
       w
     = (Exited 1, w')
  /\ handleExport_target (drop 2 (argv [lit "export"; lit "2abc123"])) w
     = (Exited 1, w')
  /\ (forall process_argv : list jsstring,
        (process_argv !! 2%nat = Some (lit "revert") ->
         firstPlainArg (drop 2 process_argv) = Some (lit "revert"))
        /\ (process_argv !! 2%nat = Some (lit "tag") ->
            firstPlainArg (drop 2 process_argv) = Some (lit "tag"))
        /\ (process_argv !! 2%nat = Some (lit "export") ->
            firstPlainArg (drop 2 process_argv) = Some (lit "export")))
  /\ parseInt (lit "revert") = None
  /\ parseInt (lit "tag") = None
  /\ parseInt (lit "export") = None.
Proof.
  cbv zeta. repeat split; try by vm_compute.
  all: intros H; by apply firstPlainArg_argv.
Qed.

(** ** Listing and reconciliation *)

Lemma map_filter_comm {A B} (f : A -> B) (P : B -> Prop)
    `{!forall y, Decision (P y)} (l : list A) :
  map f (filter (fun x => P (f x)) l) = filter P (map f l).
Proof.
  induction l as [|x l IH]; [done|]. cbn [map].
  rewrite !filter_cons. destruct (decide (P (f x))); cbn [map]; by rewrite IH.
Qed.

Lemma filter_ext_elem {A} (P Q : A -> Prop) `{!forall x, Decision (P x)}
    `{!forall x, Decision (Q x)} (l : list A) :
  (forall x, x ∈ l -> (P x <-> Q x)) -> filter P l = filter Q l.
Proof.
  induction l as [|x l IH]; intros Hall; [done|].
  rewrite !filter_cons.
  assert (P x <-> Q x) as Hx by (apply Hall; left).
  assert (filter P l = filter Q l) as ->
    by (apply IH; intros y Hy; apply Hall; by right).
  destruct (decide (P x)), (decide (Q x)); tauto.
Qed.

Lemma handleList_run (env : Services) (w : World)
    (listed : option (list RawRevision)) :
  drive_client env = inr tt ->
  revisions_list env = inr listed ->
  let remote := map id (map toRevision (default [] listed)) in
  let localIds := map revisionId (entriesOf (logFile w)) in
  handleList env w
  = (Ok (filter (fun x => (x ∉ localIds) /\ Some x <> head remote) remote,
         extraOf localIds remote),
     addTrace DriveRevisionsList w).
Proof.
  intros Hdrive Hlist. cbv zeta. unfold handleList.
  rewrite bind_run, getRevisions_run, Hdrive, Hlist.
  replace (match listed with
           | Some revisions => Ok (map toRevision revisions)
           | None => Ok []
           end) with (Ok (A:=list Revision) (map toRevision (default [] listed)))
    by by destruct listed.
  cbv beta iota. rewrite bind_run, readVersionLog_run. cbv beta iota.
  rewrite bind_run, readVersionLog_run. cbv beta iota. unfold_M.
  cbn [addTrace logFile]. do 2 f_equal. f_equal.
  - rewrite <- (map_filter_comm id
                  (fun x => (x ∉ map revisionId (entriesOf (logFile w)))
                            /\ Some x <> head (map id (map toRevision
                                                        (default [] listed))))).
    f_equal. apply list_filter_iff. intros rev.
    rewrite list_find_None, Forall_forall, list_elem_of_fmap.
    assert (id <$> head (map toRevision (default [] listed))
            = head (map id (map toRevision (default [] listed)))) as ->
      by by destruct (map toRevision (default [] listed)).
    split.
    + intros [Hnone Hhead]. split; [|done].
      intros (e & He & Hin). by apply (Hnone e Hin).
    + intros [Hnone Hhead]. split; [|done].
      intros e Hin He. apply Hnone. by exists e.
  - unfold extraOf.
    rewrite <- (map_filter_comm revisionId
                  (fun x => x ∉ map id (map toRevision (default [] listed)))).
    f_equal. apply list_filter_iff. intros entry.
    by rewrite not_elem_of_list_to_set.
Qed.

(** C5. When the revisions can be listed, [handleList] computes
    [extra] as the local revision ids that no remote revision has and
    [missing] as the remote ids that no local entry has and that are
    not the id of the oldest revision; when the remote ids are
    distinct this is the list of the design document, the remote
    revisions after the oldest with no local entry.  The log file is
    left as it was and no request that changes the document is made. *)
Theorem list_reports_divergence (env : Services) (w : World)
    (listed : option (list RawRevision)) :
  drive_client env = inr tt ->
  revisions_list env = inr listed ->
  let remote := map id (map toRevision (default [] listed)) in
  let localIds := map revisionId (entriesOf (logFile w)) in
  exists missing extra w',
    handleList env w = (Ok (missing, extra), w')
    /\ extra = extraOf localIds remote
    /\ (forall x, x ∈ extra <-> x ∈ localIds /\ (x ∉ remote))
    /\ (forall x, x ∈ missing <->
                  x ∈ remote /\ (x ∉ localIds) /\ Some x <> head remote)
    /\ (NoDup remote -> missing = missingOf localIds remote)
    /\ logFile w' = logFile w
    /\ docMutations (trace w') = docMutations (trace w).
Proof.
  intros Hdrive Hlist. cbv zeta.
  rewrite (handleList_run env w listed Hdrive Hlist).
  eexists _, _, _. split; [reflexivity|]. split; [done|].
  split; [|split; [|split; [|split]]].
  - intros x. unfold extraOf. rewrite list_elem_of_filter. tauto.
  - intros x. rewrite list_elem_of_filter. tauto.
  - unfold missingOf.
    destruct (map id (map toRevision (default [] listed))) as [|r0 rest];
      [done|].
    intros [Hr0 _]%NoDup_cons. cbn [head tail].
    rewrite filter_cons_False by (intros [_ H]; by apply H).
    apply filter_ext_elem. intros x Hx. split; [by intros [? _]|].
    intros Hnot. split; [done|]. intros [= ->]. by apply Hr0.
  - done.
  - cbn. by rewrite docMutations_snoc, app_nil_r.
Qed.

(** The example of the design document: local ids r1, r2 and remote
    ids r0 (the baseline), r1, r2, r3 give [missing] = r3 and an empty
    [extra]. *)
Lemma list_reports_divergence_witness :
  drive_client Sample.services = inr tt
  /\ revisions_list Sample.services
  = inr (Some [Sample.revision "r0"; Sample.revision "r1";
               Sample.revision "r2"; Sample.revision "r3"])
  /\ map revisionId (entriesOf (logFile Sample.world)) = [lit "r1"; lit "r2"]
  /\ exists missing extra w',
       handleList Sample.services Sample.world = (Ok (missing, extra), w')
       /\ missing = [lit "r3"]
       /\ extra = []
       /\ logFile w' = logFile Sample.world.
Proof.
  split; [reflexivity|]. split; [reflexivity|]. split; [reflexivity|].
  destruct (list_reports_divergence Sample.services Sample.world _
              eq_refl eq_refl)
    as (missing & extra & w' & Hrun & Hextra & _ & _ & Hmissing & Hfile & _).
  exists missing, extra, w'. split; [exact Hrun|].
  split; [|split; [|exact Hfile]].
  - rewrite Hmissing; [reflexivity|]. vm_compute.
    repeat (constructor; [rewrite ?elem_of_cons, ?elem_of_nil; intuition discriminate|]).
    constructor.
  - rewrite Hextra. reflexivity.
Defined.

(** ** Batch runs *)

Section Steady.

Lemma steady_ret {A} (a : A) : steady (mret a : M A).
Proof. by intros w1 w2. Qed.

Lemma steady_throw {A} (e : Error) : steady (throw e : M A).
Proof. by intros w1 w2. Qed.

Lemma steady_call {A} (ev : Effect) (answer : Answer A) :
  steady (call ev answer).
Proof. intros w1 w2. by rewrite !call_run. Qed.

Lemma steady_settle {A} (answer : Answer A) : steady (settle answer).
Proof. intros w1 w2. unfold settle. by destruct answer. Qed.

Lemma steady_bind {A B} (m : M A) (k : A -> M B) :
  steady m -> (forall a, steady (k a)) -> steady (m ≫= k).
Proof.
  intros Hm Hk w1 w2. rewrite !bind_run. specialize (Hm w1 w2).
  destruct (m w1) as [[a1|e1|c1] w1'], (m w2) as [[a2|e2|c2] w2'];
    cbn in Hm; simplify_eq; cbn; try done; apply Hk.
Qed.

Lemma steady_tryCatch {A} (m : M A) (handler : Error -> M A) :
  steady m -> (forall e, steady (handler e)) -> steady (tryCatch m handler).
Proof.
  intros Hm Hh w1 w2. unfold tryCatch. specialize (Hm w1 w2).
  destruct (m w1) as [[a1|e1|c1] w1'], (m w2) as [[a2|e2|c2] w2'];
    cbn in Hm; simplify_eq; cbn; try done; apply Hh.
Qed.

Lemma steady_attemptsFrom (post : nat -> Attempt) (remaining attempt : nat)
    (lastError : option Error) :
  steady (attemptsFrom post remaining attempt lastError).
Proof.
  revert attempt lastError.
  induction remaining as [|remaining IH]; intros attempt lastError;
    cbn [attemptsFrom]; [apply steady_throw|].
  apply steady_tryCatch; [apply steady_call|]. intros e.
  destruct (onAttemptError attempt e); [apply steady_throw|].
  apply steady_bind; [apply steady_call | intros _; apply IH].
Qed.

Lemma steady_getResumeReplacements (post : nat -> Attempt) (T : jsstring) :
  steady (getResumeReplacements post T).
Proof.
  apply steady_bind; [apply steady_attemptsFrom | intros; apply steady_ret].
Qed.

Lemma steady_getResumeText (env : Services) : steady (getResumeText env).
Proof.
  apply steady_bind; [apply steady_settle|]. intros _.
  apply steady_bind; [apply steady_call|].
  intros [s|]; [apply steady_ret | apply steady_throw].
Qed.

Lemma steady_applyWordReplacements (env : Services)
    (rs : list ReplacementItem) :
  steady (applyWordReplacements env rs).
Proof.
  apply steady_bind; [apply steady_settle|]. intros _.
  cbv zeta. case_bool_decide; [apply steady_ret|].
  apply steady_bind; [apply steady_call | intros; apply steady_ret].
Qed.

Lemma steady_getRevisions (env : Services) : steady (getRevisions env).
Proof.
  apply steady_bind; [apply steady_settle|]. intros _.
  apply steady_bind; [apply steady_call|].
  intros [revisions|]; apply steady_ret.
Qed.

Lemma steady_appendVersionLog (outcome : WriteOutcome) (e : VersionLogEntry) :
  steady (appendVersionLog outcome e).
Proof.
  intros w1 w2. rewrite !appendVersionLog_run, !writeVersionLog_run.
  by destruct outcome.
Qed.

Lemma steady_performUpdate (env : Services) (jobDescription : jsstring)
    (jobUrl : option jsstring) (metadata : Metadata.t) (dryRun : bool) :
  steady (performUpdate env jobDescription jobUrl metadata dryRun).
Proof.
  apply steady_tryCatch; [|intros; apply steady_ret].
  apply steady_bind; [apply steady_getResumeText|]. intros text.
  apply steady_bind; [apply steady_getResumeReplacements|]. intros result.
  destruct dryRun; [apply steady_ret|].
  apply steady_bind; [apply steady_applyWordReplacements|]. intros _.
  apply steady_bind; [apply steady_getRevisions|]. intros revisions.
  destruct (last revisions); [|apply steady_throw].
  apply steady_bind; [apply steady_appendVersionLog|].
  intros; apply steady_ret.
Qed.

Lemma returns_performUpdate (env : Services) (jobDescription : jsstring)
    (jobUrl : option jsstring) (metadata : Metadata.t) (dryRun : bool) :
  returns (performUpdate env jobDescription jobUrl metadata dryRun).
Proof.
  intros w. unfold performUpdate, tryCatch.
  match goal with |- context [let (_, _) := ?m w in _] =>
    destruct (m w) as [[res|e|c] w'] eqn:Hrun end; [by eexists|by eexists|].
  exfalso. revert Hrun. rewrite bind_run, getResumeText_run.
  destruct (drive_client env) as [e|[]] eqn:Hdrive; [done|].
  destruct (files_export env) as [e|[text|]]; [done| |done].
  rewrite bind_run.
  pose proof (getResumeReplacements_frame (groq_post env) text
                (addTrace DriveFilesExport w)) as Hframe.
  destruct (getResumeReplacements _ _ _) as [[result|e|c'] w1];
    [|done|by destruct Hframe as (_ & _ & Hc); destruct (Hc c')].
  destruct dryRun; [done|]. rewrite bind_run.
  destruct (applyWordReplacements_run env (replacements result) w1)
    as (o & w2 & -> & _ & Hexit).
  destruct o as [n|e|c']; [|done|by destruct (Hexit c')].
  rewrite bind_run, getRevisions_run, Hdrive.
  destruct (revisions_list env) as [e|[revisions|]]; [done| |done].
  destruct (last (map toRevision revisions)); [|done].
  rewrite bind_run, appendVersionLog_run, writeVersionLog_run.
  by destruct (fs_write env).
Qed.

End Steady.

(** What [performUpdate] reports: success exactly when every step
    returned, and otherwise the message of what was thrown. *)
Lemma performUpdate_success (env : Services) (jobDescription : jsstring)
    (jobUrl : option jsstring) (metadata : Metadata.t) (dryRun : bool)
    (w : World) :
  exists r,
    fst (performUpdate env jobDescription jobUrl metadata dryRun w) = Ok r
    /\ (UpdateResult.success r = true <-> stepsReturn env dryRun w)
    /\ (UpdateResult.success r = false ->
        is_Some (UpdateResult.error r) /\ UpdateResult.revisionId r = None).
Proof.
  unfold performUpdate, stepsReturn, suggestStage, applyReturned, applyStage,
    latestListed, tryCatch.
  rewrite !bind_run, getResumeText_run.
  destruct (drive_client env) as [e|[]] eqn:Hdrive.
  { eexists. split; [reflexivity|]. split; [|by eauto]. cbn [fst].
    split; [done|]. destruct dryRun; [by intros [? ?]|by intros [[? ?] _]]. }
  destruct (files_export env) as [e|[text|]].
  1,3: eexists; (split; [reflexivity|]); (split; [|by eauto]); cbn [fst];
    (split; [done|]);
    destruct dryRun; [by intros [? ?]|by intros [[? ?] _]].
  rewrite !bind_run.
  pose proof (getResumeReplacements_frame (groq_post env) text
                (addTrace DriveFilesExport w)) as Hframe.
  destruct (getResumeReplacements (groq_post env) text
              (addTrace DriveFilesExport w)) as [[result|e|c] w1].
  3: by destruct Hframe as (_ & _ & Hc); destruct (Hc c).
  2: { eexists. split; [reflexivity|]. split; [|by eauto]. cbn [fst].
       split; [done|].
       destruct dryRun; [by intros [? ?]|by intros [[? ?] _]]. }
  clear Hframe. destruct dryRun.
  { eexists. split; [reflexivity|]. split; [|done]. cbn [fst].
    split; [by eauto|done]. }
  rewrite !bind_run.
  destruct (applyWordReplacements_run env (replacements result) w1)
    as (o & w2 & -> & _ & Hexit).
  destruct o as [appliedCount|e|c]; [| |by destruct (Hexit c)].
  2: { eexists. split; [reflexivity|]. split; [|by eauto]. cbn [fst].
       split; [done|]. by intros [[? ?] _]. }
  rewrite bind_run, getRevisions_run, Hdrive.
  destruct (revisions_list env) as [e|[revisions|]].
  1,3: eexists; (split; [reflexivity|]); (split; [|by eauto]); cbn [fst];
    (split; [done|]); by intros (_ & [? ?] & _).
  destruct (last (map toRevision revisions)) as [latestRevision|].
  2: { eexists. split; [reflexivity|]. split; [|by eauto]. cbn [fst].
       split; [done|]. by intros (_ & [? ?] & _). }
  rewrite bind_run, appendVersionLog_run, writeVersionLog_run.
  destruct (fs_write env) as [|e|e].
  - eexists. split; [reflexivity|]. split; [|done]. cbn [fst].
    split; [|done]. intros _. by eauto.
  - eexists. split; [reflexivity|]. split; [|by eauto]. cbn [fst].
    split; [done|]. by intros (_ & _ & ?).
  - eexists. split; [reflexivity|]. split; [|by eauto]. cbn [fst].
    split; [done|]. by intros (_ & _ & ?).
Qed.

Lemma steady_applyStage (env : Services) : steady (applyStage env).
Proof.
  apply steady_bind; [apply steady_getResumeText|]. intros text.
  apply steady_bind; [apply steady_getResumeReplacements|]. intros result.
  apply steady_bind; [apply steady_applyWordReplacements|].
  intros; apply steady_ret.
Qed.

Lemma steady_suggestStage (env : Services) : steady (suggestStage env).
Proof.
  apply steady_bind; [apply steady_getResumeText|]. intros text.
  apply steady_getResumeReplacements.
Qed.

Lemma stepsReturn_steady (env : Services) (dryRun : bool) (w1 w2 : World) :
  stepsReturn env dryRun w1 -> stepsReturn env dryRun w2.
Proof.
  unfold stepsReturn, applyReturned. destruct dryRun.
  - by rewrite (steady_suggestStage env w1 w2).
  - pose proof (steady_applyStage env w1 w2) as H.
    destruct (applyStage env w1) as [o1 ?], (applyStage env w2) as [o2 ?].
    cbn in H. by subst o2.
Qed.

(** The fetch of a job description either throws or returns, whatever
    the world, and touches neither the log nor the document. *)
Lemma fetchJobDescriptionFromUrl_run (env : Services) (url : jsstring) :
  exists o,
    (forall c, o <> Exited c)
    /\ forall w, exists w',
         fetchJobDescriptionFromUrl env url w = (o, w')
         /\ logFile w' = logFile w
         /\ docMutations (trace w') = docMutations (trace w).
Proof.
  unfold fetchJobDescriptionFromUrl.
  destruct (validUrl env url); cbn [negb].
  2: { eexists. split; [|intros w; by exists w]. done. }
  destruct (firecrawl_key env); cbn [negb].
  2: { eexists. split; [|intros w; by exists w]. done. }
  exists (match scrapeUrl env url with inl e => Threw e | inr a => Ok a end).
  split; [by destruct (scrapeUrl env url)|]. intros w. eexists.
  rewrite call_run. split; [reflexivity|]. cbn [addTrace logFile trace].
  by rewrite docMutations_snoc, app_nil_r.
Qed.

Lemma steady_fetchJobDescriptionFromUrl (env : Services) (url : jsstring) :
  steady (fetchJobDescriptionFromUrl env url).
Proof.
  intros w1 w2.
  destruct (fetchJobDescriptionFromUrl_run env url) as (o & _ & Hrun).
  destruct (Hrun w1) as (? & -> & _), (Hrun w2) as (? & -> & _). done.
Qed.

Section BatchFacts.

Variable envs : nat -> Services.
Variable getMetadata : jsstring -> option jsstring -> Metadata.t.
Variable dryRun : bool.








End BatchFacts.


(** An item whose URL is not a URL, and one run without the key of
    the scraping service: the fetch throws before any request, and
    the item is recorded as a failure with the message thrown. *)
Example failed_fetch_is_recorded :
  let noKey :=
    {| drive_client := drive_client Sample.services;
       docs_client := docs_client Sample.services;
       files_export := files_export Sample.services;
       revisions_get := revisions_get Sample.services;
       revisions_list := revisions_list Sample.services;
       documents_get := documents_get Sample.services;
       documents_batchUpdate := documents_batchUpdate Sample.services;
       groq_post := groq_post Sample.services;
       validUrl := validUrl Sample.services;
       firecrawl_key := false;
       scrapeUrl := scrapeUrl Sample.services;
       fs_write := fs_write Sample.services |} in
  let url := lit "https://a.example/1" in
  let run :=
    batchItem (fun _ => noKey) (fun _ _ => Sample.noTags) false 0 url
              Sample.world in
  BatchResult.success <$> (match fst run with Ok r => Some r | _ => None end)
  = Some false
  /\ snd run = Sample.world
  /\ exitStatus (fst (handleBatch (fun _ => noKey) (fun _ _ => Sample.noTags)
                                  false [url] Sample.world)) = 1.
Proof. by vm_compute. Qed.

(** A revert that completes.  The token is the first argument that is
    not a flag, here the command word, and the second entry of the log
    has it as revision id: that entry is the target, the document is
    overwritten with its content, and the entry of the new latest
    revision r3 is appended after the two old entries. *)
Lemma revert_appends_one_entry_witness :
  let old := [Sample.entry "r1"; Sample.entry "revert"] in
  let w := {| logFile := Holds old; trace := [] |} in
  let args := [lit "revert"; lit "0"] in
  let w' := snd (handleRevert Sample.services args w) in
  handleRevert Sample.services args w = (Ok tt, w')
  /\ exists (revertArg : jsstring) (targetEntry : VersionLogEntry)
            (latestRevision : Revision) (added : VersionLogEntry),
       firstPlainArg args = Some revertArg
       /\ targetOf revertArg old = Some targetEntry
       /\ latestListed Sample.services = Some latestRevision
       /\ logFile w = Holds old
       /\ logFile w' = Holds (old ++ [added])
       /\ added = revertEntry latestRevision targetEntry
       /\ (forall i e, old !! i = Some e -> (old ++ [added]) !! i = Some e)
       /\ length (old ++ [added]) = S (length old)
       /\ (old ++ [added]) !! length old = Some added
       /\ isRevert added = true
       /\ revisionId added = id latestRevision
       /\ timestamp added = modifiedTime latestRevision
       /\ Types.changes added
          = [lit "Reverted to revision " ++ revisionId targetEntry]
       /\ (exists pre deletion content,
             trace w'
             = trace w ++ pre
               ++ [DocsGet;
                   DocsBatchUpdate (deletion ++ [InsertText 1 content]);
                   DriveRevisionsList]).
Proof.
  cbv zeta. split; [by vm_compute|].
  apply (revert_appends_one_entry Sample.services
           [lit "revert"; lit "0"]
           {| logFile := Holds [Sample.entry "r1"; Sample.entry "revert"];
              trace := [] |}).
  by vm_compute.
Defined.

Example revert_example :
  let old := [Sample.entry "r1"; Sample.entry "revert"] in
  let w := {| logFile := Holds old; trace := [] |} in
  let (o, w') := handleRevert Sample.services [lit "revert"; lit "0"] w in
  o = Ok tt
  /\ entriesOf (logFile w')
     = old ++ [{| revisionId := lit "r3";
                  timestamp := lit "2025-02-02T00:00:00.000Z";
                  jobTitle := None;
                  company := None;
                  jobUrl := None;
                  Types.changes := [lit "Reverted to revision revert"];
                  isRevert := true |}]
  /\ trace w'
     = [DriveRevisionsGet (lit "revert"); DocsGet;
        DocsBatchUpdate [DeleteContentRange 1 34; InsertText 1 Sample.text];
        DriveRevisionsList].
Proof. by vm_compute. Qed.

(** ** Worked examples *)

Example includes_examples :
  includes (lit "Built two full-stack applications.") (lit "two full") = true
  /\ includes (lit "Built two") (lit "built") = false
  /\ includes (lit "Built two") (lit "") = true.
Proof. by vm_compute. Qed.

Example splitWs_examples :
  splitWs (lit " a  b ") = [lit ""; lit "a"; lit "b"; lit ""]
  /\ splitWs (lit "") = [lit ""]
  /\ wordCount (lit "Built two full-stack applications.") = 4
  /\ wordCount (lit "Built and scaled two full-stack AI applications.") = 7.
Proof. by vm_compute. Qed.

Example parseInt_examples :
  parseInt (lit "2abc123") = Some 2
  /\ parseInt (lit "abc") = None
  /\ parseInt (lit " 12") = Some 12
  /\ parseInt (lit "-1") = Some (-1)
  /\ parseInt (lit "revert") = None.
Proof. by vm_compute. Qed.

(** Scenario A: token counts 4 and 7, accepted. *)
Example scenario_A :
  validReplacements Sample.text [Sample.suggestion] = [Sample.suggestion].
Proof. by vm_compute. Qed.

(** Scenario B: an original that is not in the text is left out. *)
Example scenario_B :
  validReplacements (lit "Led a team of five.") [Sample.suggestion] = [].
Proof. by vm_compute. Qed.

(** Candidates whose originals overlap, and a repeated candidate, all
    stay, in the order given. *)
Example overlapping_candidates_stay :
  let inner : Suggestion :=
    {| item := {| original := lit "two full-stack";
                  replacement := lit "three full-stack" |};
       jd_alignment := None |} in
  validReplacements Sample.text [Sample.suggestion; inner; Sample.suggestion]
  = [Sample.suggestion; inner; Sample.suggestion].
Proof. by vm_compute. Qed.

(** The earlier copy of the filter lets a difference of 7 through,
    the current one does not. *)
Example bound_of_the_earlier_copy :
  let r := {| original := lit "a";
              replacement := lit "a b c d e f g h" |} in
  validWithin maxWordDelta_earlier (lit "a") r = true
  /\ validWithin maxWordDelta (lit "a") r = false.
Proof. by vm_compute. Qed.

(** Three parse failures: three attempts, the last error is thrown. *)
Example three_parse_failures :
  let e := Sample.failure "Unexpected end of JSON input" in
  getAlignmentSuggestions (fun _ => inl e) Sample.world
  = (Threw e,
     {| logFile := logFile Sample.world;
        trace := [GroqPost 1; Sleep 1000; GroqPost 2; Sleep 2000;
                  GroqPost 3] |}).
Proof. by vm_compute. Qed.

(** An API error answer on the second attempt is thrown at once. *)
Example api_error_is_not_retried :
  let post (attempt : nat) : Attempt :=
    match attempt with
    | 1%nat => inl (Sample.failure "Unexpected end of JSON input")
    | _ => inl (Sample.apiFailure 401 "Invalid API Key")
    end in
  getAlignmentSuggestions post Sample.world
  = (Threw (newError (lit "Groq API Error 401: Invalid API Key")),
     {| logFile := logFile Sample.world;
        trace := [GroqPost 1; Sleep 1000; GroqPost 2] |}).
Proof. by vm_compute. Qed.

(** An error whose message mentions neither JSON nor parse is thrown
    at the first attempt. *)
Example other_error_is_not_retried :
  let e := Sample.failure "Invalid response format from Groq API" in
  getAlignmentSuggestions (fun _ => inl e) Sample.world
  = (Threw e,
     {| logFile := logFile Sample.world; trace := [GroqPost 1] |}).
Proof. by vm_compute. Qed.

(** A dry run asks for the text and the suggestions and stops. *)
Example dry_run_example :
  performUpdate Sample.services (lit "# Engineer") None Sample.noTags true
                Sample.world
  = (Ok {| UpdateResult.success := true;
           UpdateResult.revisionId := None;
           UpdateResult.error := None |},
     {| logFile := logFile Sample.world;
        trace := [DriveFilesExport; GroqPost 1] |}).
Proof. by vm_compute. Qed.

(** An update whose only candidate is rejected applies nothing, and
    still logs one entry for the latest revision. *)
Example empty_update_is_logged :
  let env :=
    Sample.withGroq
      (fun _ => inr {| suggested :=
                         [{| item := {| original := lit "Led a team";
                                        replacement := lit "Managed a team" |};
                             jd_alignment := None |}];
                       summary := [lit "Nothing to align"] |}) in
  let (o, w') :=
    performUpdate env (lit "# Engineer") None Sample.noTags false
                  Sample.world in
  o = Ok {| UpdateResult.success := true;
            UpdateResult.revisionId := Some (lit "r3");
            UpdateResult.error := None |}
  /\ trace w' = [DriveFilesExport; GroqPost 1; DriveRevisionsList]
  /\ entriesOf (logFile w')
     = entriesOf (logFile Sample.world)
       ++ [{| revisionId := lit "r3";
              timestamp := lit "2025-02-02T00:00:00.000Z";
              jobTitle := None;
              company := None;
              jobUrl := None;
              Types.changes := [lit "Nothing to align"];
              isRevert := false |}].
Proof. by vm_compute. Qed.

(** A batch of three URLs whose second item cannot be fetched: the
    third is still processed and the run does not exit with 1. *)
Example batch_example :
  let envs (i : nat) : Services :=
    match i with
    | 1%nat =>
        {| drive_client := inr tt;
           docs_client := inr tt;
           files_export := files_export Sample.services;
           revisions_get := revisions_get Sample.services;
           revisions_list := revisions_list Sample.services;
           documents_get := documents_get Sample.services;
           documents_batchUpdate := documents_batchUpdate Sample.services;
           groq_post := groq_post Sample.services;
           validUrl := validUrl Sample.services;
           firecrawl_key := firecrawl_key Sample.services;
           scrapeUrl := fun url => inl (Sample.failure "URL not found");
           fs_write := WriteCompletes |}
    | _ => Sample.services
    end in
  let urls := [lit "https://a.example/1"; lit "https://b.example/2";
               lit "https://c.example/3"] in
  let run := handleBatch envs (fun _ _ => Sample.noTags) false urls
                         Sample.world in
  fst run = Ok tt
  /\ length (entriesOf (logFile (snd run))) = 4%nat
  /\ map BatchResult.success
         (default [] (match batchFrom envs (fun _ _ => Sample.noTags) false
                                      urls 0 [] Sample.world with
                      | (Ok results, _) => Some results
                      | _ => None
                      end))
     = [true; false; true].
Proof. by vm_compute. Qed.

(** * Further properties of the code *)

(** ** The requests to the document service *)

Lemma count_replies (replies : list (option N)) (start : N) :
  foldl (fun totalReplaced reply =>
           match reply with
           | Some occurrencesChanged =>
               if (occurrencesChanged =? 0)%N then totalReplaced
               else (totalReplaced + occurrencesChanged)%N
           | None => totalReplaced
           end)
        start replies
  = (start + foldr N.add 0 (map (default 0) replies))%N.
Proof.
  revert start. induction replies as [|[n|] replies IH]; intros start; cbn.
  - lia.
  - rewrite IH. destruct (N.eqb_spec n 0); lia.
  - rewrite IH. lia.
Qed.

(** X1. With a document client, [applyWordReplacements] sends nothing
    for an empty list and returns 0; for any other list it sends one
    batch holding one case-sensitive replace-all request per pair, in
    the order of the pairs, and returns the sum of the occurrence
    counts of the replies, a reply without a count adding nothing. *)
Theorem apply_sends_one_batch_and_sums_replies (env : Services)
    (rs : list ReplacementItem) (w : World) :
  docs_client env = inr tt ->
  let requests :=
    map (fun r => ReplaceAllText (original r) true (replacement r)) rs in
  length requests = length rs
  /\ (forall i r, rs !! i = Some r ->
        requests !! i
        = Some (ReplaceAllText (original r) true (replacement r)))
  /\ applyWordReplacements env rs w =
     match rs with
     | [] => (Ok 0%N, w)
     | _ :: _ =>
         (match documents_batchUpdate env requests with
          | inl e => Threw e
          | inr replies => Ok (occurrencesChanged replies)
          end,
          addTrace (DocsBatchUpdate requests) w)
     end.
Proof.
  intros Hdocs requests. split; [subst requests; by rewrite length_map|]. split.
  { intros i r Hi. subst requests. by rewrite list_lookup_fmap, Hi. }
  unfold applyWordReplacements, initializeDocsClient.
  rewrite bind_run, Hdocs. unfold settle. fold requests.
  destruct rs as [|r rs]; [done|].
  case_bool_decide; [done|]. rewrite bind_run, call_run.
  destruct (documents_batchUpdate env requests) as [e|replies]; [done|].
  unfold mret, M_ret, ret, occurrencesChanged.
  by rewrite count_replies, N.add_0_l.
Qed.

Lemma apply_sends_one_batch_and_sums_replies_witness :
  docs_client Sample.services = inr tt
  /\ fst (applyWordReplacements Sample.services [item Sample.suggestion]
                                Sample.world)
     = Ok 1%N.
Proof.
  split; [reflexivity|].
  destruct (apply_sends_one_batch_and_sums_replies
              Sample.services [item Sample.suggestion] Sample.world
              eq_refl) as (_ & _ & ->).
  reflexivity.
Defined.

(** X2. [updateResumeText] never touches the log and sends at most one
    batch.  When the structure of the document is read, the batch is
    the insertion of the whole text at index 1, preceded by one
    deletion of the range from 1 to the end index of the last element
    less one exactly when that end index is above 1; it returns
    normally exactly when that batch is accepted.  When the client or
    the structure cannot be had, nothing is sent and it throws. *)
Theorem overwrite_deletes_then_inserts (env : Services) (text : jsstring)
    (w : World) :
  let (o, w') := updateResumeText env text w in
  logFile w' = logFile w
  /\ match docs_client env, documents_get env with
     | inr _, inr (Some content) =>
         exists deletion,
           docMutations (trace w')
           = docMutations (trace w) ++ [deletion ++ [InsertText 1 text]]
           /\ (forall endIndex,
                 last content = Some (Some endIndex) -> 1 < endIndex ->
                 deletion = [DeleteContentRange 1 (endIndex - 1)])
           /\ ((forall endIndex,
                  last content = Some (Some endIndex) -> endIndex <= 1) ->
               deletion = [])
           /\ (o = Ok tt <->
               exists replies,
                 documents_batchUpdate env (deletion ++ [InsertText 1 text])
                 = inr replies)
     | _, _ =>
         docMutations (trace w') = docMutations (trace w)
         /\ exists e, o = Threw e
     end.
Proof.
  unfold updateResumeText, initializeDocsClient.
  rewrite bind_run. unfold settle.
  destruct (docs_client env) as [e|[]]; [by eauto|].
  rewrite bind_run, call_run.
  destruct (documents_get env) as [e|[content|]].
  1,3: cbn; rewrite docMutations_snoc, app_nil_r; by eauto.
  rewrite bind_run, call_run.
  match goal with
  | |- context [documents_batchUpdate env (?d ++ _)] => set (deletion := d)
  end.
  assert (forall endIndex, last content = Some (Some endIndex) ->
            1 < endIndex -> deletion = [DeleteContentRange 1 (endIndex - 1)])
    as Hdel.
  { intros endIndex Hlast Hgt. subst deletion. rewrite Hlast. cbn.
    destruct (Z.eqb_spec endIndex 0); [lia|].
    destruct (Z.gtb_spec endIndex 1); [done|lia]. }
  assert ((forall endIndex, last content = Some (Some endIndex) ->
             endIndex <= 1) -> deletion = []) as Hnone.
  { intros Hle. subst deletion.
    destruct (last content) as [[endIndex|]|]; cbn; try done.
    specialize (Hle endIndex eq_refl).
    destruct (Z.gtb_spec endIndex 1); [lia|]. by rewrite andb_false_r. }
  destruct (documents_batchUpdate env _) as [e|replies] eqn:Hbatch.
  - cbn [fst snd addTrace logFile trace]. split; [done|]. exists deletion.
    rewrite !docMutations_snoc, app_nil_r. cbn.
    split; [done|]. split; [done|]. split; [done|].
    split; [done|]. intros [replies Hr]. by rewrite Hbatch in Hr.
  - unfold mret, M_ret, ret. cbn [fst snd addTrace logFile trace].
    split; [done|]. exists deletion.
    rewrite !docMutations_snoc, app_nil_r. cbn.
    split; [done|]. split; [done|]. split; [done|].
    split; [by eauto|done].
Qed.

(** X3. [getRevisionContent] gives the downloaded text when the
    download of the revision answers with a string; in every other
    case, a failed download included, its outcome is the outcome of
    [getResumeText], the export of the document as it is now. *)
Theorem revision_content_falls_back_to_current (env : Services)
    (revisionId : jsstring) (w : World) :
  fst (getRevisionContent env revisionId w) =
  match drive_client env, revisions_get env revisionId with
  | inr _, inr (TextData s) => Ok s
  | _, _ => fst (getResumeText env w)
  end.
Proof.
  unfold getRevisionContent, initializeDriveClient. rewrite bind_run.
  rewrite (getResumeText_run env w).
  unfold settle. destruct (drive_client env) as [e|[]] eqn:Hdrive; [done|].
  rewrite bind_run. unfold tryCatch. rewrite bind_run, call_run.
  destruct (revisions_get env revisionId) as [e|[s|]]; cbv beta iota;
    [|done|].
  all: unfold mret, M_ret, ret; cbv beta iota;
    by rewrite getResumeText_run, Hdrive.
Qed.

(** ** The validator at its edges *)

(** X4. A candidate whose [original] is the empty string passes the
    test of presence for every resume text, the empty one included:
    it is accepted exactly when its replacement is not blank and the
    number of its whitespace tokens, plus one when it starts with
    white space, plus one when it ends with white space, is at most
    six. *)
Theorem empty_original_is_accepted (T : jsstring) (cs : list Suggestion)
    (c : Suggestion) :
  original c = [] ->
  c ∈ validReplacements T cs
  <-> c ∈ cs
      /\ trim (replacement c) <> []
      /\ tokenCount (replacement c)
         + (if startsWithSpace (replacement c) then 1 else 0)
         + (if endsWithSpace (replacement c) then 1 else 0) <= 6.
Proof.
  intros Horig. rewrite elem_of_validReplacements.
  unfold acceptable, isSubstring. rewrite wordDelta_pieceDelta.
  unfold pieceDelta. rewrite Horig. cbn [splitPieces trim].
  change (trimEnd (trimStart [])) with (@nil N).
  assert (0 <= tokenCount (replacement c)) by (unfold tokenCount; lia).
  split.
  - intros (Hin & _ & Hne & Hdelta). split; [done|]. split; [done|].
    unfold splitPieces, maxWordDelta in Hdelta.
    destruct (replacement c) as [|u s] eqn:Hrepl; [done|].
    destruct (startsWithSpace (u :: s)), (endsWithSpace (u :: s)); lia.
  - intros (Hin & Hne & Hcount). split; [done|].
    split; [by exists [], T|]. split; [done|].
    unfold maxWordDelta, splitPieces.
    destruct (replacement c) as [|u s] eqn:Hrepl; [done|].
    destruct (startsWithSpace (u :: s)), (endsWithSpace (u :: s)); lia.
Qed.

Lemma empty_original_is_accepted_witness :
  let c := {| item := {| original := []; replacement := lit "Built APIs" |};
              jd_alignment := None |} in
  let c' := {| item := {| original := [];
                          replacement := lit " a b c d e f " |};
               jd_alignment := None |} in
  (c ∈ validReplacements [] [c])
  /\ (c' ∉ validReplacements [] [c']).
Proof.
  cbv zeta. split.
  - apply empty_original_is_accepted; [reflexivity|].
    split; [apply list_elem_of_here|]. by vm_compute.
  - intros Hin. apply empty_original_is_accepted in Hin; [|reflexivity].
    destruct Hin as (_ & _ & Hcount). by vm_compute in Hcount.
Defined.

Lemma validWithin_mono (bound bound' : Z) (T : jsstring)
    (r : ReplacementItem) :
  bound <= bound' ->
  validWithin bound T r = true -> validWithin bound' T r = true.
Proof.
  intros Hle. rewrite !validWithin_spec. unfold acceptable.
  intros (? & ? & ?). repeat split; try done. lia.
Qed.

(** X5. The filter of src/groqClient.ts (bound 5) is stricter than the
    one of the earlier copy of the file (bound 8): what it keeps is a
    subsequence of what the earlier filter keeps of the same
    candidates, and filtering with it what the earlier filter kept
    gives the same list as filtering the candidates directly. *)
Theorem current_filter_is_stricter_than_earlier (T : jsstring)
    (cs : list Suggestion) :
  let earlier :=
    filter (fun r : Suggestion => validWithin maxWordDelta_earlier T r) cs in
  validReplacements T cs `sublist_of` earlier
  /\ validReplacements T earlier = validReplacements T cs.
Proof.
  cbv zeta. unfold validReplacements.
  assert (forall c : Suggestion,
            validWithin maxWordDelta T c ->
            validWithin maxWordDelta_earlier T c) as Hmono.
  { intros c H. apply Is_true_true. apply Is_true_true in H.
    by apply (validWithin_mono maxWordDelta). }
  induction cs as [|c cs [IH1 IH2]]; [done|].
  rewrite !filter_cons.
  destruct (decide (validWithin maxWordDelta T c)) as [Hc|Hc].
  - rewrite decide_True by by apply Hmono.
    rewrite filter_cons, decide_True by done.
    split; [by apply sublist_skip|by f_equal].
  - destruct (decide (validWithin maxWordDelta_earlier T c)).
    + rewrite filter_cons, decide_False by done.
      split; [by apply sublist_cons|done].
    + done.
Qed.

(** ** The calls of the retry loop *)

Lemma attemptsFrom_trace (post : nat -> Attempt) (remaining attempt : nat)
    (lastError : option Error) (w : World) :
  (0 < remaining)%nat ->
  (attempt + remaining = S maxRetries)%nat ->
  let (o, w') := attemptsFrom post remaining attempt lastError w in
  exists n, (attempt <= n <= maxRetries)%nat
    /\ trace w' = trace w ++ attemptTrace attempt n.
Proof.
  revert attempt lastError w.
  induction remaining as [|remaining IH];
    intros attempt lastError w Hpos Hsum; [lia|].
  cbn [attemptsFrom]. unfold tryCatch at 1. rewrite call_run.
  assert (attemptTrace attempt attempt = [GroqPost attempt]) as Hone.
  { unfold attemptTrace. by rewrite Nat.sub_diag. }
  destruct (post attempt) as [e|r].
  2: { exists attempt. split; [lia|]. by rewrite Hone. }
  destruct (onAttemptError attempt e) as [thrown|ms] eqn:Hcatch.
  { exists attempt. split; [lia|]. by rewrite Hone. }
  apply onAttemptError_retry in Hcatch as (_ & Hlt & Hms).
  rewrite bind_run, call_run.
  (* the loop never waits after its last iteration *)
  destruct remaining as [|remaining']; [lia|].
  specialize (IH (S attempt) (Some e)
                 (addTrace (Sleep ms) (addTrace (GroqPost attempt) w))).
  destruct (attemptsFrom post (S remaining') (S attempt) (Some e) _)
    as [o w'].
  destruct IH as (n & Hn & Htrace); [lia|lia|].
  exists n. split; [lia|]. rewrite Htrace. cbn [addTrace trace].
  rewrite <- !app_assoc. f_equal. unfold attemptTrace.
  replace (n - attempt)%nat with (S (n - S attempt)) by lia.
  cbn [seq flat_map app]. by rewrite Hms.
Qed.

(** X6. The calls of [getAlignmentSuggestions] are the attempts 1 to
    n for some n of at most 3, each attempt but the last followed by
    one wait of 1000 ms times its number: the waits are 1000 and then
    2000 ms, and there is none after the last attempt. *)
Theorem retry_waits_grow_with_the_attempt (post : nat -> Attempt)
    (w : World) :
  let (o, w') := getAlignmentSuggestions post w in
  exists n, (1 <= n <= maxRetries)%nat
    /\ trace w' = trace w ++ attemptTrace 1 n
    /\ sleeps (attemptTrace 1 n)
       = map (fun k => 1000 * Z.of_nat k) (seq 1 (n - 1))
    /\ groqPosts (attemptTrace 1 n) = seq 1 n.
Proof.
  unfold getAlignmentSuggestions.
  pose proof (attemptsFrom_trace post maxRetries 1 None w) as H.
  destruct (attemptsFrom post maxRetries 1 None w) as [o w'].
  destruct H as (n & Hn & Htrace); [unfold maxRetries; lia|done|].
  unfold maxRetries in *. exists n. split; [lia|]. split; [done|].
  assert (n = 1 \/ n = 2 \/ n = 3)%nat as [->|[->| ->]] by lia; by cbn.
Qed.

(** ** Appending and reading the log *)

(** X7. Appending entries one after the other with writes that
    complete and then reading the log gives what a read gave before,
    followed by the entries in the order they were appended; when the
    file was missing or was not valid JSON, what a read gave before is
    the empty history. *)
Theorem appends_then_read (entries : list VersionLogEntry) (w : World) :
  fst ((appendAll WriteCompletes entries ;; readVersionLog) w)
  = Ok (entriesOf (logFile w) ++ entries)
  /\ (logFile w <> Holds (entriesOf (logFile w)) ->
      fst ((appendAll WriteCompletes entries ;; readVersionLog) w)
      = Ok entries).
Proof.
  assert (fst ((appendAll WriteCompletes entries ;; readVersionLog) w)
          = Ok (entriesOf (logFile w) ++ entries)) as Hread.
  { revert w. induction entries as [|entry entries IH]; intros w.
    - cbn [appendAll]. rewrite bind_run.
      unfold mret, M_ret, ret. rewrite readVersionLog_run.
      by rewrite app_nil_r.
    - cbn [appendAll].
      rewrite !bind_run, appendVersionLog_run, writeVersionLog_run.
      specialize (IH (setFile (Holds (entriesOf (logFile w) ++ [entry])) w)).
      rewrite bind_run in IH. rewrite IH. cbn. by rewrite <- app_assoc. }
  split; [done|]. intros Hbad. rewrite Hread.
  by destruct (logFile w) as [|es|es].
Qed.

(** ** What an update reports and what it logs *)

Lemma performUpdate_appends (env : Services) (jobDescription : jsstring)
    (jobUrl : option jsstring) (metadata : Metadata.t) (w : World) :
  let (res, w') := performUpdate env jobDescription jobUrl metadata false w in
  exists r, res = Ok r
    /\ ((UpdateResult.success r = true
         /\ exists latestRevision result,
              latestListed env = Some latestRevision
              /\ UpdateResult.revisionId r = Some (id latestRevision)
              /\ logFile w'
                 = Holds (entriesOf (logFile w)
                          ++ [updateEntry latestRevision metadata result]))
        \/ (UpdateResult.success r = false
            /\ UpdateResult.revisionId r = None
            /\ (logFile w' = logFile w
                \/ exists e entries,
                     fs_write env = WriteFailsMidway e
                     /\ logFile w' = Torn entries))).
Proof.
  unfold performUpdate, tryCatch, latestListed.
  rewrite bind_run, getResumeText_run.
  destruct (drive_client env) as [e|[]] eqn:Hdrive.
  { eexists. split; [done|]. right. by auto. }
  destruct (files_export env) as [e|[text|]].
  1,3: eexists; split; [done|]; right; by auto.
  rewrite bind_run.
  pose proof (getResumeReplacements_frame (groq_post env) text
                (addTrace DriveFilesExport w)) as Hframe.
  destruct (getResumeReplacements _ _ _) as [[result|e|c] w1].
  3: by destruct Hframe as (_ & _ & Hc); destruct (Hc c).
  2: { destruct Hframe as (Hf & _). eexists. split; [done|]. right.
       by auto. }
  destruct Hframe as (Hf & _). cbn [addTrace logFile] in Hf.
  rewrite bind_run.
  destruct (applyWordReplacements_run env (replacements result) w1)
    as (o & w2 & -> & Hf2 & Hexit).
  rewrite Hf in Hf2.
  destruct o as [n|e|c]; [| |by destruct (Hexit c)].
  2: { eexists. split; [done|]. right. by auto. }
  rewrite bind_run, getRevisions_run, Hdrive.
  destruct (revisions_list env) as [e|[revisions|]].
  1,3: eexists; split; [done|]; right; by auto.
  destruct (last (map toRevision revisions)) as [latestRevision|].
  2: { eexists. split; [done|]. right. by auto. }
  rewrite bind_run, appendVersionLog_run, writeVersionLog_run.
  cbn [addTrace logFile]. rewrite Hf2.
  destruct (fs_write env) as [|e|e].
  - eexists. split; [done|]. left. split; [done|].
    by exists latestRevision, result.
  - eexists. split; [done|]. right. by auto.
  - eexists. split; [done|]. right. split; [done|]. split; [done|].
    right. by eexists _, _.
Qed.

(** X8. The command [update] without [--dry-run] ends with exit status
    0 or 1, and with 0 exactly when the log file ends up holding what
    a read of it gave before followed by one new entry.  With status
    1 the log file is the one it was, unless the write of the file
    itself broke off part-way. *)
Theorem update_exit_status_tells_the_log (env : Services)
    (jobDescription : jsstring) (jobUrl : option jsstring)
    (metadata : Metadata.t) (w : World) :
  let (o, w') := handleUpdate env jobDescription jobUrl metadata false w in
  (o = Ok tt \/ o = Exited 1)
  /\ (o = Ok tt <->
      exists added,
        logFile w' = Holds (entriesOf (logFile w) ++ [added]))
  /\ (o = Exited 1 ->
      logFile w' = logFile w
      \/ exists e entries,
           fs_write env = WriteFailsMidway e /\ logFile w' = Torn entries).
Proof.
  unfold handleUpdate. rewrite bind_run.
  pose proof (performUpdate_appends env jobDescription jobUrl metadata w)
    as H.
  destruct (performUpdate _ _ _ _ _ _) as [res w'].
  destruct H as (r & -> & [(Hs & latest & result & _ & _ & Hlog)
                          |(Hs & _ & Hlog)]); rewrite Hs; cbn.
  - split; [by left|]. split; [|done]. split; [by eauto|done].
  - split; [by right|]. split; [|done]. split; [done|].
    intros [added Hadded]. destruct Hlog as [Hlog|(e & es & _ & Hlog)].
    + rewrite Hlog in Hadded. by destruct (file_not_appended _ _ Hadded).
    + by rewrite Hlog in Hadded.
Qed.

Section BatchLog.

Variable envs : nat -> Services.
Variable getMetadata : jsstring -> option jsstring -> Metadata.t.
Hypothesis writes_complete : forall i, fs_write (envs i) = WriteCompletes.

Lemma batchItem_appends (i : nat) (url : jsstring) (w : World) :
  exists r w' added,
    batchItem envs getMetadata false i url w = (Ok r, w')
    /\ entriesOf (logFile w') = entriesOf (logFile w) ++ added
    /\ Forall (fun e => isRevert e = false) added
    /\ map (fun e => Some (revisionId e)) added
       = (if BatchResult.success r then [BatchResult.revisionId r] else []).
Proof.
  unfold batchItem, tryCatch. rewrite bind_run.
  destruct (fetchJobDescriptionFromUrl_run (envs i) url) as (o & Hexit & Hrun).
  destruct (Hrun w) as (w0 & -> & Hlog0 & _).
  destruct o as [jobDescription|e|c]; [| |by destruct (Hexit c)].
  2: { eexists _, _, []. rewrite app_nil_r, Hlog0. by repeat split. }
  rewrite bind_run.
  pose proof (performUpdate_appends (envs i) jobDescription (Some url)
                (getMetadata jobDescription (Some url)) w0) as H.
  destruct (performUpdate _ _ _ _ _ _) as [res w'].
  destruct H as (r & -> & [(Hs & latest & result & _ & Hid & Hlog)
                          |(Hs & _ & Hlog)]).
  - eexists _, _, [_]. split; [reflexivity|]. cbn [BatchResult.success].
    rewrite Hs, Hlog, Hlog0. cbn [entriesOf].
    split; [reflexivity|]. split; [by apply Forall_singleton|].
    cbn. by rewrite Hid.
  - eexists _, _, []. split; [reflexivity|]. cbn [BatchResult.success].
    rewrite Hs, app_nil_r. split; [|done].
    destruct Hlog as [->|(e & es & Hw & _)]; [by rewrite Hlog0|].
    by rewrite writes_complete in Hw.
Qed.

Lemma batchFrom_appends (urls : list jsstring) (i : nat)
    (acc : list BatchResult.t) (w : World) :
  exists rs w' added,
    batchFrom envs getMetadata false urls i acc w = (Ok (acc ++ rs), w')
    /\ entriesOf (logFile w') = entriesOf (logFile w) ++ added
    /\ Forall (fun e => isRevert e = false) added
    /\ map (fun e => Some (revisionId e)) added
       = map BatchResult.revisionId
             (filter (fun r => BatchResult.success r) rs).
Proof.
  revert i acc w. induction urls as [|url rest IH]; intros i acc w.
  - exists [], w, []. rewrite !app_nil_r. by repeat split.
  - cbn [batchFrom]. rewrite bind_run.
    destruct (batchItem_appends i url w)
      as (r & w1 & added1 & -> & Hlog1 & Hrev1 & Hids1).
    destruct (IH (S i) (acc ++ [r]) w1)
      as (rs & w' & added & -> & Hlog & Hrev & Hids).
    exists (r :: rs), w', (added1 ++ added). rewrite <- app_assoc.
    split; [done|]. rewrite Hlog, Hlog1, <- app_assoc. split; [done|].
    split; [by apply Forall_app|].
    rewrite map_app, Hids1, Hids, filter_cons.
    by destruct (BatchResult.success r).
Qed.

End BatchLog.

(** X9. When every write of the log file completes, the loop of a
    batch that is not a dry run leaves in the log what a read gave
    before followed by one update entry per successful result, in the
    order of the results: the revision ids that the summary reports
    for the successful items are the revision ids of the entries
    appended, and a failed item appends nothing. *)
Theorem batch_appends_one_entry_per_success (envs : nat -> Services)
    (getMetadata : jsstring -> option jsstring -> Metadata.t)
    (urls : list jsstring) (w : World) :
  (forall i, fs_write (envs i) = WriteCompletes) ->
  let (o, w') := batchFrom envs getMetadata false urls 0 [] w in
  exists results added,
    o = Ok results
    /\ entriesOf (logFile w') = entriesOf (logFile w) ++ added
    /\ map (fun e => Some (revisionId e)) added
       = map BatchResult.revisionId
             (filter (fun r => BatchResult.success r) results)
    /\ length added = successful results
    /\ Forall (fun e => isRevert e = false) added.
Proof.
  intros Hwrites.
  destruct (batchFrom_appends envs getMetadata Hwrites urls 0 [] w)
    as (rs & w' & added & -> & Hlog & Hrev & Hids).
  exists rs, added. split; [done|]. split; [done|]. split; [done|].
  split; [|done]. unfold successful.
  apply (f_equal length) in Hids. by rewrite !length_map in Hids.
Qed.

Lemma batch_appends_one_entry_per_success_witness :
  let envs (i : nat) : Services :=
    match i with
    | 1%nat => Sample.listingFails
    | _ => Sample.services
    end in
  let urls := [lit "https://a.example/1"; lit "https://b.example/2";
               lit "https://c.example/3"] in
  (forall i, fs_write (envs i) = WriteCompletes)
  /\ let (o, w') :=
       batchFrom envs (fun _ _ => Sample.noTags) false urls 0 []
                 Sample.world in
     exists results added,
       o = Ok results
       /\ entriesOf (logFile w') = entriesOf (logFile Sample.world) ++ added
       /\ map (fun e => Some (revisionId e)) added
          = map BatchResult.revisionId
                (filter (fun r => BatchResult.success r) results)
       /\ length added = successful results
       /\ Forall (fun e => isRevert e = false) added.
Proof.
  cbv zeta.
  assert (forall i : nat,
            fs_write (match i with
                      | 1%nat => Sample.listingFails
                      | _ => Sample.services
                      end) = WriteCompletes) as Hwrites.
  { intros [|[|i]]; reflexivity. }
  split; [exact Hwrites|].
  exact (batch_appends_one_entry_per_success _ (fun _ _ => Sample.noTags)
           [lit "https://a.example/1"; lit "https://b.example/2";
            lit "https://c.example/3"] Sample.world Hwrites).
Defined.

(** ** Revert when something fails *)

Lemma getRevisionContent_fallback (env : Services) (revisionId : jsstring)
    (w : World) :
  drive_client env = inr tt ->
  (forall s, revisions_get env revisionId <> inr (TextData s)) ->
  getRevisionContent env revisionId w
  = getResumeText env (addTrace (DriveRevisionsGet revisionId) w).
Proof.
  intros Hdrive Hget.
  unfold getRevisionContent, initializeDriveClient. rewrite bind_run.
  unfold settle. rewrite Hdrive. rewrite bind_run. unfold tryCatch.
  rewrite bind_run, call_run.
  destruct (revisions_get env revisionId) as [e|[s|]]; cbv beta iota;
    [done|by destruct (Hget s)|done].
Qed.

(** X10. When the download of the target revision fails, or answers
    with something that is not a string, a revert that completes has
    exported the document as it is now and inserted that very text:
    the one batch it sends ends with the insertion of the current
    text at index 1, and the log still gets a revert entry that names
    the target. *)
Theorem revert_without_download_reinserts_current_text (env : Services)
    (args : list jsstring) (w w' : World) (revertArg current : jsstring)
    (targetEntry : VersionLogEntry) :
  firstPlainArg args = Some revertArg ->
  targetOf revertArg (entriesOf (logFile w)) = Some targetEntry ->
  (forall s, revisions_get env (revisionId targetEntry) <> inr (TextData s)) ->
  files_export env = inr (TextData current) ->
  handleRevert env args w = (Ok tt, w') ->
  exists deletion latestRevision,
    trace w'
    = trace w
      ++ [DriveRevisionsGet (revisionId targetEntry); DriveFilesExport;
          DocsGet; DocsBatchUpdate (deletion ++ [InsertText 1 current]);
          DriveRevisionsList]
    /\ docMutations (trace w')
       = docMutations (trace w) ++ [deletion ++ [InsertText 1 current]]
    /\ last (entriesOf (logFile w'))
       = Some (revertEntry latestRevision targetEntry).
Proof.
  intros Harg Htarget Hget Hexport. unfold handleRevert. cbv zeta.
  rewrite Harg. destruct (truthy (Some revertArg)); [|done]. cbv iota.
  rewrite bind_run, readVersionLog_run, Htarget, bind_run.
  destruct (drive_client env) as [e|[]] eqn:Hdrive.
  { unfold getRevisionContent, initializeDriveClient.
    rewrite bind_run. unfold settle. by rewrite Hdrive. }
  rewrite getRevisionContent_fallback, getResumeText_run by done.
  rewrite Hdrive, Hexport, bind_run.
  destruct (updateResumeText_run env current
              (addTrace DriveFilesExport
                 (addTrace (DriveRevisionsGet (revisionId targetEntry)) w)))
    as (o2 & w2 & -> & Hf2 & _ & Ht2).
  destruct o2 as [[]|e|c]; [|done|done].
  destruct (Ht2 eq_refl) as [deletion Ht2']. clear Ht2.
  rewrite bind_run, getRevisions_run, Hdrive.
  destruct (revisions_list env) as [e|[revisions|]]; [done| |done].
  destruct (last (map toRevision revisions)) as [latestRevision|]; [|done].
  rewrite appendVersionLog_run, writeVersionLog_run.
  destruct (fs_write env); [|done|done].
  intros [= <-]. exists deletion, latestRevision.
  cbn [setFile addTrace trace logFile entriesOf] in *.
  rewrite Ht2', <- !app_assoc. cbn [app].
  split; [done|]. split.
  - unfold docMutations. rewrite omap_app. by cbn.
  - by rewrite last_snoc.
Qed.

Lemma revert_without_download_reinserts_current_text_witness :
  let env :=
    {| drive_client := inr tt;
       docs_client := inr tt;
       files_export := inr (TextData (lit "The text as it is now."));
       revisions_get := fun _ => inl (Sample.failure "Not supported");
       revisions_list := revisions_list Sample.services;
       documents_get := documents_get Sample.services;
       documents_batchUpdate := documents_batchUpdate Sample.services;
       groq_post := groq_post Sample.services;
       validUrl := validUrl Sample.services;
       firecrawl_key := firecrawl_key Sample.services;
       scrapeUrl := scrapeUrl Sample.services;
       fs_write := WriteCompletes |} in
  let w := {| logFile := Holds [Sample.entry "r1"; Sample.entry "revert"];
              trace := [] |} in
  let args := [lit "revert"; lit "0"] in
  exists deletion latestRevision,
    trace (snd (handleRevert env args w))
    = [DriveRevisionsGet (lit "revert"); DriveFilesExport; DocsGet;
       DocsBatchUpdate
         (deletion ++ [InsertText 1 (lit "The text as it is now.")]);
       DriveRevisionsList]
    /\ docMutations (trace (snd (handleRevert env args w)))
       = [deletion ++ [InsertText 1 (lit "The text as it is now.")]]
    /\ last (entriesOf (logFile (snd (handleRevert env args w))))
       = Some (revertEntry latestRevision (Sample.entry "revert")).
Proof.
  cbv zeta.
  match goal with
  | |- context [handleRevert ?env ?args ?w] =>
      apply (revert_without_download_reinserts_current_text
               env args w (snd (handleRevert env args w)) (lit "revert")
               (lit "The text as it is now.") (Sample.entry "revert"))
  end.
  - by vm_compute.
  - by vm_compute.
  - by intros s.
  - reflexivity.
  - by vm_compute.
Defined.

(** X11. A revert that does not complete leaves the log file as it
    was, unless the write of the file itself broke off part-way; and
    when no target is found, it exits with status 1 before any
    request is made to a service. *)
Theorem failed_revert_keeps_the_log (env : Services) (args : list jsstring)
    (w : World) :
  let (o, w') := handleRevert env args w in
  (o <> Ok tt ->
   logFile w' = logFile w
   \/ exists e entries,
        fs_write env = WriteFailsMidway e /\ logFile w' = Torn entries)
  /\ ((forall revertArg,
         firstPlainArg args = Some revertArg ->
         targetOf revertArg (entriesOf (logFile w)) = None) ->
      o = Exited 1
      /\ logFile w' = logFile w
      /\ requestsOf (trace w') = requestsOf (trace w)).
Proof.
  unfold handleRevert. cbv zeta.
  destruct (firstPlainArg args) as [revertArg|] eqn:Harg.
  2: { unfold_M. cbn. split; [by left|]. intros _.
       split; [done|]. split; [done|].
       unfold requestsOf. by rewrite filter_app, app_nil_r. }
  destruct (truthy (Some revertArg)); cbv iota.
  2: { unfold_M. cbn. split; [by left|]. intros _.
       split; [done|]. split; [done|].
       unfold requestsOf. by rewrite filter_app, app_nil_r. }
  rewrite bind_run, readVersionLog_run.
  destruct (targetOf revertArg (entriesOf (logFile w))) as [targetEntry|]
    eqn:Htarget.
  2: { unfold_M. cbn. split; [by left|]. intros _.
       split; [done|]. split; [done|].
       unfold requestsOf. by rewrite filter_app, app_nil_r. }
  match goal with
  | |- let (o, w') := ?run in ?P /\ _ =>
      cut (let (o, w') := run in P)
  end.
  { destruct (_ ≫= _) as [o w']. intros H. split; [done|].
    intros Hnone. by rewrite (Hnone _ eq_refl) in Htarget. }
  rewrite bind_run.
  destruct (getRevisionContent_run env (revisionId targetEntry) w)
    as (o1 & w1 & -> & Hf1 & _ & Hx1).
  destruct o1 as [oldContent|e|c]; [|by auto|by destruct (Hx1 c)].
  rewrite bind_run.
  destruct (updateResumeText_run env oldContent w1)
    as (o2 & w2 & -> & Hf2 & Hx2 & _).
  rewrite Hf1 in Hf2.
  destruct o2 as [[]|e|c]; [|by auto|by destruct (Hx2 c)].
  rewrite bind_run, getRevisions_run.
  destruct (drive_client env) as [e|[]]; [by auto|].
  destruct (revisions_list env) as [e|[revisions|]];
    [by cbn; auto| |by cbn; auto].
  destruct (last (map toRevision revisions)) as [latestRevision|];
    [|by cbn; auto].
  rewrite appendVersionLog_run, writeVersionLog_run.
  destruct (fs_write env) as [|e|e]; [done|by cbn; auto|].
  intros _. right. by eexists _, _.
Qed.

(** ** Reading the command line *)

Lemma looksLikeUrl_nonempty (s : jsstring) :
  looksLikeUrl s = true ->
  truthy (Some s) = true /\ startsWith s (lit "#") = false.
Proof.
  unfold looksLikeUrl. intros [post ->]%startsWith_spec. by cbn.
Qed.

Lemma keeps_url (s : jsstring) :
  truthy (Some s) && negb (startsWith s (lit "#")) && looksLikeUrl s
  = looksLikeUrl s.
Proof.
  destruct (looksLikeUrl s) eqn:Hurl; [|by rewrite andb_false_r].
  destruct (looksLikeUrl_nonempty s Hurl) as [-> ->]. done.
Qed.

Lemma urlsOfFile_all_http (fileContent : jsstring) :
  Forall (fun url => looksLikeUrl url = true) (Cli.urlsOfFile fileContent).
Proof.
  apply Forall_forall. intros url [Hurl _]%list_elem_of_filter.
  apply Is_true_true in Hurl. by apply andb_true_iff in Hurl as [_ ?].
Qed.

Lemma urlsOfArgs_all_http (rest : list jsstring) :
  Forall (fun url => looksLikeUrl url = true) (Cli.urlsOfArgs rest).
Proof.
  induction rest as [|arg rest IH]; [by constructor|]. cbn [Cli.urlsOfArgs].
  destruct (startsWith arg (lit "--")); [by constructor|].
  destruct (truthy (Some arg) && startsWith arg (lit "http")) eqn:Hurl;
    [|done].
  constructor; [|done]. by apply andb_true_iff in Hurl as [_ ?].
Qed.

(** X12. The URLs that a batch takes from a file are the lines of the
    file, trimmed, that start with [http], in the order of the file:
    the tests for an empty line and for a comment line reject nothing
    that the test for [http] would keep.  The URLs it takes from the
    command line are the arguments after [--urls] that start with
    [http], read up to the first argument that starts with two
    dashes. *)
Theorem batch_urls_are_the_http_items (fileContent : jsstring)
    (rest : list jsstring) :
  Cli.urlsOfFile fileContent
  = filter (fun line => looksLikeUrl line)
           (map trim (Cli.splitOn 10 fileContent))
  /\ Cli.urlsOfArgs rest
     = filter (fun arg => looksLikeUrl arg)
              (takeWhile (fun arg => negb (startsWith arg (lit "--"))) rest).
Proof.
  split.
  - unfold Cli.urlsOfFile. apply list_filter_iff. intros line.
    fold (looksLikeUrl line). by rewrite keeps_url.
  - induction rest as [|arg rest IH]; [done|].
    cbn [Cli.urlsOfArgs takeWhile].
    destruct (startsWith arg (lit "--")); cbn [negb]; [done|].
    rewrite filter_cons. fold (looksLikeUrl arg).
    destruct (looksLikeUrl arg) eqn:Hurl.
    + destruct (looksLikeUrl_nonempty arg Hurl) as [-> _]. cbn [andb].
      destruct (decide (Is_true true)) as [_|[]]; [by rewrite IH|done].
    + rewrite andb_false_r.
      destruct (decide (Is_true false)) as [[]|_]. exact IH.
Qed.

Lemma requestsOf_consoleError (t : list Effect) (line : jsstring) :
  requestsOf (t ++ [ConsoleError line]) = requestsOf t.
Proof. unfold requestsOf. by rewrite filter_app, app_nil_r. Qed.

(** X13. How a batch gets its URLs: it makes no request to a service
    and leaves the log alone.  A value after [--file] wins over
    [--urls]: the candidates are then the URLs of the file, and an
    error of reading the file is thrown as it is.  Without one, the
    candidates are the URLs after the first [--urls], whatever comes
    after a later one.  The batch goes on with the candidates when
    there is at least one, all of them starting with [http]; with no
    candidate, or with neither flag, it exits with status 1. *)
Theorem batch_urls_come_from_the_file_first
    (readFileSync : jsstring -> Answer jsstring) (args : list jsstring)
    (w : World) :
  let (o, w') := Cli.collectUrls readFileSync args w in
  let proceed (urls : list jsstring) : Outcome (list jsstring) :=
    if decide (urls = []) then Exited 1 else Ok urls in
  logFile w' = logFile w
  /\ requestsOf (trace w') = requestsOf (trace w)
  /\ (forall urls, o = Ok urls ->
        urls <> [] /\ Forall (fun url => looksLikeUrl url = true) urls)
  /\ (forall code, o = Exited code -> code = 1)
  /\ match flagValue args "--file" with
     | Some filePath =>
         match readFileSync filePath with
         | inl e => o = Threw e
         | inr fileContent => o = proceed (Cli.urlsOfFile fileContent)
         end
     | None =>
         (forall urlsIndex,
            args !! urlsIndex = Some (lit "--urls") ->
            (forall j, (j < urlsIndex)%nat ->
                       args !! j <> Some (lit "--urls")) ->
            o = proceed (Cli.urlsOfArgs (drop (S urlsIndex) args)))
         /\ ((lit "--urls" ∉ args) -> o = Exited 1)
     end.
Proof.
  pose proof urlsOfFile_all_http as Hfile.
  pose proof urlsOfArgs_all_http as Hargs.
  assert (forall (urls : list jsstring) (w0 : World),
            Forall (fun url => looksLikeUrl url = true) urls ->
            let (o, w') :=
              (if bool_decide (length urls = 0%nat)
               then consoleError (lit "No valid URLs found") ;; exit 1
               else mret urls) w0 in
            logFile w' = logFile w0
            /\ requestsOf (trace w') = requestsOf (trace w0)
            /\ (forall urls', o = Ok urls' ->
                  urls' <> []
                  /\ Forall (fun url => looksLikeUrl url = true) urls')
            /\ (forall code, o = Exited code -> code = 1)
            /\ o = (if decide (urls = []) then Exited 1 else Ok urls))
    as Hproceed.
  { intros urls w0 Hall. case_bool_decide as Hlen.
    - apply nil_length_inv in Hlen. subst urls. unfold_M.
      cbn [logFile trace]. rewrite requestsOf_consoleError.
      split; [done|]. split; [done|]. split; [done|].
      split; [by intros ? [= <-]|done].
    - unfold mret, M_ret, ret.
      assert (urls <> []) as Hne by by intros ->.
      rewrite decide_False by done.
      split; [done|]. split; [done|].
      split; [by intros ? [= <-]|]. done. }
  unfold Cli.collectUrls. cbv zeta. rewrite bind_run.
  destruct (flagValue args "--file") as [filePath|].
  - rewrite bind_run. unfold settle.
    destruct (readFileSync filePath) as [e|fileContent] eqn:Hread; [done|].
    unfold mret at 1, M_ret at 1, ret at 1. cbv beta iota.
    specialize (Hproceed (Cli.urlsOfFile fileContent) w (Hfile _)).
    match goal with
    | |- context [(if bool_decide ?P then ?a else ?b) w] =>
        destruct ((if bool_decide P then a else b) w) as [o w']
    end.
    destruct Hproceed as (? & ? & ? & ? & ?). done.
  - destruct (list_find _ args) as [[urlsIndex arg]|] eqn:Hfind.
    + apply list_find_Some in Hfind as (Hlookup & -> & Hfirst).
      unfold mret at 1, M_ret at 1, ret at 1. cbv beta iota.
      specialize (Hproceed (Cli.urlsOfArgs (drop (S urlsIndex) args)) w
                           (Hargs _)).
      match goal with
    | |- context [(if bool_decide ?P then ?a else ?b) w] =>
        destruct ((if bool_decide P then a else b) w) as [o w']
    end.
      destruct Hproceed as (? & ? & ? & ? & Ho).
      do 4 (split; [done|]). split.
      * intros i Hi Hbefore.
        destruct (Nat.lt_trichotomy i urlsIndex) as [Hlt|[->|Hgt]]; [|done|].
        -- by destruct (Hfirst i _ Hi Hlt).
        -- by destruct (Hbefore urlsIndex Hgt).
      * intros Hnot. destruct Hnot. by eapply list_elem_of_lookup_2.
    + unfold_M. cbn [logFile trace]. rewrite !requestsOf_consoleError.
      split; [done|]. split; [done|]. split; [done|].
      split; [by intros ? [= <-]|]. split; [|done].
      intros i Hi _. apply list_find_None in Hfind.
      rewrite Forall_forall in Hfind.
      by destruct (Hfind _ (list_elem_of_lookup_2 _ _ _ Hi)).
Qed.

(** With [--urls] given twice, the URLs after the first one are taken
    and the second [--urls], which starts with two dashes, ends them. *)
Example first_urls_flag_is_taken :
  fst (Cli.collectUrls (fun _ => inl (Sample.failure "ENOENT"))
         [lit "batch"; lit "--urls"; lit "http://a"; lit "--urls";
          lit "http://b"]
         Sample.world)
  = Ok [lit "http://a"].
Proof. by vm_compute. Qed.

Lemma flagValue_truthy (args : list jsstring) (flag : string) :
  flagValue args flag = None \/ truthy (flagValue args flag) = true.
Proof.
  unfold flagValue. destruct (list_find _ args) as [[i arg]|]; [|by left].
  cbv zeta. destruct (truthy (args !! (i + 1)%nat)) eqn:H; by auto.
Qed.

Lemma orElse_truthy (a b : option jsstring) :
  truthy a = true -> Cli.orElse a b = a.
Proof. unfold Cli.orElse. by intros ->. Qed.

Lemma orElse_None (a : option jsstring) :
  a = None \/ truthy a = true -> Cli.orElse a None = a.
Proof. unfold Cli.orElse. intros [-> | ->]; done. Qed.

(** X14. The tags of an update: each of company and job title is the
    first truthy value among the flag of the command line, what the
    URL gives when there is a URL, and what the job description
    gives; a flag always wins, and with both flags neither extractor
    matters.  Whether an extractor is consulted depends on both
    fields, the value of each field does not.  The URL is passed
    through as it is. *)
Theorem metadata_prefers_flag_then_url_then_jd
    (extractMetadataFromUrl extractMetadataFromJD
       : jsstring -> option jsstring * option jsstring)
    (args : list jsstring) (jobDescription : jsstring)
    (jobUrl : option jsstring) :
  let metadata :=
    Cli.getMetadata extractMetadataFromUrl extractMetadataFromJD args
                    jobDescription jobUrl in
  let fromUrl :=
    if truthy jobUrl then extractMetadataFromUrl (default [] jobUrl)
    else (None, None) in
  let fromJD := extractMetadataFromJD jobDescription in
  Metadata.jobUrl metadata = jobUrl
  /\ Metadata.company metadata
     = firstTruthy (flagValue args "--company") (fst fromUrl) (fst fromJD)
  /\ Metadata.jobTitle metadata
     = firstTruthy (flagValue args "--job-title") (snd fromUrl) (snd fromJD)
  /\ (forall company, flagValue args "--company" = Some company ->
        Metadata.company metadata = Some company)
  /\ (forall jobTitle, flagValue args "--job-title" = Some jobTitle ->
        Metadata.jobTitle metadata = Some jobTitle).
Proof.
  cbv zeta.
  pose proof (flagValue_truthy args "--company") as Hc.
  pose proof (flagValue_truthy args "--job-title") as Ht.
  match goal with
  | |- ?A /\ ?B /\ ?C /\ _ => assert (A /\ B /\ C) as (HA & HB & HC)
  end.
  2: { split; [done|]. split; [done|]. split; [done|]. split.
       - intros company Hflag. rewrite HB, Hflag in *.
         destruct Hc as [|Hc]; [done|]. unfold firstTruthy.
         by rewrite !(orElse_truthy _ _ Hc).
       - intros jobTitle Hflag. rewrite HC, Hflag in *.
         destruct Ht as [|Ht]; [done|]. unfold firstTruthy.
         by rewrite !(orElse_truthy _ _ Ht). }
  unfold Cli.getMetadata, firstTruthy, Cli.orElse.
  revert Hc Ht.
  generalize (flagValue args "--company") (flagValue args "--job-title").
  intros c t Hc Ht.
  destruct (extractMetadataFromUrl (default [] jobUrl)) as [uc ut].
  destruct (extractMetadataFromJD jobDescription) as [jc jt].
  destruct Hc as [-> | Hc], Ht as [-> | Ht].
  all: repeat first
         [ progress cbn [negb orb andb fst snd truthy]
         | match goal with
           | H : truthy ?x = _ |- context [truthy ?x] => rewrite H
           | |- context [truthy ?x] => is_var x; destruct (truthy x) eqn:?
           end ].
  all: done.
Qed.

(** ** Search and the tables *)

Section TableFacts.

Variable toLowerCase : jsstring -> jsstring.
Variable toLocaleString : jsstring -> jsstring.

Lemma indexed_positions {A} (l : list A) :
  map fst (imap (fun i x => (i, x)) l) = seq 0 (length l).
Proof.
  change (map fst (imap (fun i x => (i, x)) l))
    with (fst <$> imap (fun i x => (i, x)) l).
  rewrite fmap_imap.
  rewrite (imap_ext _ (fun j _ => j)) by done.
  rewrite (imap_seq_0 l (fun j => j)). by rewrite list_fmap_id.
Qed.

Lemma elem_of_indexed {A} (l : list A) (i : nat) (x : A) :
  (i, x) ∈ imap (fun i x => (i, x)) l <-> l !! i = Some x.
Proof.
  rewrite elem_of_lookup_imap. split.
  - by intros (j & y & [= -> ->] & Hl).
  - intros Hl. by exists i, x.
Qed.

(** X15. [search] skips the command word and takes the first argument
    after it that is not a flag.  With a term, it makes no request
    and leaves the log alone; the rows it prints are the entries whose
    company or job title, in lower case, contains the term in lower
    case, in the order of the log, and the Index of a row is the
    position of its entry in the whole log.  An entry with neither a
    company nor a job title is never printed. *)
Theorem search_rows_carry_log_positions (args : list jsstring)
    (searchTerm : jsstring) (w : World) :
  firstPlainArg (drop 1 args) = Some searchTerm ->
  searchTerm <> [] ->
  let localEntries := entriesOf (logFile w) in
  let hit (entry : VersionLogEntry) : bool :=
    Cli.mentions toLowerCase (company entry) (toLowerCase searchTerm)
    || Cli.mentions toLowerCase (jobTitle entry) (toLowerCase searchTerm) in
  exists rows,
    Cli.handleSearch toLowerCase toLocaleString args w = (Ok rows, w)
    /\ map Cli.SearchRow.Index rows `sublist_of` seq 0 (length localEntries)
    /\ (forall i,
          i ∈ map Cli.SearchRow.Index rows
          <-> exists entry, localEntries !! i = Some entry /\ hit entry = true)
    /\ (forall row, row ∈ rows ->
          exists entry,
            localEntries !! Cli.SearchRow.Index row = Some entry
            /\ Cli.SearchRow.RevisionID row = Cli.shortId (revisionId entry)
            /\ Cli.SearchRow.Company row = Cli.orDash (company entry)
            /\ Cli.SearchRow.JobTitle row = Cli.orDash (jobTitle entry)
            /\ Cli.SearchRow.ChangeCount row = length (Types.changes entry))
    /\ (forall entry,
          company entry = None -> jobTitle entry = None -> hit entry = false).
Proof.
  intros Harg Hterm localEntries hit. unfold Cli.handleSearch.
  rewrite Harg.
  assert (truthy (Some searchTerm) = true) as ->
    by by destruct searchTerm.
  cbn [negb]. rewrite bind_run, readVersionLog_run.
  fold localEntries. unfold mret, M_ret, ret.
  eexists. split; [reflexivity|].
  set (indexed := imap (fun originalIndex entry => (originalIndex, entry))
                       localEntries).
  set (matches := filter _ indexed).
  assert (forall i entry,
            (i, entry) ∈ matches
            <-> localEntries !! i = Some entry /\ hit entry = true)
    as Hmatches.
  { intros i entry. unfold matches. rewrite list_elem_of_filter.
    unfold indexed. rewrite elem_of_indexed. cbn [fst snd].
    fold (hit entry). rewrite Is_true_true. tauto. }
  rewrite map_map. cbn [Cli.SearchRow.Index].
  split.
  { change (map (fun x : nat * VersionLogEntry => fst x) matches)
      with (fst <$> matches).
    rewrite <- (indexed_positions localEntries). fold indexed.
    change (map fst indexed) with (fst <$> indexed).
    apply fmap_sublist. apply sublist_filter. }
  split.
  { intros i.
    change (map (fun x : nat * VersionLogEntry => fst x) matches)
      with (fst <$> matches).
    rewrite list_elem_of_fmap. split.
    - intros ([j entry] & -> & Hin). apply Hmatches in Hin. by exists entry.
    - intros (entry & Hin). exists (i, entry). split; [done|].
      by apply Hmatches. }
  split.
  { intros row Hrow.
    change (map ?f matches) with (f <$> matches) in Hrow.
    apply list_elem_of_fmap in Hrow as ([i entry] & -> & Hin).
    apply Hmatches in Hin as [Hin _]. by exists entry. }
  intros entry Hc Ht. unfold hit. by rewrite Hc, Ht.
Qed.

(** X16. The table of [list]: the rows are entries of the log in the
    order of the log, all of them when no filter is given and
    otherwise only those whose company, and whose job title, contains
    the filter given for it; the Index of a row is its rank among the
    rows printed, which with a filter is not the position of the
    entry in the log that [revert], [tag] and [export] take. *)
Theorem list_rows_are_numbered_by_rank (env : Services)
    (args : list jsstring) (w : World) :
  let (o, w') := Cli.handleList_table toLowerCase toLocaleString env args w in
  logFile w' = logFile w
  /\ forall rows, o = Ok rows ->
       exists shown,
         shown `sublist_of` entriesOf (logFile w)
         /\ length rows = length shown
         /\ (forall k row, rows !! k = Some row ->
               Cli.ListRow.Index row = k
               /\ exists entry,
                    shown !! k = Some entry
                    /\ Cli.ListRow.RevisionID row
                       = Cli.shortId (revisionId entry)
                    /\ Cli.ListRow.Type_ row
                       = (if isRevert entry then lit "Revert"
                          else lit "Update"))
         /\ (Cli.filterOf ["--company"%string; "-c"%string] args = None ->
             Cli.filterOf ["--job"%string; "--job-title"%string; "-j"%string]
                          args = None ->
             shown = entriesOf (logFile w))
         /\ (forall companyFilter,
               Cli.filterOf ["--company"%string; "-c"%string] args
               = Some companyFilter ->
               Forall (fun entry =>
                         Cli.mentions toLowerCase (company entry)
                                      (toLowerCase companyFilter) = true)
                      shown)
         /\ (forall jobFilter,
               Cli.filterOf ["--job"%string; "--job-title"%string; "-j"%string]
                            args = Some jobFilter ->
               Forall (fun entry =>
                         Cli.mentions toLowerCase (jobTitle entry)
                                      (toLowerCase jobFilter) = true)
                      shown).
Proof.
  unfold Cli.handleList_table. cbv zeta.
  rewrite bind_run.
  pose proof (getRevisions_run env w) as Hrev.
  destruct (getRevisions env w) as [[driveRevisions|e|c] w1].
  2,3: destruct (drive_client env) as [?|[]];
    [by injection Hrev as _ ->
    |destruct (revisions_list env) as [?|[?|]]; by injection Hrev as _ ->].
  assert (logFile w1 = logFile w) as Hlog.
  { destruct (drive_client env) as [?|[]]; by injection Hrev as _ ->. }
  clear Hrev. rewrite bind_run, readVersionLog_run, Hlog.
  unfold mret, M_ret, ret. split; [done|]. intros rows [= <-].
  set (companyFilter :=
         Cli.filterOf ["--company"%string; "-c"%string] args).
  set (jobFilter :=
         Cli.filterOf ["--job"%string; "--job-title"%string; "-j"%string]
                      args).
  set (byCompany := match companyFilter with
                    | Some companyFilter => filter _ (entriesOf (logFile w))
                    | None => entriesOf (logFile w)
                    end).
  set (shown := match jobFilter with
                | Some jobFilter => filter _ byCompany
                | None => byCompany
                end).
  exists shown.
  assert (byCompany `sublist_of` entriesOf (logFile w)) as Hsub1.
  { subst byCompany. destruct companyFilter; [|reflexivity].
    apply sublist_filter. }
  assert (forall entry, entry ∈ shown -> entry ∈ byCompany) as Hsub2.
  { subst shown. destruct jobFilter; [|done].
    intros entry Hin. by apply list_elem_of_filter in Hin as [_ ?]. }
  assert (shown `sublist_of` byCompany) as Hsub3.
  { subst shown. destruct jobFilter; [|reflexivity].
    apply sublist_filter. }
  split; [by etrans|]. split; [by rewrite length_imap|].
  split.
  { intros i row Hrow. apply list_lookup_imap_Some in Hrow
      as (entry & Hentry & ->). split; [done|]. by exists entry. }
  split.
  { intros Hc Hj. subst shown byCompany. by rewrite Hc, Hj. }
  split.
  - intros filter Hc. apply Forall_forall. intros entry Hin.
    apply Hsub2 in Hin. subst byCompany. rewrite Hc in Hin.
    apply list_elem_of_filter in Hin as [Hin _]. by apply Is_true_true.
  - intros filter Hj. apply Forall_forall. intros entry Hin.
    subst shown. rewrite Hj in Hin.
    apply list_elem_of_filter in Hin as [Hin _]. by apply Is_true_true.
Qed.

End TableFacts.

Lemma search_rows_carry_log_positions_witness :
  let w :=
    {| logFile :=
         Holds [Sample.entry "r1";
                {| revisionId := lit "r2";
                   timestamp := lit "2025-01-02T00:00:00.000Z";
                   jobTitle := Some (lit "engineer");
                   company := Some (lit "acme");
                   jobUrl := None;
                   Types.changes := [];
                   isRevert := false |}];
       trace := [] |} in
  let args := [lit "search"; lit "acme"] in
  exists rows,
    Cli.handleSearch (fun s => s) (fun s => s) args w = (Ok rows, w)
    /\ map Cli.SearchRow.Index rows `sublist_of` [0; 1]%nat
    /\ (1%nat ∈ map Cli.SearchRow.Index rows)
    /\ (0%nat ∉ map Cli.SearchRow.Index rows).
Proof.
  cbv zeta.
  match goal with
  | |- context [Cli.handleSearch ?lower ?locale ?args ?w] =>
      destruct (search_rows_carry_log_positions lower locale args
                  (lit "acme") w)
        as (rows & Hrun & Hsub & Hrows & _)
  end.
  - by vm_compute.
  - done.
  - exists rows. split; [exact Hrun|]. split; [exact Hsub|]. split.
    + apply Hrows. eexists. split; [reflexivity|]. by vm_compute.
    + intros (entry & Hentry & Hhit)%Hrows.
      injection Hentry as <-. by vm_compute in Hhit.
Defined.


(** A log of three entries of which the last two are of one company:
    [list --company acme] prints them with the indices 0 and 1, while
    their positions in the log are 1 and 2. *)
Example filtered_list_renumbers :
  let tagged (revision name : jsstring) :=
    {| revisionId := revision;
       timestamp := lit "2025-01-02T00:00:00.000Z";
       jobTitle := None;
       company := Some name;
       jobUrl := None;
       Types.changes := [];
       isRevert := false |} in
  let w :=
    {| logFile := Holds [tagged (lit "r1") (lit "initech");
                         tagged (lit "r2") (lit "acme");
                         tagged (lit "r3") (lit "acme")];
       trace := [] |} in
  match Cli.handleList_table (fun s => s) (fun s => s) Sample.services
                             [lit "list"; lit "--company"; lit "acme"] w with
  | (Ok rows, _) =>
      map (fun row => (Cli.ListRow.Index row, Cli.ListRow.RevisionID row))
          rows
      = [(0%nat, lit "r2..."); (1%nat, lit "r3...")]
  | _ => False
  end.
Proof. by vm_compute. Qed.

(** ** The name of an exported file *)

Lemma sanitize_safe (s : jsstring) : Forall fileNameSafe (Cli.sanitize s).
Proof.
  unfold Cli.sanitize. apply Forall_forall. intros c Hc.
  change (map ?f s) with (f <$> s) in Hc.
  apply list_elem_of_fmap in Hc as (c0 & -> & _). unfold fileNameSafe.
  destruct (Cli.isAlnum c0) eqn:H; by auto.
Qed.

Lemma fileNamePart_safe (value : option jsstring) (fallback : string) :
  Forall fileNameSafe (lit fallback) ->
  lit fallback <> [] ->
  Cli.fileNamePart value fallback <> []
  /\ Forall fileNameSafe (Cli.fileNamePart value fallback).
Proof.
  intros Hsafe Hne. unfold Cli.fileNamePart.
  destruct value as [value|]; [|done].
  destruct (truthy (Some (Cli.sanitize value))) eqn:Htruthy; [|done].
  split; [|apply sanitize_safe]. by destruct (Cli.sanitize value).
Qed.

(** X17. The file name of an export is [resume-], a company part, a
    dash, a job title part, a dash, the day and the extension.  Each
    of the two parts is never empty and holds only letters, digits
    and dashes, so neither brings a path separator or a dot into the
    name: it is the tag with every other code unit replaced by a
    dash, and [unknown] or [untitled] when the tag is missing or
    empty.  The extension is [docx] when the argument after the first
    [--format] is exactly [docx], and [pdf] in every other case. *)
Theorem export_file_name_is_safe (targetEntry : VersionLogEntry)
    (day : jsstring) (args : list jsstring) :
  exists company jobTitle,
    Cli.exportFileName targetEntry day (Cli.exportFormat args)
    = lit "resume-" ++ company ++ lit "-" ++ jobTitle ++ lit "-" ++ day
      ++ lit "." ++ Cli.exportFormat args
    /\ company <> [] /\ Forall fileNameSafe company
    /\ jobTitle <> [] /\ Forall fileNameSafe jobTitle
    /\ length company
       = (if truthy (Types.company targetEntry)
          then length (default [] (Types.company targetEntry))
          else 7%nat)
    /\ (Cli.exportFormat args = lit "docx"
        \/ Cli.exportFormat args = lit "pdf")
    /\ (Cli.exportFormat args = lit "docx" <->
        exists formatIndex,
          list_find (fun arg => arg = lit "--format") args
          = Some (formatIndex, lit "--format")
          /\ args !! S formatIndex = Some (lit "docx")).
Proof.
  exists (Cli.fileNamePart (Types.company targetEntry) "unknown"),
         (Cli.fileNamePart (Types.jobTitle targetEntry) "untitled").
  split; [done|].
  destruct (fileNamePart_safe (Types.company targetEntry) "unknown")
    as [Hc1 Hc2]; [by repeat constructor; vm_compute; auto|done|].
  destruct (fileNamePart_safe (Types.jobTitle targetEntry) "untitled")
    as [Ht1 Ht2]; [by repeat constructor; vm_compute; auto|done|].
  do 4 (split; [done|]). split.
  { unfold Cli.fileNamePart, Cli.sanitize.
    destruct (Types.company targetEntry) as [[|c value]|]; try done.
    cbn [map truthy default length]. by rewrite length_map. }
  unfold Cli.exportFormat.
  destruct (list_find _ args) as [[formatIndex arg]|] eqn:Hfind.
  - pose proof Hfind as (_ & -> & _)%list_find_Some.
    case_bool_decide as Hdocx.
    + split; [by left|]. split; [|done]. intros _. by exists formatIndex.
    + split; [by right|]. split; [done|].
      intros (i & [= <-] & Hi). by destruct Hdocx.
  - split; [by right|]. split; [done|]. by intros (i & ? & _).
Qed.

(** ** Discovering jobs and the job queue *)

Section MonitorFacts.

Variable isUrl : jsstring -> bool.
Variable toLowerCase : jsstring -> jsstring.
Variable hasFirecrawlKey : bool.
Variable careerPage : jsstring -> Answer jsstring.
Variable extractJobPostings : jsstring -> jsstring -> list Monitor.JobQueueEntry.
Variable queueWrite : WriteOutcome.

Abbreviation filterJobs := (Monitor.filterJobs toLowerCase).
Abbreviation discoverJobs :=
  (Monitor.discoverJobs toLowerCase hasFirecrawlKey careerPage
                        extractJobPostings).
Abbreviation discoverAll :=
  (Monitor.discoverAll toLowerCase hasFirecrawlKey careerPage
                       extractJobPostings).
Abbreviation monitorCompanies :=
  (Monitor.monitorCompanies isUrl toLowerCase hasFirecrawlKey careerPage
                            extractJobPostings queueWrite).

Lemma bindQ_run {A B} (m : Monitor.MQ A) (k : A -> Monitor.MQ B)
    (s : Monitor.Store) :
  (m ≫= k) s =
  match m s with
  | (Ok a, s') => k a s'
  | (Threw e, s') => (Threw e, s')
  | (Exited c, s') => (Exited c, s')
  end.
Proof. reflexivity. Qed.

Lemma readJobQueue_run (s : Monitor.Store) :
  Monitor.readJobQueue isUrl s = (Ok (jobsOf isUrl (Monitor.queue s)), s).
Proof.
  unfold Monitor.readJobQueue. rewrite bindQ_run.
  unfold Monitor.getQueue, jobsOf.
  destruct (Monitor.queue s) as [|jobs|jobs]; try done.
  by destruct (forallb _ jobs).
Qed.

(** X18. The filter of a company keeps the jobs in their order and
    looks only at the roles: the jobs kept are those whose title in
    lower case contains one of the roles in lower case, all the jobs
    when no role is given, and the [locations] of the company change
    nothing. *)
Theorem job_filter_reads_only_the_roles
    (jobs : list Monitor.JobQueueEntry) (name careerPageUrl : jsstring)
    (roles locations locations' : option (list jsstring)) :
  let company locations :=
    {| Monitor.name := name;
       Monitor.careerPageUrl := careerPageUrl;
       Monitor.filters :=
         Some {| Monitor.roles := roles;
                 Monitor.locations := locations |} |} in
  filterJobs jobs (company locations) = filterJobs jobs (company locations')
  /\ filterJobs jobs (company locations) `sublist_of` jobs
  /\ (roles = None \/ roles = Some [] ->
      filterJobs jobs (company locations) = jobs)
  /\ (forall wanted job,
        roles = Some wanted -> wanted <> [] ->
        job ∈ filterJobs jobs (company locations)
        <-> job ∈ jobs
            /\ exists role,
                 role ∈ wanted
                 /\ includes (toLowerCase (Monitor.jobTitle job))
                             (toLowerCase role) = true).
Proof.
  cbv zeta. unfold Monitor.filterJobs. cbn [Monitor.filters].
  split; [done|]. split; [apply sublist_filter|]. split.
  - intros Hroles. unfold Monitor.keepsJob. cbn [Monitor.roles].
    induction jobs as [|job rest IH]; [done|].
    rewrite filter_cons, IH.
    by destruct Hroles as [-> | ->].
  - intros wanted job -> Hne. rewrite list_elem_of_filter.
    unfold Monitor.keepsJob. cbn [Monitor.roles].
    destruct wanted as [|role wanted]; [done|].
    change (0 <? length (role :: wanted))%nat with true. cbv iota zeta.
    rewrite Is_true_true, existsb_exists.
    setoid_rewrite <- list_elem_of_In. tauto.
Qed.

Lemma discoverJobs_returns (company : Monitor.CompanyConfig) (w : World) :
  hasFirecrawlKey = true ->
  discoverJobs company w
  = (Ok (discovered toLowerCase careerPage extractJobPostings company),
     addTrace (Scrape (Monitor.careerPageUrl company)) w).
Proof.
  intros Hkey. unfold Monitor.discoverJobs, discovered. rewrite Hkey.
  cbn [negb]. unfold tryCatch. rewrite bind_run, call_run.
  by destruct (careerPage (Monitor.careerPageUrl company)).
Qed.

(** X19. [discoverJobs] never touches the log.  Without the key of
    the scraping service it throws before any request; with it, it
    makes one request for the career page and always returns: the
    postings of the page that pass the filter of the company, and the
    empty list when anything fails, which the caller cannot tell from
    a page without postings. *)
Theorem discovery_failure_is_an_empty_result
    (company : Monitor.CompanyConfig) (w : World) :
  let (o, w') := discoverJobs company w in
  logFile w' = logFile w
  /\ if hasFirecrawlKey then
       trace w' = trace w ++ [Scrape (Monitor.careerPageUrl company)]
       /\ o = Ok match careerPage (Monitor.careerPageUrl company) with
                 | inl _ => []
                 | inr markdown =>
                     filterJobs
                       (extractJobPostings markdown (Monitor.name company))
                       company
                 end
     else trace w' = trace w /\ exists e, o = Threw e.
Proof.
  unfold Monitor.discoverJobs.
  destruct hasFirecrawlKey; cbn [negb]; [|unfold throw; by eauto].
  unfold tryCatch. rewrite bind_run, call_run.
  by destruct (careerPage (Monitor.careerPageUrl company)).
Qed.

Lemma discoverAll_run (companies : list Monitor.CompanyConfig)
    (allJobs : list Monitor.JobQueueEntry) (w : World) :
  hasFirecrawlKey = true ->
  discoverAll companies allJobs w
  = (Ok (allJobs
         ++ concat (map (discovered toLowerCase careerPage extractJobPostings)
                        companies)),
     {| logFile := logFile w;
        trace := trace w ++ discoveryTrace companies |}).
Proof.
  intros Hkey. revert allJobs w.
  induction companies as [|company rest IH]; intros allJobs w.
  - cbn. rewrite !app_nil_r. by destruct w.
  - cbn [Monitor.discoverAll]. rewrite bind_run.
    rewrite (discoverJobs_returns company w Hkey).
    rewrite bind_run, call_run, IH.
    cbn [addTrace logFile trace map concat discoveryTrace flat_map].
    by rewrite <- !app_assoc.
Qed.

Lemma discoverAll_no_key (company : Monitor.CompanyConfig)
    (rest : list Monitor.CompanyConfig) (w : World) :
  hasFirecrawlKey = false ->
  discoverAll (company :: rest) [] w
  = (Threw (newError (lit "FIRECRAWL_API_KEY required for job discovery")),
     w).
Proof.
  intros Hkey. cbn [Monitor.discoverAll]. rewrite bind_run.
  unfold Monitor.discoverJobs. by rewrite Hkey.
Qed.

(** X20. [monitorCompanies] with a write of the queue file that
    completes.  It leaves the version log alone.  Without the key of
    the scraping service, and with a company to visit, it throws at
    the first company and nothing else happens.  Otherwise it returns
    all the jobs discovered, those of each company in the order of
    the companies, after one request and one wait of 1000 ms per
    company.  The jobs it adds are the discovered jobs whose URL is
    not the URL of a job read from the queue; when there is none the
    queue file is not written, and otherwise it holds the jobs read
    from the queue, in their order, followed by the added ones.  The
    jobs read from the queue are none when one stored job fails the
    URL check of the schema: the file is then rewritten with the new
    jobs only. *)
Theorem monitor_adds_only_unqueued_urls
    (companies : list Monitor.CompanyConfig) (s : Monitor.Store) :
  queueWrite = WriteCompletes ->
  let existingQueue := jobsOf isUrl (Monitor.queue s) in
  let allJobs :=
    concat (map (discovered toLowerCase careerPage extractJobPostings)
                companies) in
  let newJobs :=
    filter (fun j => Monitor.url j ∉ map Monitor.url existingQueue)
           allJobs in
  let (o, s') := monitorCompanies companies s in
  logFile (Monitor.world s') = logFile (Monitor.world s)
  /\ match companies with
     | [] =>
         o = Ok []
         /\ Monitor.queue s' = Monitor.queue s
         /\ requestsOf (trace (Monitor.world s'))
            = requestsOf (trace (Monitor.world s))
     | _ :: _ =>
         if hasFirecrawlKey then
           o = Ok allJobs
           /\ trace (Monitor.world s')
              = trace (Monitor.world s) ++ discoveryTrace companies
           /\ Monitor.queue s'
              = (if decide (newJobs = []) then Monitor.queue s
                 else Monitor.Queued (existingQueue ++ newJobs))
         else
           (exists e, o = Threw e) /\ s' = s
     end.
Proof.
  intros Hwrite existingQueue allJobs newJobs.
  unfold Monitor.monitorCompanies.
  destruct companies as [|company rest].
  { rewrite bool_decide_eq_true_2 by done. rewrite bindQ_run.
    unfold Monitor.liftQ, consoleError, mret, Monitor.MQ_ret, Monitor.retQ.
    cbn [Monitor.world Monitor.queue logFile trace].
    by rewrite requestsOf_consoleError. }
  rewrite bool_decide_eq_false_2 by done.
  rewrite bindQ_run. unfold Monitor.liftQ at 1.
  pose proof (discoverAll_run (company :: rest) [] (Monitor.world s)) as Hyes.
  pose proof (discoverAll_no_key company rest (Monitor.world s)) as Hno.
  destruct hasFirecrawlKey.
  2: { rewrite Hno by done. cbn [Monitor.world logFile].
       split; [done|]. split; [by eexists|]. by destruct s. }
  rewrite Hyes by done. cbn [app]. fold allJobs.
  rewrite bindQ_run, readJobQueue_run.
  cbn [Monitor.queue Monitor.world]. fold existingQueue. cbv zeta.
  set (added := filter _ allJobs).
  assert (added = newJobs) as ->.
  { subst added newJobs. apply list_filter_iff. intros j.
    by rewrite elem_of_list_to_set. }
  rewrite bindQ_run.
  destruct newJobs as [|j newJobs'] eqn:Hnew.
  - by cbn.
  - change (0 <? length (j :: newJobs'))%nat with true. cbv iota.
    unfold Monitor.writeJobQueue. rewrite Hwrite.
    rewrite decide_False by done. by cbn.
Qed.

End MonitorFacts.

(** One company whose page lists a job that is already queued and a
    new one: both are returned and only the new one is added. *)
Lemma monitor_adds_only_unqueued_urls_witness :
  let job (path : jsstring) :=
    {| Monitor.company := lit "Acme";
       Monitor.url := lit "https://acme.example/jobs/" ++ path;
       Monitor.jobTitle := lit "Engineer";
       Monitor.discoveredAt := lit "2025-01-01T00:00:00.000Z" |} in
  let company :=
    {| Monitor.name := lit "Acme";
       Monitor.careerPageUrl := lit "https://acme.example/careers";
       Monitor.filters := None |} in
  let s := {| Monitor.queue := Monitor.Queued [job (lit "1")];
              Monitor.world := Sample.world |} in
  let (o, s') :=
    Monitor.monitorCompanies
      (fun _ => true) (fun t => t) true (fun _ => inr (lit "# Careers"))
      (fun _ _ => [job (lit "1"); job (lit "2")]) WriteCompletes
      [company] s in
  o = Ok [job (lit "1"); job (lit "2")]
  /\ Monitor.queue s' = Monitor.Queued [job (lit "1"); job (lit "2")].
Proof.
  cbv zeta.
  match goal with
  | |- let (o, s') :=
         Monitor.monitorCompanies ?isUrl ?lower ?key ?page ?extract ?write
                                  ?companies ?s in _ =>
      pose proof (monitor_adds_only_unqueued_urls
                    isUrl lower key page extract write companies s
                    eq_refl) as H;
      cbv zeta in H;
      destruct (Monitor.monitorCompanies isUrl lower key page extract write
                                         companies s) as [o s']
  end.
  destruct H as (_ & -> & _ & ->). by vm_compute.
Defined.

Section ProcessFacts.

Variable isUrl : jsstring -> bool.
Variable toLowerCase : jsstring -> jsstring.
Variable hasFirecrawlKey : bool.
Variable careerPage : jsstring -> Answer jsstring.
Variable extractJobPostings : jsstring -> jsstring -> list Monitor.JobQueueEntry.
Variable queueWrite : WriteOutcome.
Variable envs : nat -> Services.

Lemma processJob_run (env : Services) (dryRun : bool)
    (job : Monitor.JobQueueEntry) (w : World) :
  exists b w',
    Monitor.processJob env dryRun job w = (Ok b, w')
    /\ (dryRun = true ->
        logFile w' = logFile w
        /\ docMutations (trace w') = docMutations (trace w)).
Proof.
  unfold Monitor.processJob, tryCatch. rewrite bind_run.
  destruct (fetchJobDescriptionFromUrl_run env (Monitor.url job))
    as (o0 & Hexit & Hrun).
  destruct (Hrun w) as (w0 & -> & Hlog0 & Hdocs0).
  destruct o0 as [jobDescription|e|c]; [| |by destruct (Hexit c)].
  2: { eexists _, _. split; [reflexivity|]. by intros _. }
  rewrite bind_run.
  match goal with
  | |- context [performUpdate env ?jd ?u ?md dryRun ?w1] =>
      pose proof (returns_performUpdate env jd u md dryRun w1) as [r Hr];
      pose proof (performUpdate_log env jd u md dryRun w1) as Hlog;
      destruct (performUpdate env jd u md dryRun w1) as [o w']
  end.
  cbn in Hr. subst o. eexists _, _. split; [reflexivity|].
  intros ->. destruct Hlog as [-> Hdocs]. rewrite (Hdocs eq_refl).
  by rewrite Hlog0, Hdocs0.
Qed.

(** The result of a job: true exactly when the job goes through. *)
Lemma processJob_result (env : Services) (dryRun : bool)
    (job : Monitor.JobQueueEntry) (w : World) :
  exists b,
    fst (Monitor.processJob env dryRun job w) = Ok b
    /\ (b = true <-> goesThrough env (Monitor.url job) dryRun w).
Proof.
  unfold Monitor.processJob, tryCatch, goesThrough. rewrite bind_run.
  destruct (fetchJobDescriptionFromUrl_run env (Monitor.url job))
    as (o & Hexit & Hrun).
  destruct (Hrun w) as (w0 & -> & _). cbn [fst].
  destruct o as [jobDescription|e|c]; [| |by destruct (Hexit c)].
  - rewrite bind_run.
    match goal with
    | |- context [performUpdate env ?jd ?u ?md dryRun w0] =>
        destruct (performUpdate_success env jd u md dryRun w0)
          as (res & Hres & Hiff & _);
        destruct (performUpdate env jd u md dryRun w0) as [o w1]
    end.
    cbn in Hres. subst o. eexists. split; [reflexivity|].
    rewrite orb_false_r, Hiff. split.
    + intros Hsteps. split; [by eexists|]. by apply (stepsReturn_steady _ _ w0).
    + intros [_ Hsteps]. by apply (stepsReturn_steady _ _ w).
  - eexists. split; [reflexivity|]. split; [done|]. by intros [[? ?] _].
Qed.

Lemma steady_processJob (env : Services) (dryRun : bool)
    (job : Monitor.JobQueueEntry) :
  steady (Monitor.processJob env dryRun job).
Proof.
  apply steady_tryCatch; [|intros; apply steady_ret].
  apply steady_bind; [apply steady_fetchJobDescriptionFromUrl|].
  intros jobDescription.
  apply steady_bind; [apply steady_performUpdate | intros; apply steady_ret].
Qed.

Lemma processFrom_run (dryRun : bool) (jobs : list Monitor.JobQueueEntry)
    (i : nat) (acc : list bool) (w : World) :
  exists rs w',
    Monitor.processFrom envs dryRun jobs i acc w = (Ok (acc ++ rs), w')
    /\ length rs = length jobs
    /\ (forall j job, jobs !! j = Some job ->
          forall w0, exists b,
            rs !! j = Some b
            /\ fst (Monitor.processJob (envs (i + j)) dryRun job w0) = Ok b)
    /\ (dryRun = true ->
        logFile w' = logFile w
        /\ docMutations (trace w') = docMutations (trace w)).
Proof.
  revert i acc w. induction jobs as [|job rest IH]; intros i acc w.
  - exists [], w. rewrite app_nil_r. by repeat split.
  - cbn [Monitor.processFrom]. rewrite bind_run.
    destruct (processJob_run (envs i) dryRun job w) as (b & w1 & Hrun & Hdry).
    rewrite Hrun.
    destruct (IH (S i) (acc ++ [b]) w1)
      as (rs & w' & -> & Hlen & Hitems & Hdry').
    exists (b :: rs), w'. rewrite <- app_assoc. split; [done|].
    split; [cbn; by rewrite Hlen|]. split.
    + intros [|j] job' Hjob w0; cbn in Hjob.
      * injection Hjob as <-. exists b. split; [done|].
        rewrite Nat.add_0_r, (steady_processJob (envs i) dryRun job w0 w).
        by rewrite Hrun.
      * destruct (Hitems j job' Hjob w0) as (b' & Hb' & Hitem). exists b'.
        split; [done|]. by rewrite <- Nat.add_succ_comm.
    + intros Hd. destruct (Hdry Hd) as [<- <-]. by apply Hdry'.
Qed.

Lemma remainingOf_from (pre : list bool) (jobs : list Monitor.JobQueueEntry)
    (results : list bool) :
  length results = length jobs ->
  map snd
      (filter (fun indexed : nat * Monitor.JobQueueEntry =>
                 negb (default false ((pre ++ results) !! fst indexed)))
              (imap (fun i job => ((length pre + i)%nat, job)) jobs))
  = map fst (filter (fun p => negb (snd p)) (zip jobs results)).
Proof.
  revert pre results. induction jobs as [|job rest IH];
    intros pre [|b results] Hlen; try done.
  rewrite imap_cons. cbn [zip zip_with]. rewrite !filter_cons.
  cbn [fst snd]. rewrite Nat.add_0_r, list_lookup_middle by done.
  cbn [default].
  assert (map snd
            (filter (fun indexed : nat * Monitor.JobQueueEntry =>
                       negb (default false
                               ((pre ++ b :: results) !! fst indexed)))
                    (imap ((fun i job => ((length pre + i)%nat, job)) ∘ S)
                          rest))
          = map fst (filter (fun p => negb (snd p)) (zip rest results)))
    as Hrest.
  { rewrite <- (IH (pre ++ [b]) results) by (cbn in Hlen; lia).
    rewrite <- app_assoc. cbn [app].
    rewrite (imap_ext _ (fun i job => ((length (pre ++ [b]) + i)%nat, job)));
      [done|].
    intros i x _. cbn. rewrite length_app. cbn. f_equal. lia. }
  destruct b; cbn [negb default from_option Datatypes.id fst snd].
  - destruct (decide (Is_true false)) as [[]|_]. exact Hrest.
  - destruct (decide (Is_true true)) as [_|[]]; [|done].
    cbn [map fst snd]. by rewrite Hrest.
Qed.

Lemma remainingOf_zip (jobs : list Monitor.JobQueueEntry)
    (results : list bool) :
  length results = length jobs ->
  Monitor.remainingOf jobs results
  = map fst (filter (fun p => negb (snd p)) (zip jobs results)).
Proof.
  intros Hlen. unfold Monitor.remainingOf.
  by rewrite <- (remainingOf_from [] jobs results Hlen).
Qed.

(** X21. [monitor --process] with a queue that reads as a list of
    jobs that is not empty, and a write of the queue file that
    completes: every job is run through the update, with the answers
    of the services of its position and whatever the others did.  The
    result of a job is a success exactly when its job description was
    fetched and every step of its update returned; an error thrown
    for a job makes its result a failure.  The queue file ends up
    holding the jobs whose result is a failure, in their order.  A
    job whose update succeeded leaves the queue also in a dry run,
    which changes neither the log nor the document. *)
Theorem processing_keeps_the_jobs_that_failed
    (companies : list Monitor.CompanyConfig) (argv : list jsstring)
    (s : Monitor.Store) :
  lit "--process" ∈ drop 2 argv ->
  queueWrite = WriteCompletes ->
  jobsOf isUrl (Monitor.queue s) <> [] ->
  let jobs := jobsOf isUrl (Monitor.queue s) in
  let dryRun := Cli.isDryRun argv in
  let (o, s') :=
    Monitor.handleMonitor isUrl toLowerCase hasFirecrawlKey careerPage
                          extractJobPostings queueWrite envs companies
                          argv s in
  exists results,
    o = Ok tt
    /\ length results = length jobs
    /\ (forall i job, jobs !! i = Some job ->
          forall w0, exists b,
            results !! i = Some b
            /\ fst (Monitor.processJob (envs i) dryRun job w0) = Ok b
            /\ (b = true
                <-> goesThrough (envs i) (Monitor.url job) dryRun w0))
    /\ Monitor.queue s'
       = Monitor.Queued
           (map fst (filter (fun p => negb (snd p)) (zip jobs results)))
    /\ (dryRun = true ->
        logFile (Monitor.world s') = logFile (Monitor.world s)
        /\ docMutations (trace (Monitor.world s'))
           = docMutations (trace (Monitor.world s))).
Proof.
  intros Hflag Hwrite Hjobs jobs dryRun. unfold Monitor.handleMonitor.
  cbv zeta. rewrite bool_decide_eq_true_2 by done.
  rewrite bindQ_run.
  assert (Monitor.readJobQueue isUrl s = (Ok jobs, s)) as ->.
  { unfold Monitor.readJobQueue. rewrite bindQ_run.
    unfold Monitor.getQueue, jobs, jobsOf.
    destruct (Monitor.queue s) as [|queued|queued]; try done.
    by destruct (forallb _ queued). }
  rewrite bool_decide_eq_false_2.
  2: { intros Hlen. by apply Hjobs, nil_length_inv. }
  rewrite bindQ_run. unfold Monitor.liftQ. fold dryRun.
  destruct (processFrom_run dryRun jobs 0 [] (Monitor.world s))
    as (results & w' & -> & Hlen & Hitems & Hdry).
  cbn [app]. unfold Monitor.writeJobQueue. rewrite Hwrite.
  exists results. rewrite remainingOf_zip by done.
  cbn. split; [done|]. split; [done|]. split; [|done].
  intros i job Hjob w0. destruct (Hitems i job Hjob w0) as (b & Hb & Hitem).
  destruct (processJob_result (envs i) dryRun job w0) as (b' & Hitem' & Hiff).
  cbn [Nat.add] in Hitem. rewrite Hitem in Hitem'. injection Hitem' as <-.
  by exists b.
Qed.

(** X22. A job of the queue whose update succeeds outside a dry run
    is logged with the tags of the queue: the entry appended carries
    the company, the job title and the URL of the job, and is not a
    revert entry. *)
Theorem processed_job_is_logged_with_its_tags (env : Services)
    (job : Monitor.JobQueueEntry) (w w' : World) :
  Monitor.processJob env false job w = (Ok true, w') ->
  exists added,
    logFile w' = Holds (entriesOf (logFile w) ++ [added])
    /\ company added = Some (Monitor.company job)
    /\ jobTitle added = Some (Monitor.jobTitle job)
    /\ jobUrl added = Some (Monitor.url job)
    /\ isRevert added = false
    /\ id <$> latestListed env = Some (revisionId added).
Proof.
  unfold Monitor.processJob, tryCatch. rewrite bind_run.
  destruct (fetchJobDescriptionFromUrl_run env (Monitor.url job))
    as (o0 & Hexit & Hrun).
  destruct (Hrun w) as (w0 & -> & Hlog0 & _).
  destruct o0 as [jobDescription|e|c]; [|done|by destruct (Hexit c)].
  rewrite bind_run.
  match goal with
  | |- context [performUpdate env ?jd ?u ?md false ?w1] =>
      pose proof (performUpdate_appends env jd u md w1) as H;
      destruct (performUpdate env jd u md false w1) as [o w2]
  end.
  destruct H as (r & -> & [(Hs & latest & result & Hlatest & _ & Hlog)
                          |(Hs & _)]).
  2: { unfold mret, M_ret, ret. rewrite Hs. by intros [= ? ?]. }
  unfold mret, M_ret, ret. intros [= _ <-]. rewrite Hlog0 in Hlog.
  eexists. split; [exact Hlog|].
  rewrite Hlatest. by repeat split.
Qed.

End ProcessFacts.

Lemma processed_job_is_logged_with_its_tags_witness :
  let job :=
    {| Monitor.company := lit "Acme";
       Monitor.url := lit "https://acme.example/jobs/1";
       Monitor.jobTitle := lit "Engineer";
       Monitor.discoveredAt := lit "2025-01-01T00:00:00.000Z" |} in
  exists added,
    logFile (snd (Monitor.processJob Sample.services false job Sample.world))
    = Holds (entriesOf (logFile Sample.world) ++ [added])
    /\ company added = Some (lit "Acme")
    /\ jobTitle added = Some (lit "Engineer")
    /\ jobUrl added = Some (lit "https://acme.example/jobs/1")
    /\ isRevert added = false
    /\ id <$> latestListed Sample.services = Some (revisionId added).
Proof.
  cbv zeta.
  match goal with
  | |- context [Monitor.processJob ?env false ?job ?w] =>
      apply (processed_job_is_logged_with_its_tags env job w)
  end.
  by vm_compute.
Defined.

Lemma processing_keeps_the_jobs_that_failed_witness :
  let job (path : jsstring) :=
    {| Monitor.company := lit "Acme";
       Monitor.url := lit "https://acme.example/jobs/" ++ path;
       Monitor.jobTitle := lit "Engineer";
       Monitor.discoveredAt := lit "2025-01-01T00:00:00.000Z" |} in
  let envs (i : nat) : Services :=
    match i with
    | 1%nat => Sample.listingFails
    | _ => Sample.services
    end in
  let s := {| Monitor.queue :=
                Monitor.Queued [job (lit "1"); job (lit "2"); job (lit "3")];
              Monitor.world := Sample.world |} in
  let argv := [lit "node"; lit "main.ts"; lit "monitor"; lit "--process"] in
  let (o, s') :=
    Monitor.handleMonitor (fun _ => true) (fun t => t) true
                          (fun _ => inr (lit "# Careers")) (fun _ _ => [])
                          WriteCompletes envs [] argv s in
  o = Ok tt /\ Monitor.queue s' = Monitor.Queued [job (lit "2")].
Proof.
  cbv zeta.
  match goal with
  | |- let (o, s') :=
         Monitor.handleMonitor ?isUrl ?lower ?key ?page ?extract ?write
                               ?envs ?companies ?argv ?s in _ =>
      pose proof (processing_keeps_the_jobs_that_failed
                    isUrl lower key page extract write envs companies argv s)
        as H;
      cbv zeta in H;
      destruct (Monitor.handleMonitor isUrl lower key page extract write
                                      envs companies argv s)
        as [o s'] eqn:Hrun
  end.
  destruct H as (results & -> & _);
    [apply (bool_decide_unpack _); by vm_compute|done|done|].
  vm_compute in Hrun. injection Hrun as Hs'. split; [done|].
  by rewrite <- Hs'.
Defined.

(** ** Repeated flags *)

Lemma givesValue_test (flags : list string) (args : list jsstring) (i : nat) :
  bool_decide (Exists (fun flag => args !! i = Some (lit flag)) flags)
    && truthy (args !! S i) = true
  <-> givesValue flags args i.
Proof.
  unfold givesValue. rewrite andb_true_iff, bool_decide_eq_true, Exists_exists.
  done.
Qed.

Lemma filterOf_prefix (flags : list string) (args : list jsstring) (k : nat) :
  let found :=
    foldl (fun found i =>
             if bool_decide
                  (Exists (fun flag => args !! i = Some (lit flag)) flags)
                && truthy (args !! S i)
             then args !! S i else found)
          None (seq 0 k) in
  (forall i, (i < k)%nat -> givesValue flags args i ->
     (forall j, (i < j < k)%nat -> ~ givesValue flags args j) ->
     found = args !! S i)
  /\ ((forall i, (i < k)%nat -> ~ givesValue flags args i) -> found = None).
Proof.
  induction k as [|k [IH1 IH2]]; cbv zeta.
  { split; [intros; lia|done]. }
  rewrite seq_S, foldl_app. cbn [foldl Nat.add].
  destruct (bool_decide _ && truthy (args !! S k)) eqn:Htest.
  - apply givesValue_test in Htest. split.
    + intros i Hi Hgives Hlast.
      destruct (decide (i = k)) as [->|Hne]; [done|].
      destruct (Hlast k); [lia|done].
    + intros Hnone. destruct (Hnone k); [lia|done].
  - assert (~ givesValue flags args k) as Hk.
    { intros Hgives. apply givesValue_test in Hgives. congruence. }
    split.
    + intros i Hi Hgives Hlast.
      destruct (decide (i = k)) as [->|Hne]; [done|].
      apply IH1; [lia|done|]. intros j Hj. apply Hlast. lia.
    + intros Hnone. apply IH2. intros i Hi. apply Hnone. lia.
Qed.

(** X23. The filter of [list] for a set of flags is the value after
    the last argument that is one of the flags and has a value after
    it, wherever it stands among the arguments, and there is no
    filter when no argument is such a flag; an occurrence of a flag
    without a value after it is passed over.  The flags of [tag],
    [update] and [batch] are read otherwise: the value is the one
    after the first occurrence of the flag, and when that occurrence
    has no value the flag counts as not given, whatever a later
    occurrence has. *)
Theorem list_filter_takes_the_last_flag (flags : list string)
    (args : list jsstring) :
  (forall i,
     givesValue flags args i ->
     (forall j, (i < j)%nat -> ~ givesValue flags args j) ->
     Cli.filterOf flags args = args !! S i)
  /\ ((forall i, ~ givesValue flags args i) -> Cli.filterOf flags args = None)
  /\ (forall flag i,
        args !! i = Some (lit flag) ->
        (forall j, (j < i)%nat -> args !! j <> Some (lit flag)) ->
        flagValue args flag
        = (if truthy (args !! S i) then args !! S i else None))
  /\ (forall flag, (lit flag ∉ args) -> flagValue args flag = None).
Proof.
  destruct (filterOf_prefix flags args (length args)) as [Hlast Hnone].
  split; [|split; [|split]].
  - intros i Hgives Hlater. apply Hlast; [|done|by intros j [? _]; auto].
    destruct Hgives as [(flag & _ & Hi) _]. by eapply lookup_lt_Some.
  - intros Hno. apply Hnone. by intros i _.
  - intros flag i Hi Hfirst. unfold flagValue.
    assert (list_find (fun arg => arg = lit flag) args = Some (i, lit flag))
      as ->.
    { apply list_find_Some. split; [done|]. split; [done|].
      intros j y Hj Hlt ->. by destruct (Hfirst j Hlt). }
    cbv zeta. by rewrite Nat.add_1_r.
  - intros flag Hnot. unfold flagValue.
    destruct (list_find _ args) as [[i arg]|] eqn:Hfind; [|done].
    apply list_find_Some in Hfind as (Hi & -> & _).
    destruct Hnot. by eapply list_elem_of_lookup_2.
Qed.

(** [list -c acme --company initech --verbose] filters by initech,
    and [list --company --job x -c acme] by acme: the first
    [--company] takes [--job] for its value, which the later [-c]
    replaces.  [tag 0 --company acme --company initech] tags with
    acme. *)
Example repeated_flags :
  Cli.filterOf ["--company"%string; "-c"%string]
               [lit "list"; lit "-c"; lit "acme"; lit "--company";
                lit "initech"; lit "--verbose"]
  = Some (lit "initech")
  /\ Cli.filterOf ["--company"%string; "-c"%string]
                  [lit "list"; lit "--company"; lit "--job"; lit "x";
                   lit "-c"; lit "acme"]
     = Some (lit "acme")
  /\ Cli.filterOf ["--company"%string; "-c"%string]
                  [lit "list"; lit "acme"; lit "--company"]
     = None
  /\ flagValue [lit "tag"; lit "0"; lit "--company"; lit "acme";
                lit "--company"; lit "initech"] "--company"
     = Some (lit "acme").
Proof. by vm_compute. Qed.

(** ** Writing and reading the job queue *)

(** X24. Writing the queue with a write that completes and reading it
    back gives the jobs written when the URL of every one of them
    passes the URL check of the schema, and the empty queue as soon
    as one URL fails it: one such job hides all the others. *)
Theorem queue_round_trip_needs_valid_urls (isUrl : jsstring -> bool)
    (jobs : list Monitor.JobQueueEntry) (s : Monitor.Store) :
  let read :=
    fst ((Monitor.writeJobQueue WriteCompletes jobs ;;
          Monitor.readJobQueue isUrl) s) in
  (Forall (fun job => isUrl (Monitor.url job) = true) jobs ->
   read = Ok jobs)
  /\ (Exists (fun job => isUrl (Monitor.url job) = false) jobs ->
      read = Ok []).
Proof.
  cbv zeta. unfold Monitor.writeJobQueue.
  rewrite bindQ_run. unfold Monitor.putQueue. rewrite readJobQueue_run.
  cbn [fst jobsOf Monitor.queue].
  split.
  - intros Hall. rewrite (proj2 (forallb_forall _ _)); [done|].
    intros job Hin. apply list_elem_of_In in Hin.
    by apply (proj1 (Forall_forall _ _) Hall).
  - intros (job & Hin & Hbad)%Exists_exists.
    destruct (forallb _ jobs) eqn:Hall; [|done].
    apply list_elem_of_In in Hin.
    rewrite forallb_forall in Hall. apply Hall in Hin. congruence.
Qed.
